(** * bgg-scraper: the batch-ingestion pipeline of [index.ts]

    A shallow embedding of the scoring helpers, the record normaliser and the
    ingestion loop of [src/index.ts], followed by the properties the
    specification states about them.

    JavaScript numbers are IEEE-754 binary64 values; they are modelled by
    Rocq's primitive [float], whose operations are the same binary64
    operations.  Counters the program only ever increments by one (batch
    indices, array lengths, the processed count) are kept in [Z] and are
    converted with [Z2f] where the source mixes them into double
    arithmetic. *)

From Stdlib Require Import ZArith List String Ascii Bool Lia Floats Uint63.
From Stdlib Require Import QArith Qround Reals Lra DecimalString DecimalPos.
Import ListNotations.

Local Open Scope Z_scope.

(** ** The JavaScript values and built-ins the program uses *)

Module JS.

(** A value that may be [undefined] or [null] (the program tests both). *)
Inductive nullable (A : Type) : Type :=
| undefined
| null
| present (a : A).
Arguments undefined {A}.
Arguments null {A}.
Arguments present {A} a.

Definition isNullish {A} (v : nullable A) : bool :=
  match v with present _ => false | _ => true end.

(** [string | number] *)
Inductive scalar : Type :=
| Str (s : string)
| Num (x : float).

(** What a call completes with: a value, or a thrown exception. *)
Inductive exn : Type := TypeError.

Inductive completion (A : Type) : Type :=
| Return (a : A)
| Throw (e : exn).
Arguments Return {A} a.
Arguments Throw {A} e.

Definition bind {A B} (c : completion A) (k : A -> completion B) : completion B :=
  match c with
  | Return a => k a
  | Throw e => Throw e
  end.

(** [array.forEach] / [array.reduce] with a callback that may throw. *)
Fixpoint foldM {A S} (f : S -> A -> completion S) (l : list A) (s : S)
  : completion S :=
  match l with
  | [] => Return s
  | a :: l' => bind (f s a) (foldM f l')
  end.

(** [array.map] with a callback that may throw. *)
Fixpoint mapM {A B} (f : A -> completion B) (l : list A) : completion (list B) :=
  match l with
  | [] => Return []
  | a :: l' => bind (f a) (fun b => bind (mapM f l') (fun bs => Return (b :: bs)))
  end.

(** The double nearest to an integer.  Below 2^63 this is the primitive
    conversion; larger magnitudes go through the normaliser of the
    binary64 specification. *)
Definition Z2f (z : Z) : float :=
  let conv (a : Z) : float :=
    if a <? 9223372036854775808
    then of_uint63 (Uint63.of_Z a)
    else SF2Prim (binary_normalize prec emax a 0 false) in
  if z <? 0 then (- conv (- z)%Z)%float else conv z.

(** [x == lit] for a string literal [lit] that is not a numeric string
    (every literal the program compares against is of this kind): a
    number is never loosely equal to it. *)
Definition looseEq (v : scalar) (lit : string) : bool :=
  match v with
  | Str s => String.eqb s lit
  | Num _ => false
  end.

(** [Math.round]: the nearest integer, ties towards +infinity; NaN, the
    infinities and the zeros are returned unchanged, and a result of zero
    keeps the sign of the argument. *)
Definition Math_round (x : float) : float :=
  match Prim2SF x with
  | S754_finite s m e =>
      if 0 <=? e then x
      else
        let n := Z.shiftr (2 * cond_Zopp s (Zpos m) + 2 ^ (- e)) (1 - e) in
        if n =? 0 then (if s then neg_zero else zero) else Z2f n
  | _ => x
  end.

(** [Math.ceil]. *)
Definition Math_ceil (x : float) : float :=
  match Prim2SF x with
  | S754_finite s m e =>
      if 0 <=? e then x
      else
        let n := - Z.shiftr (- cond_Zopp s (Zpos m)) (- e) in
        if n =? 0 then (if s then neg_zero else zero) else Z2f n
  | _ => x
  end.

(** [Math.max(a, b)]: NaN if either is NaN, and +0 is larger than -0. *)
Definition Math_max (a b : float) : float :=
  if is_nan a || is_nan b then nan
  else if (a <? b)%float then b
  else if (b <? a)%float then a
  else if get_sign a then b else a.

(** A [string] of the model is a sequence of code units below 256, one
    per character; text with characters beyond that range is outside the
    model.  In this range the white space of JavaScript (the class [\s]
    and what [parseInt] skips) is the control characters 9 to 13, the
    space and the no-break space. *)
Definition isWhiteSpace (c : ascii) : bool :=
  let n := nat_of_ascii c in
  (((9 <=? n) && (n <=? 13)) || (n =? 32) || (n =? 160))%nat.

(** [Number.parseInt(string)] (no radix argument). *)
Fixpoint trimStart (s : string) : string :=
  match s with
  | String c s' => if isWhiteSpace c then trimStart s' else s
  | EmptyString => s
  end.

Definition digitValue (c : ascii) : option Z :=
  let n := Z.of_nat (nat_of_ascii c) in
  if (48 <=? n) && (n <=? 57) then Some (n - 48)
  else if (97 <=? n) && (n <=? 122) then Some (n - 87)
  else if (65 <=? n) && (n <=? 90) then Some (n - 55)
  else None.

(** The longest prefix of radix-[radix] digits, as an integer; [None]
    when it is empty. *)
Fixpoint digitsPrefix (radix : Z) (s : string) (acc : option Z) : option Z :=
  match s with
  | String c s' =>
      match digitValue c with
      | Some d =>
          if d <? radix
          then digitsPrefix radix s'
                 (Some (match acc with Some a => a * radix + d | None => d end))
          else acc
      | None => acc
      end
  | EmptyString => acc
  end.

Definition parseInt (input : string) : float :=
  let s := trimStart input in
  let '(negative, s) :=
    match s with
    | String "-" s' => (true, s')
    | String "+" s' => (false, s')
    | _ => (false, s)
    end in
  let '(radix, s) :=
    match s with
    | String "0" (String "x" s') => (16, s')
    | String "0" (String "X" s') => (16, s')
    | _ => (10, s)
    end in
  match digitsPrefix radix s None with
  | None => nan
  | Some n => if negative then (- Z2f n)%float else Z2f n
  end.

(** [Array.prototype.splice(0, deleteCount)]: the removed prefix and what
    stays in the array; a negative count removes nothing, a count past
    the end removes everything. *)
Definition splice0 {A} (deleteCount : Z) (arr : list A) : list A * list A :=
  (firstn (Z.to_nat deleteCount) arr, skipn (Z.to_nat deleteCount) arr).

(** Template-literal interpolation of an integer. *)
Definition numToString (z : Z) : string :=
  NilZero.string_of_int (Z.to_int z).

End JS.

Export JS.

(** ** The poll DTOs of the client library, as [index.ts] reads them

    The declarations live in the client library, not in this repository.
    A field the program guards against [undefined]/[null] somewhere is
    [nullable]; a field it only ever reads bare is plain. *)

Record BggPollResultItemDto : Type := {
  item_value : scalar;
  item_numvotes : nullable float
}.

Record BggPollResultDto : Type := {
  numplayers : nullable scalar;
  resultItemList : nullable (list BggPollResultItemDto)
}.

Record BggPollDto : Type := {
  poll_name : string;
  totalvotes : nullable string;
  results : nullable (list BggPollResultDto)
}.

(** ** RecommendationScorer (index.ts, lines 71-242) *)

Record Recommendation : Type := {
  value : scalar;
  score : float
}.

Record PollResult : Type := {
  pr_score : float;
  pr_votes : float
}.

Definition nullGuard {T} (value : nullable T) (defaultValue : T) : T :=
  match value with
  | undefined | null => defaultValue
  | present v => v
  end.

(** [result.length === 0 ? undefined : result] *)
Definition nonEmptyOrUndefined {A} (result : list A) : nullable (list A) :=
  match result with
  | [] => undefined
  | _ => present result
  end.

(** [polls?.find((p) => p.name == wanted)] *)
Definition findPoll (polls : nullable (list BggPollDto)) (wanted : string)
  : nullable BggPollDto :=
  match polls with
  | undefined | null => undefined
  | present ps =>
      match find (fun p => String.eqb (poll_name p) wanted) ps with
      | Some p => present p
      | None => undefined
      end
  end.

(** The callback of the inner [forEach] of [parsePlayerAgePoll]. *)
Definition pushAgeVote (totalVotes : float) (result : list Recommendation)
    (ageVote : BggPollResultItemDto) : list Recommendation :=
  let numOfVotes := nullGuard (item_numvotes ageVote) 0%float in
  if (numOfVotes =? 0)%float then result
  else result ++ [ {| value := item_value ageVote;
                      score := Math_round (numOfVotes / totalVotes * 100)%float |} ].

(** The callback of the outer [forEach]: [item.resultItemList.forEach]
    throws when the list is missing. *)
Definition pushAgeGroup (totalVotes : float) (result : list Recommendation)
    (item : BggPollResultDto) : completion (list Recommendation) :=
  match resultItemList item with
  | undefined | null => Throw TypeError
  | present votes => Return (fold_left (pushAgeVote totalVotes) votes result)
  end.

Definition parsePlayerAgePoll (pollResult : BggPollDto)
  : completion (nullable (list Recommendation)) :=
  match results pollResult with
  | undefined | null | present [] => Return undefined
  | present groups =>
      let totalVotes := parseInt (nullGuard (totalvotes pollResult) "0"%string) in
      if (totalVotes =? 0)%float then Return undefined
      else
        bind (foldM (pushAgeGroup totalVotes) groups [])
             (fun result => Return (nonEmptyOrUndefined result))
  end.

Definition calculateRecommendedAgeScore (polls : nullable (list BggPollDto))
  : completion (nullable (list Recommendation)) :=
  match findPoll polls "suggested_playerage" with
  | undefined | null => Return undefined
  | present poll => parsePlayerAgePoll poll
  end.

(** The reducer of [parseNumPlayersPoll] (lines 190-207). *)
Definition tally (acc : PollResult) (item : BggPollResultItemDto) : PollResult :=
  let numOfVotes := nullGuard (item_numvotes item) 0%float in
  if (numOfVotes =? 0)%float then acc
  else if looseEq (item_value item) "Best" then
    {| pr_score := (pr_score acc + numOfVotes)%float;
       pr_votes := (pr_votes acc + numOfVotes)%float |}
  else if looseEq (item_value item) "Recommended" then
    {| pr_score := (pr_score acc + 0.5 * numOfVotes)%float;
       pr_votes := (pr_votes acc + numOfVotes)%float |}
  else if looseEq (item_value item) "Not Recommended" then
    {| pr_score := (pr_score acc - 0.5 * numOfVotes)%float;
       pr_votes := (pr_votes acc + numOfVotes)%float |}
  else acc.

(** [Math.max(0, Math.round((summary.score / summary.votes) * 100))] *)
Definition groupScore (summary : PollResult) : float :=
  Math_max 0 (Math_round (pr_score summary / pr_votes summary * 100)%float).

(** The callback of the [forEach] of [parseNumPlayersPoll]: the guard tests
    [resultItemList] against [undefined] only, so [null.reduce] throws. *)
Definition pushPlayerGroup (result : list Recommendation) (item : BggPollResultDto)
  : completion (list Recommendation) :=
  match numplayers item, resultItemList item with
  | undefined, _ | null, _ | present _, undefined => Return result
  | present _, null => Throw TypeError
  | present bucket, present options =>
      let summary := fold_left tally options {| pr_score := 0; pr_votes := 0 |} in
      if negb (pr_votes summary =? 0)%float
      then Return (result ++ [ {| value := bucket; score := groupScore summary |} ])
      else Return result
  end.

Definition parseNumPlayersPoll (pollResult : BggPollDto)
  : completion (nullable (list Recommendation)) :=
  match results pollResult with
  | undefined | null | present [] => Return undefined
  | present groups =>
      bind (foldM pushPlayerGroup groups [])
           (fun result => Return (nonEmptyOrUndefined result))
  end.

Definition calculateRecommendedPlayerCountScore (polls : nullable (list BggPollDto))
  : completion (nullable (list Recommendation)) :=
  match findPoll polls "suggested_numplayers" with
  | undefined | null => Return undefined
  | present poll => parseNumPlayersPoll poll
  end.

Definition getTopRecommendation (recommendations : nullable (list Recommendation))
  : nullable Recommendation :=
  match recommendations with
  | undefined | null | present [] => undefined
  | present ((first :: _) as l) =>
      if forallb (fun item => (score item =? 0)%float) l then undefined
      else present (fold_left
                      (fun acc item => if (score acc <? score item)%float then item else acc)
                      l first)
  end.

(** ** RecordNormalizer (index.ts, lines 81-112 and 244-291) *)

Record BggLinkDto : Type := {
  link_type : string;
  link_value : string
}.

(** [thing.statistics.ratings] *)
Record BggRatingsDto : Type := {
  average : float;
  bayesaverage : float;
  stddev : float;
  averageweight : float
}.

Record BggStatisticsDto : Type := {
  ratings : BggRatingsDto
}.

(** An item as [parseGame] reads it.  [statistics] and its [ratings] are
    read bare (lines 261-265), and the entries of the lists are read bare
    as well: an item without them, or a list with a [null] entry, on
    which the source throws a [TypeError] of its own, is outside the
    model. *)
Record BggThingDto : Type := {
  thing_id : float;
  thing_thumbnail : string;
  thing_image : string;
  thing_name : string;
  thing_description : string;
  yearpublished : float;
  statistics : BggStatisticsDto;
  links : nullable (list BggLinkDto);
  playingtime : float;
  minplaytime : float;
  maxplaytime : float;
  minplayers : float;
  maxplayers : float;
  minage : float;
  polls : nullable (list BggPollDto)
}.

Record Rating : Type := {
  rating_average : float;
  rating_bayesian : float;
  rating_stddev : float
}.

Record PlayTimeMinutes : Type := {
  playTime_rated : float;
  playTime_min : float;
  playTime_max : float
}.

(** The [age] and [playerCount] blocks of [Game]. *)
Record Age : Type := {
  age_rated : float;
  age_suggested : nullable scalar;
  age_pollResults : nullable (list Recommendation)
}.

Record PlayerCount : Type := {
  playerCount_min : float;
  playerCount_max : float;
  playerCount_suggested : nullable scalar;
  playerCount_pollResults : nullable (list Recommendation)
}.

Record Game : Type := {
  id : float;
  thumbnail : string;
  image : string;
  name : string;
  description : string;
  yearPublished : float;
  categories : list string;
  mechanics : list string;
  complexity : float;
  rating : Rating;
  playTimeMinutes : PlayTimeMinutes;
  age : Age;
  playerCount : PlayerCount
}.

(** [.replace(/&#(\d+)(;)/g, " ")]: one left-to-right pass that holds back a
    possible match ["&#ddd"] and releases it unchanged when the match fails. *)
Inductive refScan : Type :=
| Plain
| SeenAmp
| SeenHash (digits : string).

Definition isDigit (c : ascii) : bool :=
  let n := nat_of_ascii c in ((48 <=? n) && (n <=? 57))%nat.

Definition heldBack (st : refScan) : string :=
  match st with
  | Plain => EmptyString
  | SeenAmp => "&"%string
  | SeenHash digits => ("&#" ++ digits)%string
  end.

Fixpoint blankNumericRefs (st : refScan) (s : string) : string :=
  match s with
  | EmptyString => heldBack st
  | String c s' =>
      let restart :=
        if Ascii.eqb c "&"
        then (heldBack st ++ blankNumericRefs SeenAmp s')%string
        else (heldBack st ++ String c (blankNumericRefs Plain s'))%string in
      match st with
      | Plain => restart
      | SeenAmp =>
          if Ascii.eqb c "#" then blankNumericRefs (SeenHash "") s' else restart
      | SeenHash digits =>
          if isDigit c
          then blankNumericRefs (SeenHash (digits ++ String c "")%string) s'
          else if Ascii.eqb c ";" && negb (String.eqb digits "")
               then String " " (blankNumericRefs Plain s')
               else restart
      end
  end.

(** [.replace(/\n/g, " ")] *)
Fixpoint blankNewlines (s : string) : string :=
  match s with
  | EmptyString => EmptyString
  | String c s' =>
      String (if Ascii.eqb c "010" then " "%char else c) (blankNewlines s')
  end.

(** [.replace(/\s\s+/g, " ")]: a run of two or more white-space characters
    becomes one space; a single one stays as it is.  [pending] is the first
    character of the current run and [long] says the run has a second one. *)
Fixpoint collapseWhiteSpace (pending : option ascii) (long : bool) (s : string)
  : string :=
  let flush :=
    match pending with
    | None => EmptyString
    | Some c => String (if long then " "%char else c) EmptyString
    end in
  match s with
  | EmptyString => flush
  | String c s' =>
      if isWhiteSpace c then
        match pending with
        | None => collapseWhiteSpace (Some c) false s'
        | Some _ => collapseWhiteSpace pending true s'
        end
      else (flush ++ String c (collapseWhiteSpace None false s'))%string
  end.

Section Normalizer.

(** [decode(text, { level })] of the html-entities package. *)
Variable decode : string -> string -> string.

Definition cleanDescription (text : string) : string :=
  collapseWhiteSpace None false
    (blankNewlines
       (blankNumericRefs Plain (decode (decode text "html5") "html4"))).

(** [thing.links?.filter((link) => link.type == kind).map((link) => link.value) ?? []] *)
Definition linkValues (ls : nullable (list BggLinkDto)) (kind : string)
  : list string :=
  match ls with
  | undefined | null => []
  | present l => map link_value (filter (fun link => String.eqb (link_type link) kind) l)
  end.

(** [getTopRecommendation(poll)?.value] *)
Definition suggestedValue (poll : nullable (list Recommendation)) : nullable scalar :=
  match getTopRecommendation poll with
  | undefined | null => undefined
  | present top => present (value top)
  end.

Definition parseGame (thing : BggThingDto) : completion Game :=
  bind (calculateRecommendedPlayerCountScore (polls thing)) (fun playerCountPoll =>
  bind (calculateRecommendedAgeScore (polls thing)) (fun agePoll =>
  Return
    {| id := thing_id thing;
       thumbnail := thing_thumbnail thing;
       image := thing_image thing;
       name := thing_name thing;
       description := cleanDescription (thing_description thing);
       yearPublished := yearpublished thing;
       rating :=
         {| rating_average := average (ratings (statistics thing));
            rating_bayesian := bayesaverage (ratings (statistics thing));
            rating_stddev := stddev (ratings (statistics thing)) |};
       complexity := averageweight (ratings (statistics thing));
       categories := linkValues (links thing) "boardgamecategory";
       mechanics := linkValues (links thing) "boardgamemechanic";
       playTimeMinutes :=
         {| playTime_rated := playingtime thing;
            playTime_min := minplaytime thing;
            playTime_max := maxplaytime thing |};
       playerCount :=
         {| playerCount_min := minplayers thing;
            playerCount_max := maxplayers thing;
            playerCount_suggested := suggestedValue playerCountPoll;
            playerCount_pollResults := playerCountPoll |};
       age :=
         {| age_rated := minage thing;
            age_suggested := suggestedValue agePoll;
            age_pollResults := agePoll |} |})).

End Normalizer.

(** ** The arithmetic of the running average

    [updateAverage] is line 377-379 of the source.  It is written once over
    the four operations it uses, so that the double arithmetic the program
    runs and exact rational arithmetic can be compared. *)

Class Arith (T : Type) : Type := {
  add : T -> T -> T;
  mul : T -> T -> T;
  div : T -> T -> T;
  ofZ : Z -> T
}.

#[export] Instance doubleArith : Arith float := {|
  add := PrimFloat.add;
  mul := PrimFloat.mul;
  div := PrimFloat.div;
  ofZ := Z2f
|}.


Definition updateAverage {T} `{Arith T}
    (averageTimePerBatch : T) (batchesProcessed : Z) (timeTaken : T) : T :=
  div (add (mul averageTimePerBatch (ofZ (batchesProcessed - 1))) timeTaken)
      (ofZ batchesProcessed).


(** ** BatchPlanner, IngestionLoop and StatsTracker
    (index.ts, lines 9-69 and 293-406) *)

Record BatchError : Type := {
  ids : list float;
  error : string
}.

(** [Stats] without its two [Date] fields. *)
Record Stats : Type := {
  batchSize : Z;
  availableBatches : float;
  startingBatch : Z;
  batchesProcessed : Z;
  errors : list BatchError;
  averageTimePerBatch : float
}.

(** The command-line options after parsing (an option whose [parseInt]
    fails is outside the model). *)
Record Options : Type := {
  opt_debug : bool;
  opt_skipBatchCount : nullable Z;
  opt_batchSize : Z
}.

(** What the remote query did: it raised, or it resolved to a value. *)
Inductive FetchResult : Type :=
| Rejected
| Resolved (things : nullable (list BggThingDto)).

(** One pass through the loop body as the environment decides it: the
    outcome of the query and the elapsed time [performance.now() - start]. *)
Record Attempt : Type := {
  fetched : FetchResult;
  timeTaken : float
}.

(** The observable actions of the loop, in program order. *)
Inductive Effect : Type :=
| Query (client : nat) (ids : list float)
| CreateClient
| Sleep (ms : float)
| WriteBatch (path : string) (games : list Game)
| WriteRaw (path : string) (things : list BggThingDto)
| Exit (code : Z).

Definition sleepTime : Z := 5000.
Definition timeBetweenRequests : Z := 5000.
Definition targetPrefix : string := "batch_".

Section IngestionLoop.

Variable decode : string -> string -> string.
Variable Row : Type.
Variable rowId : Row -> float.
Variable options : Options.

Record LoopState : Type := {
  df : list Row;
  batch : list Row;
  currentBatchCount : Z;
  client : nat;
  stats : Stats;
  effects : list Effect
}.

Inductive Outcome : Type :=
| Continue (st : LoopState)
| Done (st : LoopState)
| Exited (st : LoopState)
| Uncaught (e : exn) (st : LoopState).

Definition outputDir : string :=
  if opt_debug options then "debug" else "output".

Definition pushError (s : Stats) (e : BatchError) : Stats :=
  {| batchSize := batchSize s;
     availableBatches := availableBatches s;
     startingBatch := startingBatch s;
     batchesProcessed := batchesProcessed s;
     errors := errors s ++ [e];
     averageTimePerBatch := averageTimePerBatch s |}.

Definition recordBatch (s : Stats) (elapsed : float) : Stats :=
  {| batchSize := batchSize s;
     availableBatches := availableBatches s;
     startingBatch := startingBatch s;
     batchesProcessed := batchesProcessed s + 1;
     errors := errors s;
     averageTimePerBatch :=
       updateAverage (averageTimePerBatch s) (batchesProcessed s + 1) elapsed |}.

(** Line 303. *)
Definition totalBatchCount (rows : list Row) : float :=
  Math_ceil (Z2f (Z.of_nat (List.length rows)) / Z2f (opt_batchSize options))%float.

(** Lines 306-313: the resume offset.  The result is [currentBatchCount]
    and what is left in [df.value]. *)
Definition skipBatches (rows : list Row) : Z * list Row :=
  match opt_skipBatchCount options with
  | present n => (n, snd (splice0 (n * opt_batchSize options) rows))
  | _ => (0, rows)
  end.

(** Lines 303-332: the state in which the [while] loop is entered. *)
Definition start (rows : list Row) : LoopState :=
  let '(skipped, queue) := skipBatches rows in
  let '(first, queue) := splice0 (opt_batchSize options) queue in
  {| df := queue;
     batch := first;
     currentBatchCount := skipped + 1;
     client := O;
     stats := {| batchSize := opt_batchSize options;
                 availableBatches := totalBatchCount rows;
                 startingBatch := skipped + 1;
                 batchesProcessed := 0;
                 errors := [];
                 averageTimePerBatch := 0 |};
     effects := [] |}.

(** Lines 341-405: one pass through the body of the [while] loop. *)
Definition iteration (a : Attempt) (st : LoopState) : Outcome :=
  let batchIds := map rowId (batch st) in
  let asked := effects st ++ [Query (client st) batchIds] in
  match fetched a with
  | Rejected =>
      let message :=
        ("Error fetching batch " ++ numToString (currentBatchCount st)
         ++ ", recreating client and retrying after "
         ++ numToString (sleepTime / 1000) ++ "sec...")%string in
      Continue
        {| df := df st;
           batch := batch st;
           currentBatchCount := currentBatchCount st;
           client := S (client st);
           stats := pushError (stats st) {| ids := batchIds; error := message |};
           effects := asked ++ [CreateClient; Sleep (Z2f sleepTime)] |}
  | Resolved response =>
      let '(things, noted) :=
        match response with
        | present (t :: ts) => (t :: ts, stats st)
        | _ => ([], pushError (stats st)
                      {| ids := batchIds; error := "No data returned from BGG API" |})
        end in
      match mapM (parseGame decode) things with
      | Throw e =>
          Uncaught e
            {| df := df st; batch := batch st;
               currentBatchCount := currentBatchCount st; client := client st;
               stats := noted; effects := asked |}
      | Return games =>
          let file :=
            ("./" ++ outputDir ++ "/" ++ targetPrefix
             ++ numToString (currentBatchCount st) ++ ".json")%string in
          let written := asked ++ [WriteBatch file games] in
          let '(next, queue) := splice0 (opt_batchSize options) (df st) in
          let counted := recordBatch noted (timeTaken a) in
          if opt_debug options then
            let raw :=
              ("./debug/" ++ targetPrefix
               ++ numToString (currentBatchCount st) ++ "-raw.json")%string in
            Exited
              {| df := queue; batch := next;
                 currentBatchCount := currentBatchCount st; client := client st;
                 stats := counted;
                 effects := written ++ [WriteRaw raw things; Exit 0] |}
          else
            Continue
              {| df := queue; batch := next;
                 currentBatchCount := currentBatchCount st + 1; client := client st;
                 stats := counted;
                 effects :=
                   written ++
                   (if (timeTaken a <? Z2f timeBetweenRequests)%float
                    then [Sleep (Z2f timeBetweenRequests - timeTaken a)%float]
                    else []) |}
      end
  end.

(** The [while (batch.length > 0)] loop, driven by what the environment
    answers to each query.  [Continue] is returned when the answers run
    out while a batch is still pending. *)
Fixpoint run (env : list Attempt) (st : LoopState) : Outcome :=
  match batch st with
  | [] => Done st
  | _ :: _ =>
      match env with
      | [] => Continue st
      | a :: env' =>
          match iteration a st with
          | Continue st' => run env' st'
          | halted => halted
          end
      end
  end.

(** The batches a run fetches when nothing stops it: the pending batch,
    then what each [splice] of line 374 takes next. *)
Fixpoint batchesFrom (fuel : nat) (pending : list Row) (queue : list Row)
  : list (list Row) :=
  match fuel, pending with
  | O, _ | _, [] => []
  | S fuel', _ :: _ =>
      let '(next, queue') := splice0 (opt_batchSize options) queue in
      pending :: batchesFrom fuel' next queue'
  end.

Definition plannedBatches (rows : list Row) : list (list Row) :=
  let st := start rows in
  batchesFrom (S (List.length rows)) (batch st) (df st).

End IngestionLoop.

Arguments df {Row} _.
Arguments batch {Row} _.
Arguments currentBatchCount {Row} _.
Arguments client {Row} _.
Arguments stats {Row} _.
Arguments effects {Row} _.
Arguments Build_LoopState {Row} _ _ _ _ _ _.
Arguments Continue {Row} st.
Arguments Done {Row} st.
Arguments Exited {Row} st.
Arguments Uncaught {Row} e st.
Arguments iteration decode {Row} rowId options a st.
Arguments run decode {Row} rowId options env st.
Arguments start {Row} options rows.
Arguments skipBatches {Row} options rows.
Arguments totalBatchCount {Row} options rows.
Arguments batchesFrom {Row} options fuel pending queue.
Arguments plannedBatches {Row} options rows.

(** ** Auxiliary definitions used by the statements and proofs *)

(** A position in the order of the non-NaN binary64 values: class (the
    infinities, negative, zero, positive), then exponent, then mantissa,
    the last two negated for negative values. *)
Definition rank (f : spec_float) : Z * Z * Z :=
  match f with
  | S754_nan => (0, 0, 0)
  | S754_zero _ => (0, 0, 0)
  | S754_infinity true => (-2, 0, 0)
  | S754_infinity false => (2, 0, 0)
  | S754_finite false m e => (1, e, Zpos m)
  | S754_finite true m e => (-1, - e, Zneg m)
  end.

Definition lexLt (a b : Z * Z * Z) : Prop :=
  let '(a1, a2, a3) := a in
  let '(b1, b2, b3) := b in
  a1 < b1 \/ (a1 = b1 /\ (a2 < b2 \/ (a2 = b2 /\ a3 < b3))).

(** [top] is the first element of [l] with the largest score: everything
    before it scores strictly less, nothing after it scores more. *)
Definition firstMaximum (top : Recommendation) (l : list Recommendation) : Prop :=
  exists before after,
    l = before ++ top :: after
    /\ Forall (fun r => (score r <? score top)%float = true) before
    /\ Forall (fun r => (score r <=? score top)%float = true) after.

Definition numeric (r : Recommendation) : Prop := is_nan (score r) = false.

(** The identifier lists of the queries among the effects of a run. *)
Definition queried (effs : list Effect) : list (list float) :=
  flat_map (fun e => match e with Query _ q => [q] | _ => [] end) effs.

(** A query that resolves to a list the normaliser accepts. *)
Definition delivers (decode : string -> string -> string) (a : Attempt) : Prop :=
  match fetched a with
  | Rejected => False
  | Resolved response =>
      match response with
      | present things => exists games, mapM (parseGame decode) things = Return games
      | _ => True
      end
  end.

(** The integer ceiling of [a / b] for positive [b]. *)
Definition ceilDiv (a b : Z) : Z := (a + b - 1) / b.

(** [things === undefined || things === null || things.length === 0] *)
Definition isEmptyResponse (response : nullable (list BggThingDto)) : bool :=
  match response with
  | present (_ :: _) => false
  | _ => true
  end.

(** [things] after line 358. *)
Definition fetchedThings (response : nullable (list BggThingDto)) : list BggThingDto :=
  match response with
  | present l => l
  | _ => []
  end.

(** The attempts that went through the bookkeeping of lines 375-379. *)
Definition durations (env : list Attempt) : list float :=
  flat_map (fun a => match fetched a with
                     | Rejected => []
                     | Resolved _ => [timeTaken a]
                     end) env.


Section LoopStates.

Variable Row : Type.
Variable rowId : Row -> float.
Variable options : Options.

Definition retryMessage (n : Z) : string :=
  ("Error fetching batch " ++ numToString n
   ++ ", recreating client and retrying after 5sec...")%string.

Definition noDataError (st : LoopState Row) : BatchError :=
  {| ids := map rowId (batch st); error := "No data returned from BGG API" |}.

(** The state after a pass whose query raised: the same batch, queue and
    batch index, a new client, one more error entry, and the back-off. *)
Definition afterRejected (st : LoopState Row) : LoopState Row :=
  {| df := df st;
     batch := batch st;
     currentBatchCount := currentBatchCount st;
     client := S (client st);
     stats := pushError (stats st)
                {| ids := map rowId (batch st);
                   error := retryMessage (currentBatchCount st) |};
     effects := effects st
                ++ [Query (client st) (map rowId (batch st));
                    CreateClient; Sleep 5000] |}.

(** The state after a pass whose query resolved and whose items the
    normaliser accepted. *)
Definition afterResolved (a : Attempt) (response : nullable (list BggThingDto))
    (games : list Game) (st : LoopState Row) : LoopState Row :=
  {| df := snd (splice0 (opt_batchSize options) (df st));
     batch := fst (splice0 (opt_batchSize options) (df st));
     currentBatchCount :=
       if opt_debug options then currentBatchCount st else currentBatchCount st + 1;
     client := client st;
     stats :=
       recordBatch
         (if isEmptyResponse response then pushError (stats st) (noDataError st)
          else stats st)
         (timeTaken a);
     effects :=
       effects st
       ++ [Query (client st) (map rowId (batch st));
           WriteBatch ("./" ++ (if opt_debug options then "debug" else "output")
                       ++ "/batch_" ++ numToString (currentBatchCount st) ++ ".json")
                      games]
       ++ (if opt_debug options
           then [WriteRaw ("./debug/batch_" ++ numToString (currentBatchCount st)
                           ++ "-raw.json")
                          (fetchedThings response);
                 Exit 0]
           else if (timeTaken a <? 5000)%float
                then [Sleep (5000 - timeTaken a)%float]
                else []) |}.

End LoopStates.

Arguments noDataError {Row} rowId st.
Arguments afterRejected {Row} rowId st.
Arguments afterResolved {Row} rowId options a response games st.

(** The claim of the specification about fetch failures, as it is worded:
    after a query that raised, or that resolved to an empty or absent
    result set, the loop goes on with the same batch, the same queue and
    the same batch index, under a new client. *)
Definition retriesEveryFailure (decode : string -> string -> string)
    (Row : Type) (rowId : Row -> float) (options : Options) : Prop :=
  forall (a : Attempt) (st : LoopState Row),
    match fetched a with
    | Rejected => True
    | Resolved response => isEmptyResponse response = true
    end ->
    exists st',
      iteration decode rowId options a st = Continue st'
      /\ batch st' = batch st
      /\ df st' = df st
      /\ currentBatchCount st' = currentBatchCount st
      /\ client st' = S (client st).




(** ** Concrete inputs used by the examples *)

Definition rows95 : list Z := map Z.of_nat (seq 1 95).

Definition plain40 : Options :=
  {| opt_debug := false; opt_skipBatchCount := undefined; opt_batchSize := 40 |}.

Definition skip1of40 : Options :=
  {| opt_debug := false; opt_skipBatchCount := present 1; opt_batchSize := 40 |}.


(** An item without links and with the given polls. *)
Definition thingWith (ps : nullable (list BggPollDto)) : BggThingDto :=
  {| thing_id := 1;
     thing_thumbnail := "";
     thing_image := "";
     thing_name := "Sample";
     thing_description := "";
     yearpublished := 2020;
     statistics :=
       {| ratings := {| average := 7; bayesaverage := 6; stddev := 1;
                        averageweight := 2 |} |};
     links := undefined;
     playingtime := 60;
     minplaytime := 30;
     maxplaytime := 90;
     minplayers := 2;
     maxplayers := 4;
     minage := 10;
     polls := ps |}.

(** Three queries that each return one item after 5461.4 ms. *)
Definition steadyAttempt : Attempt :=
  {| fetched := Resolved (present [thingWith undefined]);
     timeTaken := (54614 / 10)%float |}.


Definition keepText (text : string) (level : string) : string := text.

(** ** Declarative descriptions of the two scorers *)

(** [nullGuard(item.numvotes, 0)] *)
Definition votesOf (e : BggPollResultItemDto) : float :=
  nullGuard (item_numvotes e) 0%float.

Definition voted (e : BggPollResultItemDto) : bool :=
  negb (votesOf e =? 0)%float.

Definition itemsOf (g : BggPollResultDto) : list BggPollResultItemDto :=
  match resultItemList g with
  | present l => l
  | _ => []
  end.

Definition hasItems (g : BggPollResultDto) : Prop :=
  exists l, resultItemList g = present l.

(** A group with a bucket does not carry [null] for its option list. *)
Definition noNullItems (g : BggPollResultDto) : Prop :=
  isNullish (numplayers g) = false -> resultItemList g <> null.

Definition ageRecommendation (totalVotes : float) (e : BggPollResultItemDto)
  : Recommendation :=
  {| value := item_value e;
     score := Math_round (votesOf e / totalVotes * 100)%float |}.

(** The total of the age poll as line 135 reads it. *)
Definition totalVotesOf (p : BggPollDto) : float :=
  parseInt (nullGuard (totalvotes p) "0"%string).

(** The four ways in which the age poll yields nothing. *)
Definition ageAbsent (polls : nullable (list BggPollDto)) : Prop :=
  match findPoll polls "suggested_playerage" with
  | present p =>
      match results p with
      | present groups =>
          groups = []
          \/ (totalVotesOf p =? 0)%float = true
          \/ Forall (fun e => voted e = false) (flat_map itemsOf groups)
      | _ => True
      end
  | _ => True
  end.

(** What one result group of the player-count poll contributes. *)
Definition playerGroupRecommendation (g : BggPollResultDto) : list Recommendation :=
  match numplayers g, resultItemList g with
  | present bucket, present options =>
      let summary := fold_left tally options {| pr_score := 0; pr_votes := 0 |} in
      if (pr_votes summary =? 0)%float then []
      else [ {| value := bucket; score := groupScore summary |} ]
  | _, _ => []
  end.

(** ** The score formulas as the specification words them *)

(** Rounding to the nearest integer, halves away from zero. *)
Definition specRound (q : Q) : Z :=
  if Qle_bool 0 q then Qfloor (q + (1 # 2)) else (- Qfloor (- q + (1 # 2)))%Z.

(** round(100 * numVotes / totalVotes) *)
Definition specAgeScore (numVotes totalVotes : Z) : Z :=
  specRound (100 * inject_Z numVotes / inject_Z totalVotes).

(** round(100 * tally / groupVoteCount), floored at 0, with the tally
    best + 0.5 * recommended - 0.5 * notRecommended. *)
Definition specPlayerScore (best recommended notRecommended : Z) : Z :=
  Z.max 0
    (specRound
       (100 * (inject_Z best + (1 # 2) * inject_Z recommended
               - (1 # 2) * inject_Z notRecommended)
        / inject_Z (best + recommended + notRecommended))).

Definition option_ (label : string) (votes : Z) : BggPollResultItemDto :=
  {| item_value := Str label; item_numvotes := present (Z2f votes) |}.

(** An age poll with one entry of [numVotes] votes out of [totalVotes]. *)
Definition agePollOf (numVotes totalVotes : Z) : BggPollDto :=
  {| poll_name := "suggested_playerage";
     totalvotes := present (numToString totalVotes);
     results := present [ {| numplayers := undefined;
                             resultItemList := present [option_ "8" numVotes] |} ] |}.

(** A player-count poll with one group for two players. *)
Definition playerPollOf (best recommended notRecommended : Z) : BggPollDto :=
  {| poll_name := "suggested_numplayers";
     totalvotes := present (numToString (best + recommended + notRecommended));
     results :=
       present [ {| numplayers := present (Str "2");
                    resultItemList :=
                      present [ option_ "Best" best;
                                option_ "Recommended" recommended;
                                option_ "Not Recommended" notRecommended ] |} ] |}.

(** The age score as worded: an entry with [numVotes] of [totalVotes]
    votes is reported with round(100 * numVotes / totalVotes). *)
Definition ageScoreAsWorded : Prop :=
  forall numVotes totalVotes : Z,
    0 < numVotes <= totalVotes ->
    totalVotes < 2 ^ 53 ->
    calculateRecommendedAgeScore (present [agePollOf numVotes totalVotes])
    = Return (present [ {| value := Str "8";
                           score := Z2f (specAgeScore numVotes totalVotes) |} ]).

(** The player-count score as worded. *)
Definition playerScoreAsWorded : Prop :=
  forall best recommended notRecommended : Z,
    0 <= best -> 0 <= recommended -> 0 <= notRecommended ->
    0 < best + recommended + notRecommended < 2 ^ 52 ->
    calculateRecommendedPlayerCountScore
      (present [playerPollOf best recommended notRecommended])
    = Return (present [ {| value := Str "2";
                           score := Z2f (specPlayerScore best recommended
                                           notRecommended) |} ]).

(** An item whose age poll has a result group without an item list. *)
Definition thingWithBareAgeGroup : BggThingDto :=
  thingWith
    (present [ {| poll_name := "suggested_playerage";
                  totalvotes := present "5"%string;
                  results := present [ {| numplayers := undefined;
                                          resultItemList := undefined |} ] |} ]).

(** What [batchesFrom] is started from in [start] and what every later
    [splice] re-establishes: the pending batch is at most [batchSize] long,
    and it is full or the queue is empty. *)
Definition planned (Row : Type) (options : Options) (pending queue : list Row) : Prop :=
  Z.of_nat (List.length pending) <= opt_batchSize options
  /\ (Z.of_nat (List.length pending) = opt_batchSize options \/ queue = []).

(** The callback of the [reduce] of [getTopRecommendation]. *)
Definition pickHigher (acc item : Recommendation) : Recommendation :=
  if (score acc <? score item)%float then item else acc.

(** ** The real value of a binary64 number *)

Definition pow2 (e : Z) : R := powerRZ 2 e.

Definition SF2R (f : spec_float) : R :=
  match f with
  | S754_finite s m e => (IZR (cond_Zopp s (Zpos m)) * pow2 e)%R
  | _ => 0%R
  end.

(** A zero or a finite number: neither NaN nor an infinity. *)
Definition finiteSF (f : spec_float) : Prop :=
  match f with
  | S754_zero _ | S754_finite _ _ _ => True
  | _ => False
  end.

(** The real value of a double, and the doubles that have one. *)
Definition F2R (x : float) : R := SF2R (Prim2SF x).

Definition finiteF (x : float) : Prop := finiteSF (Prim2SF x).

(** A shift record at exponent [e] stands for the non-negative real [X]:
    its mantissa is the integer part of [X / 2^e], and a raised round or
    sticky bit means that [X] is strictly above the truncation. *)
Definition Rep (rec : shr_record) (e : Z) (X : R) : Prop :=
  0 <= shr_m rec
  /\ (IZR (shr_m rec) * pow2 e <= X < IZR (shr_m rec + 1) * pow2 e)%R
  /\ (shr_r rec || shr_s rec = true -> (IZR (shr_m rec) * pow2 e < X)%R).

(** The magnitude and the sign bit of a binary64 number. *)
Definition SFmag (f : spec_float) : R :=
  match f with
  | S754_finite _ m e => (IZR (Zpos m) * pow2 e)%R
  | _ => 0%R
  end.

Definition SFsign (f : spec_float) : bool :=
  match f with
  | S754_zero s | S754_infinity s | S754_finite s _ _ => s
  | S754_nan => false
  end.

Definition Fmag (x : float) : R := SFmag (Prim2SF x).

(** The integers from -100 to 100. *)
Definition percentRange : list Z := map (fun i => Z.of_nat i - 100) (seq 0 201).

(** [Math.max(0, n)] is the double of [max 0 n] on [percentRange]. *)
Definition clampCheck (n : Z) : bool :=
  PrimFloat.Leibniz.eqb (Math_max 0 (Z2f n)) (Z2f (Z.max 0 n)).

(** ** Integer vote counts *)

(** Twice the weight of an option in the tally of its group: 2 for
    "Best", 1 for "Recommended", -1 for "Not Recommended", 0 for any
    other option. *)
Definition weight2 (e : BggPollResultItemDto) : Z :=
  if looseEq (item_value e) "Best" then 2
  else if looseEq (item_value e) "Recommended" then 1
  else if looseEq (item_value e) "Not Recommended" then -1
  else 0.

(** The option carries the vote count [n] (an absent count is 0). *)
Definition hasCount (e : BggPollResultItemDto) (n : Z) : Prop :=
  0 <= n /\ votesOf e = Z2f n.

Definition sumZ (l : list Z) : Z := fold_right Z.add 0 l.

(** The votes of the three named options. *)
Definition namedVotes (options : list BggPollResultItemDto) (counts : list Z) : Z :=
  sumZ (map (fun '(e, n) => if weight2 e =? 0 then 0 else n) (combine options counts)).

(** Twice best + 0.5 * recommended - 0.5 * notRecommended. *)
Definition tallyTwice (options : list BggPollResultItemDto) (counts : list Z) : Z :=
  sumZ (map (fun '(e, n) => weight2 e * n) (combine options counts)).

(** The option list of a group carries non-negative integer vote counts
    that add up to less than 2^52. *)
Definition countsWithin (g : BggPollResultDto) : Prop :=
  forall options,
    resultItemList g = present options ->
    exists counts, Forall2 hasCount options counts /\ sumZ counts < 2 ^ 52.

(** A whole number from 0 to 100. *)
Definition percentage (x : float) : Prop :=
  exists k, 0 <= k <= 100 /\ x = Z2f k.

(** What [tally] keeps: both sums are doubles with the exact values. *)
Definition tallied (acc : PollResult) (V S2 : Z) : Prop :=
  finiteF (pr_score acc) /\ finiteF (pr_votes acc)
  /\ F2R (pr_votes acc) = IZR V
  /\ F2R (pr_score acc) = (IZR S2 / 2)%R
  /\ 0 <= V /\ Z.abs S2 <= 2 * V.

(** The tally of an option list, from the two zeros of line 208. *)
Definition groupSummary (options : list BggPollResultItemDto) : PollResult :=
  fold_left tally options {| pr_score := 0; pr_votes := 0 |}.

(** A poll in which three votes name options and four do not. *)
Definition mixedOptions : list BggPollResultItemDto :=
  [ option_ "Best" 1; option_ "Recommended" 2; option_ "Undecided" 4;
    {| item_value := Num 7; item_numvotes := undefined |} ].

(** Every option of the group carries an integer vote count from 0 to
    [total]. *)
Definition countsUpTo (total : Z) (g : BggPollResultDto) : Prop :=
  Forall (fun e => exists n, 0 <= n <= total /\ votesOf e = Z2f n) (itemsOf g).

(** The entry reported for a vote entry when the total is not a number. *)
Definition unscored (e : BggPollResultItemDto) : Recommendation :=
  {| value := item_value e; score := nan |}.

(** An age poll whose total is not a numeral. *)
Definition agePollWithoutTotal : BggPollDto :=
  {| poll_name := "suggested_playerage";
     totalvotes := present "n/a"%string;
     results := present [ {| numplayers := undefined;
                             resultItemList :=
                               present [option_ "5" 0; option_ "8" 3; option_ "10" 9] |} ] |}.

(** ** When the scorers throw *)

(** [parsePlayerAgePoll] gets past both early returns and meets a result
    group without an item list. *)
Definition agePollThrows (p : BggPollDto) : Prop :=
  exists groups,
    results p = present groups
    /\ (totalVotesOf p =? 0)%float = false
    /\ Exists (fun g => isNullish (resultItemList g) = true) groups.

(** [parseNumPlayersPoll] meets a result group with a bucket whose option
    list is [null]. *)
Definition playerPollThrows (p : BggPollDto) : Prop :=
  exists groups,
    results p = present groups
    /\ Exists (fun g => isNullish (numplayers g) = false /\ resultItemList g = null)
              groups.




(** ** Shapes of description text *)

Fixpoint hasLineFeed (s : string) : bool :=
  match s with
  | EmptyString => false
  | String c s' => Ascii.eqb c "010" || hasLineFeed s'
  end.

(** Two white-space characters next to each other. *)
Fixpoint adjacentWhiteSpace (s : string) : bool :=
  match s with
  | String c ((String d _) as s') =>
      (isWhiteSpace c && isWhiteSpace d) || adjacentWhiteSpace s'
  | _ => false
  end.

Fixpoint hasAmpersand (s : string) : bool :=
  match s with
  | EmptyString => false
  | String c s' => Ascii.eqb c "&" || hasAmpersand s'
  end.

Fixpoint allDigits (s : string) : bool :=
  match s with
  | EmptyString => true
  | String c s' => isDigit c && allDigits s'
  end.

(** ** Observations on a run *)

(** The paths of the batch files among the effects, in the order in which
    they are written. *)
Definition writtenFiles (effs : list Effect) : list string :=
  flat_map (fun e => match e with WriteBatch path _ => [path] | _ => [] end) effs.

(** The file of batch [k] in the output directory. *)
Definition batchFile (k : Z) : string :=
  ("./output/batch_" ++ numToString k ++ ".json")%string.

(** [n] consecutive integers from [first]. *)
Definition countFrom (first : Z) (n : nat) : list Z :=
  map (fun i => first + Z.of_nat i) (seq 0 n).

Definition isRejected (a : Attempt) : bool :=
  match fetched a with
  | Rejected => true
  | Resolved _ => false
  end.

(** A query that raises, or one that delivers. *)
Definition transientOrDelivers (decode : string -> string -> string) (a : Attempt)
  : Prop :=
  fetched a = Rejected \/ delivers decode a.

(** The state after [n] passes whose queries raised. *)
Fixpoint retried {Row} (rowId : Row -> float) (n : nat) (st : LoopState Row)
  : LoopState Row :=
  match n with
  | O => st
  | S n' => retried rowId n' (afterRejected rowId st)
  end.

(** Nothing is left to fetch when the loop is entered. *)
Definition nothingToFetch {Row} (options : Options) (rows : list Row) : Prop :=
  rows = []
  \/ opt_batchSize options <= 0
  \/ exists n, opt_skipBatchCount options = present n
               /\ Z.of_nat (List.length rows) <= n * opt_batchSize options.

Definition debug40 : Options :=
  {| opt_debug := true; opt_skipBatchCount := undefined; opt_batchSize := 40 |}.

Definition rejectedAttempt : Attempt :=
  {| fetched := Rejected; timeTaken := 100 |}.

(** An item on which [parseGame] throws, after one on which it does not. *)
Definition thingsWithBareAgeGroup : list BggThingDto :=
  [thingWith undefined; thingWithBareAgeGroup].

(** The state in which the loop is left when the normaliser throws:
    the query has been made and nothing else has changed. *)
Definition abortedAt {Row} (rowId : Row -> float) (st : LoopState Row) : LoopState Row :=
  {| df := df st;
     batch := batch st;
     currentBatchCount := currentBatchCount st;
     client := client st;
     stats := stats st;
     effects := effects st ++ [Query (client st) (map rowId (batch st))] |}.

(** A duration a clock can report: a finite double above zero (and below
    2^1023). *)
Definition positiveDuration (t : float) : Prop :=
  finiteF t /\ (0 < F2R t < pow2 1023)%R.

(** A query that returns one item after 100 ms. *)
Definition quickAttempt : Attempt :=
  {| fetched := Resolved (present [thingWith undefined]); timeTaken := 100 |}.

(** The exact share 100 * n / total lies half-way between two whole
    numbers. *)
Definition halfway (n total : Z) : Prop := (200 * n + total) mod (2 * total) = 0.

(** The entry [r] reports the share of the vote entry [e] in [total]:
    the exact percentage rounded to the nearest whole number, where an
    exact half may have gone down instead of up. *)
Definition sharesOf (total : Z) (e : BggPollResultItemDto) (r : Recommendation)
  : Prop :=
  value r = item_value e
  /\ exists n k,
       votesOf e = Z2f n /\ 0 < n <= total /\ score r = Z2f k
       /\ (k = specAgeScore n total
           \/ (halfway n total /\ k = specAgeScore n total - 1)).

(** The exact percentage 100 * (tally2 / 2) / votes rounded to the nearest
    whole number with halves up, and floored at 0. *)
Definition roundedTally (tally2 votes : Z) : Z :=
  Z.max 0 ((100 * tally2 + votes) / (2 * votes)).

(** A group for three players in which "Not Recommended" dominates. *)
Definition dislikedGroup : BggPollResultDto :=
  {| numplayers := present (Str "3");
     resultItemList :=
       present [ option_ "Best" 1; option_ "Recommended" 2;
                 option_ "Not Recommended" 30 ] |}.

(** A pass that leaves an entry in [stats.errors]: the query raised, or it
    resolved to nothing. *)
Definition leavesError (a : Attempt) : bool :=
  match fetched a with
  | Rejected => true
  | Resolved response => isEmptyResponse response
  end.

(** A query that resolves to an empty list after 100 ms. *)
Definition emptyAttempt : Attempt :=
  {| fetched := Resolved (present []); timeTaken := 100 |}.

(** The claim of the specification about the resume offset, as it is
    worded: a resume offset of [n] batches makes [n] the starting batch
    index of the run statistics. *)
Definition skipSetsStartingBatchAsWorded : Prop :=
  forall (Row : Type) (options : Options) (rows : list Row) (n : Z),
    opt_skipBatchCount options = present n ->
    0 <= n ->
    0 < opt_batchSize options ->
    startingBatch (stats (start options rows)) = n.

(** Text of ASCII characters only. *)
Fixpoint isAsciiText (s : string) : bool :=
  match s with
  | EmptyString => true
  | String c s' => (nat_of_ascii c <? 128)%nat && isAsciiText s'
  end.

(** An item whose description has a character reference, a line break
    and a run of spaces. *)
Definition describedThing : BggThingDto :=
  {| thing_id := 2;
     thing_thumbnail := "";
     thing_image := "";
     thing_name := "Described";
     thing_description := "Roll&#10;the  dice" ++ String "010" " now";
     yearpublished := 2021;
     statistics :=
       {| ratings := {| average := 7; bayesaverage := 6; stddev := 1;
                        averageweight := 2 |} |};
     links := undefined;
     playingtime := 60;
     minplaytime := 30;
     maxplaytime := 90;
     minplayers := 2;
     maxplayers := 4;
     minage := 10;
     polls := undefined |}.

(** ** The order of binary64 values *)

Lemma Prim2SF_not_nan (x : float) : is_nan x = false -> Prim2SF x <> S754_nan.
Proof.
  intros Hx. unfold Prim2SF. rewrite Hx.
  destruct (PrimFloat.is_zero x); [discriminate|].
  destruct (PrimFloat.is_infinity x); [discriminate|].
  destruct (Z.frexp x) as [r ex].
  destruct (shr_fexp prec emax (to_Z (normfr_mantissa r)) (ex - prec) loc_Exact) as [sr e'].
  destruct (shr_m sr); discriminate.
Qed.

Lemma SFcompare_rank (f g : spec_float) :
  f <> S754_nan -> g <> S754_nan ->
  exists c, SFcompare f g = Some c
            /\ (c = Lt <-> lexLt (rank f) (rank g))
            /\ (c = Gt <-> lexLt (rank g) (rank f)).
Proof.
  intros Hf Hg.
  destruct f as [sf|sf| |sf mf ef]; try congruence;
  destruct g as [sg|sg| |sg mg eg]; try congruence;
  try destruct sf; try destruct sg; cbn [SFcompare rank lexLt];
  try (eexists; split; [reflexivity|]; split; split; intros; solve [lia | congruence | discriminate]).
  - rewrite Pos.compare_cont_spec by reflexivity.
    destruct (Z.compare_spec ef eg); [destruct (Pos.compare_spec mf mg)|..];
    cbn; eexists; (split; [reflexivity|]); split; split; intros;
    try discriminate; try reflexivity; lia.
  - rewrite Pos.compare_cont_spec by reflexivity.
    destruct (Z.compare_spec ef eg); [destruct (Pos.compare_spec mf mg)|..];
    cbn; eexists; (split; [reflexivity|]); split; split; intros;
    try discriminate; try reflexivity; lia.
Qed.

Lemma ltb_rank (x y : float) :
  is_nan x = false -> is_nan y = false ->
  ((x <? y)%float = true <-> lexLt (rank (Prim2SF x)) (rank (Prim2SF y))).
Proof.
  intros Hx Hy. rewrite FloatAxioms.ltb_spec. unfold SFltb.
  destruct (SFcompare_rank (Prim2SF x) (Prim2SF y)) as (c & -> & Hlt & _);
    auto using Prim2SF_not_nan.
  rewrite <- Hlt. destruct c; split; congruence.
Qed.

Lemma leb_rank (x y : float) :
  is_nan x = false -> is_nan y = false ->
  ((x <=? y)%float = true <-> ~ lexLt (rank (Prim2SF y)) (rank (Prim2SF x))).
Proof.
  intros Hx Hy. rewrite FloatAxioms.leb_spec. unfold SFleb.
  destruct (SFcompare_rank (Prim2SF x) (Prim2SF y)) as (c & -> & _ & Hgt);
    auto using Prim2SF_not_nan.
  rewrite <- Hgt. destruct c; split; congruence.
Qed.

Lemma lexLt_irrefl (a : Z * Z * Z) : ~ lexLt a a.
Proof. destruct a as [[a1 a2] a3]. cbn. lia. Qed.

Lemma lexLt_trans (a b c : Z * Z * Z) : lexLt a b -> lexLt b c -> lexLt a c.
Proof.
  destruct a as [[a1 a2] a3], b as [[b1 b2] b3], c as [[c1 c2] c3]. cbn. lia.
Qed.

Lemma lexLt_le_trans (a b c : Z * Z * Z) : ~ lexLt b a -> lexLt b c -> lexLt a c.
Proof.
  destruct a as [[a1 a2] a3], b as [[b1 b2] b3], c as [[c1 c2] c3]. cbn. lia.
Qed.

Lemma lexLt_not_le (a b : Z * Z * Z) : lexLt a b -> ~ lexLt b a.
Proof. destruct a as [[a1 a2] a3], b as [[b1 b2] b3]. cbn. lia. Qed.

Lemma ltb_irrefl (x : float) : (x <? x)%float = false.
Proof.
  rewrite FloatAxioms.ltb_spec. unfold SFltb.
  destruct (Prim2SF x) as [s|s| |s m e]; try destruct s; cbn; try reflexivity;
    rewrite Z.compare_refl, Pos.compare_cont_refl; reflexivity.
Qed.

Section FloatOrder.

Variables x y z : float.
Hypothesis Hx : is_nan x = false.
Hypothesis Hy : is_nan y = false.
Hypothesis Hz : is_nan z = false.

Lemma ltb_trans : (x <? y)%float = true -> (y <? z)%float = true -> (x <? z)%float = true.
Proof.
  intros Hxy Hyz.
  apply (proj1 (ltb_rank x y Hx Hy)) in Hxy. apply (proj1 (ltb_rank y z Hy Hz)) in Hyz.
  apply (proj2 (ltb_rank x z Hx Hz)). eapply lexLt_trans; eassumption.
Qed.

Lemma leb_ltb_trans : (x <=? y)%float = true -> (y <? z)%float = true -> (x <? z)%float = true.
Proof.
  intros Hxy Hyz.
  apply (proj1 (leb_rank x y Hx Hy)) in Hxy. apply (proj1 (ltb_rank y z Hy Hz)) in Hyz.
  apply (proj2 (ltb_rank x z Hx Hz)). eapply lexLt_le_trans; eassumption.
Qed.

Lemma not_ltb_leb : (x <? y)%float = false -> (y <=? x)%float = true.
Proof.
  intros Hxy. apply (proj2 (leb_rank y x Hy Hx)). intros Hc.
  apply (proj2 (ltb_rank x y Hx Hy)) in Hc. congruence.
Qed.

End FloatOrder.

(** ** Rounding in the binary64 specification

    The operations of [SpecFloat] round through [binary_round_aux].  What
    follows bounds its result by the two neighbours of the exact value on
    the grid it rounds to; this is all the later proofs need. *)

Lemma pow2_pos (e : Z) : (0 < pow2 e)%R.
Proof. apply powerRZ_lt. lra. Qed.

Lemma pow2_add (a b : Z) : pow2 (a + b) = (pow2 a * pow2 b)%R.
Proof. apply powerRZ_add. lra. Qed.

Lemma pow2_0 : pow2 0 = 1%R.
Proof. reflexivity. Qed.

Lemma pow2_1 : pow2 1 = 2%R.
Proof. exact (powerRZ_1 2). Qed.

Lemma pow2_succ (e : Z) : pow2 (e + 1) = (2 * pow2 e)%R.
Proof. rewrite pow2_add, pow2_1. lra. Qed.

Lemma pow2_nonneg_ge1 (n : Z) : 0 <= n -> (1 <= pow2 n)%R.
Proof.
  intros Hn. unfold pow2. destruct n as [|p|p]; [cbn; lra| |lia].
  cbn. apply pow_R1_Rle. lra.
Qed.

Lemma pow2_le (a b : Z) : a <= b -> (pow2 a <= pow2 b)%R.
Proof.
  intros Hab. replace b with (a + (b - a)) by lia. rewrite pow2_add.
  pose proof (pow2_pos a). pose proof (pow2_nonneg_ge1 (b - a) ltac:(lia)). nra.
Qed.

Lemma pow2_lt (a b : Z) : a < b -> (pow2 a < pow2 b)%R.
Proof.
  intros Hab. replace b with (a + 1 + (b - a - 1)) by lia.
  rewrite pow2_add, pow2_succ.
  pose proof (pow2_pos a). pose proof (pow2_nonneg_ge1 (b - a - 1) ltac:(lia)). nra.
Qed.

Lemma pow2_lt_inv (a b : Z) : (pow2 a < pow2 b)%R -> a < b.
Proof.
  intros H. destruct (Z.lt_ge_cases a b) as [|Hge]; [assumption|].
  pose proof (pow2_le b a Hge). lra.
Qed.

Lemma pow2_IZR (n : Z) : 0 <= n -> pow2 n = IZR (2 ^ n).
Proof.
  intros Hn. unfold pow2. destruct n as [|p|p]; [reflexivity| |lia].
  cbn [powerRZ]. rewrite pow_IZR, positive_nat_Z. reflexivity.
Qed.

Lemma shr_1_rep (rec : shr_record) (e : Z) (X : R) :
  Rep rec e X -> Rep (shr_1 rec) (e + 1) X.
Proof.
  destruct rec as [m r s]. unfold Rep. cbn [shr_m shr_r shr_s].
  intros (Hm & [Hlo Hhi] & Hstrict).
  rewrite pow2_succ. pose proof (pow2_pos e) as Hp.
  rewrite plus_IZR in Hhi.
  destruct m as [|[p|p|]|p]; try lia; cbn [shr_1 shr_m shr_r shr_s].
  - rewrite plus_IZR. split; [lia|]. split; [nra|]. rewrite orb_false_l. intros Hf.
    specialize (Hstrict Hf). nra.
  - change (Zpos p~1) with (2 * Zpos p + 1) in *.
    rewrite plus_IZR, mult_IZR in Hlo, Hhi. rewrite plus_IZR.
    split; [lia|]. split; [nra|]. intros _. nra.
  - change (Zpos p~0) with (2 * Zpos p) in *.
    rewrite mult_IZR in Hlo, Hhi, Hstrict. rewrite plus_IZR.
    split; [lia|]. split; [nra|]. rewrite orb_false_l. intros Hf.
    specialize (Hstrict Hf). nra.
  - rewrite plus_IZR. split; [lia|]. split; [nra|]. intros _. nra.
Qed.

Lemma iter_shr_1_rep (n : positive) :
  forall (rec : shr_record) (e : Z) (X : R),
    Rep rec e X -> Rep (SpecFloat.iter_pos shr_1 n rec) (e + Zpos n) X.
Proof.
  induction n as [n IH|n IH|]; intros rec e X H; cbn [SpecFloat.iter_pos].
  - replace (e + Zpos n~1) with (e + 1 + Zpos n + Zpos n) by lia.
    apply IH, IH, shr_1_rep, H.
  - replace (e + Zpos n~0) with (e + Zpos n + Zpos n) by lia.
    apply IH, IH, H.
  - apply shr_1_rep, H.
Qed.

Lemma fexp64 (e : Z) : fexp prec emax e = Z.max (e - 53) (-1074).
Proof. reflexivity. Qed.

Lemma digits2_pos_bounds (p : positive) :
  2 ^ (Zpos (digits2_pos p) - 1) <= Zpos p < 2 ^ Zpos (digits2_pos p).
Proof.
  induction p as [p IH|p IH|]; cbn [digits2_pos]; [| |cbn; lia].
  - rewrite Pos2Z.inj_succ. replace (Z.succ (Zpos (digits2_pos p)) - 1)
      with (Z.succ (Zpos (digits2_pos p) - 1)) by lia.
    rewrite !Z.pow_succ_r by lia. lia.
  - rewrite Pos2Z.inj_succ. replace (Z.succ (Zpos (digits2_pos p)) - 1)
      with (Z.succ (Zpos (digits2_pos p) - 1)) by lia.
    rewrite !Z.pow_succ_r by lia. lia.
Qed.

(** A non-negative integer is below two to the number of its digits, and
    a positive one is at least half of that. *)
Lemma Zdigits2_upper (m : Z) : 0 <= m -> (IZR (m + 1) <= pow2 (Zdigits2 m))%R.
Proof.
  intros Hm. destruct m as [|p|p];
    [cbn [Zdigits2]; change (0 + 1) with 1; rewrite pow2_0; lra| |lia].
  cbn [Zdigits2]. rewrite pow2_IZR by lia. apply IZR_le.
  pose proof (digits2_pos_bounds p). lia.
Qed.

Lemma Zdigits2_lower (m : Z) : 0 < m -> (pow2 (Zdigits2 m - 1) <= IZR m)%R.
Proof.
  intros Hm. destruct m as [|p|p]; try lia.
  cbn [Zdigits2]. rewrite pow2_IZR by lia. apply IZR_le.
  pose proof (digits2_pos_bounds p). lia.
Qed.

Lemma Zdigits2_nonneg (m : Z) : 0 <= Zdigits2 m.
Proof. destruct m; cbn; lia. Qed.

Lemma Zdigits2_le_53 (m : Z) : 0 <= m -> m < 2 ^ 53 -> Zdigits2 m <= 53.
Proof.
  intros H0 H. destruct (Z.eq_dec m 0) as [->|Hne]; [cbn; lia|].
  pose proof (Zdigits2_lower m ltac:(lia)) as Hl.
  assert (Hlt : (pow2 (Zdigits2 m - 1) < pow2 53)%R).
  { rewrite (pow2_IZR 53) by lia. apply IZR_lt in H. lra. }
  apply pow2_lt_inv in Hlt. lia.
Qed.

(** The first shift of [binary_round_aux]: the record still stands for
    [X], now at the exponent the format asks for, and the mantissa has at
    most 53 digits. *)
Lemma shr_fexp_rep (m e : Z) (l : location) (X : R) :
  0 <= m ->
  Rep (shr_record_of_loc m l) e X ->
  exists rec',
    shr_fexp prec emax m e l = (rec', Z.max e (fexp prec emax (Zdigits2 m + e)))
    /\ Rep rec' (Z.max e (fexp prec emax (Zdigits2 m + e))) X
    /\ shr_m rec' < 2 ^ 53.
Proof.
  intros Hm HX.
  assert (Hbound : forall rec' e',
             Rep rec' e' X -> Zdigits2 m + e - 53 <= e' -> shr_m rec' < 2 ^ 53).
  { intros rec' e' (Hm' & [Hlo' _] & _) He'.
    assert (Hx : (X < pow2 (Zdigits2 m + e))%R).
    { destruct HX as (_ & [_ Hhi] & _).
      replace (shr_m (shr_record_of_loc m l)) with m in Hhi
        by (destruct l as [|[]]; reflexivity).
      pose proof (Zdigits2_upper m Hm). pose proof (pow2_pos e).
      rewrite pow2_add. nra. }
    pose proof (pow2_le (Zdigits2 m + e) (e' + 53) ltac:(lia)) as Hle.
    rewrite (pow2_add e' 53), (pow2_IZR 53) in Hle by lia.
    pose proof (pow2_pos e'). apply lt_IZR. nra. }
  unfold shr_fexp, shr. rewrite fexp64 in *.
  destruct (Z.max (Zdigits2 m + e - 53) (-1074) - e) as [|p|p] eqn:Hn.
  - replace (Z.max e _) with e by lia.
    eexists. split; [reflexivity|]. split; [exact HX|]. apply (Hbound _ e HX). lia.
  - replace (Z.max e _) with (e + Zpos p) by lia.
    eexists. split; [reflexivity|].
    pose proof (iter_shr_1_rep p _ e X HX) as Hrep.
    split; [exact Hrep|]. apply (Hbound _ _ Hrep). lia.
  - replace (Z.max e _) with e by lia.
    eexists. split; [reflexivity|]. split; [exact HX|]. apply (Hbound _ e HX). lia.
Qed.

(** The second shift of [binary_round_aux] changes the representation of
    the rounded mantissa, never its value. *)
Lemma shr_fexp_exact (m e : Z) :
  0 <= m <= 2 ^ 53 -> -1074 <= e ->
  exists m' e',
    shr_fexp prec emax m e loc_Exact
    = ({| shr_m := m'; shr_r := false; shr_s := false |}, e')
    /\ 0 <= m' /\ e <= e' <= e + 1
    /\ (IZR m' * pow2 e' = IZR m * pow2 e)%R.
Proof.
  intros [H0 H53] He.
  destruct (Z.eq_dec m (2 ^ 53)) as [->|Hne].
  - exists (2 ^ 52), (e + 1). unfold shr_fexp, shr. rewrite fexp64.
    change (Zdigits2 (2 ^ 53)) with 54.
    replace (Z.max (54 + e - 53) (-1074) - e) with 1 by lia.
    split; [reflexivity|]. split; [lia|]. split; [lia|].
    rewrite pow2_succ. change (2 ^ 53) with (2 * 2 ^ 52). rewrite mult_IZR. lra.
  - exists m, e. unfold shr_fexp, shr. rewrite fexp64.
    pose proof (Zdigits2_le_53 m H0 ltac:(lia)).
    destruct (Z.max (Zdigits2 m + e - 53) (-1074) - e) as [|p|p] eqn:Hn; try lia;
      (split; [reflexivity|]); (split; [lia|]); (split; [lia|reflexivity]).
Qed.

Lemma round_nearest_even_cases (rec : shr_record) :
  let m2 := round_nearest_even (shr_m rec) (loc_of_shr_record rec) in
  m2 = shr_m rec \/ (m2 = shr_m rec + 1 /\ shr_r rec || shr_s rec = true).
Proof.
  destruct rec as [m [|] [|]]; cbn; auto.
  destruct (Z.even m); auto.
Qed.

Lemma cond_Zopp_IZR (s : bool) (m : Z) :
  IZR (cond_Zopp s m) = ((if s then -1 else 1) * IZR m)%R.
Proof. destruct s; cbn [cond_Zopp]; [rewrite opp_IZR|]; lra. Qed.

Lemma SF2R_sign_mag (f : spec_float) :
  SF2R f = ((if SFsign f then -1 else 1) * SFmag f)%R.
Proof.
  destruct f as [s|s| |s m e]; cbn [SF2R SFsign SFmag]; try (destruct s; lra).
  - lra.
  - rewrite cond_Zopp_IZR. ring.
Qed.

Lemma SFmag_nonneg (f : spec_float) : (0 <= SFmag f)%R.
Proof.
  destruct f as [s|s| |s m e]; cbn [SFmag]; try lra.
  pose proof (pow2_pos e). pose proof (IZR_lt 0 (Zpos m) ltac:(lia)). nra.
Qed.

Lemma SF2R_abs (f : spec_float) : Rabs (SF2R f) = SFmag f.
Proof.
  rewrite SF2R_sign_mag. pose proof (SFmag_nonneg f).
  destruct (SFsign f); [rewrite Rabs_left1|rewrite Rabs_right]; lra.
Qed.

(** [binary_round_aux] on a non-negative mantissa that stands for [X]:
    the result is a zero or a finite number of the given sign whose
    magnitude is one of the two neighbours of [X] on the grid of step
    2^e1, and it is the lower one when [X] is on the grid. *)
Lemma binary_round_aux_spec (sx : bool) (mx ex : Z) (lx : location) (X : R) :
  0 <= mx ->
  Rep (shr_record_of_loc mx lx) ex X ->
  Z.max ex (fexp prec emax (Zdigits2 mx + ex)) <= 970 ->
  exists m1 m2 : Z,
    0 <= m1
    /\ (IZR m1 * pow2 (Z.max ex (fexp prec emax (Zdigits2 mx + ex))) <= X
        < IZR (m1 + 1) * pow2 (Z.max ex (fexp prec emax (Zdigits2 mx + ex))))%R
    /\ (m2 = m1
        \/ (m2 = m1 + 1
            /\ (IZR m1 * pow2 (Z.max ex (fexp prec emax (Zdigits2 mx + ex))) < X)%R))
    /\ finiteSF (binary_round_aux prec emax sx mx ex lx)
    /\ SFsign (binary_round_aux prec emax sx mx ex lx) = sx
    /\ SFmag (binary_round_aux prec emax sx mx ex lx)
       = (IZR m2 * pow2 (Z.max ex (fexp prec emax (Zdigits2 mx + ex))))%R.
Proof.
  intros Hmx HX Hmax.
  destruct (shr_fexp_rep mx ex lx X Hmx HX) as (rec1 & Hshr & Hrep & H53).
  set (e1 := Z.max ex (fexp prec emax (Zdigits2 mx + ex))) in *.
  assert (He1 : -1074 <= e1) by (unfold e1; rewrite fexp64; lia).
  unfold binary_round_aux. rewrite Hshr.
  pose proof (round_nearest_even_cases rec1) as Hround. cbv zeta in Hround.
  set (m2 := round_nearest_even (shr_m rec1) (loc_of_shr_record rec1)) in *.
  destruct Hrep as (Hm1 & Hin & Hstrict).
  destruct (shr_fexp_exact m2 e1) as (m3 & e3 & Hshr2 & Hm3 & He3 & Hval);
    [destruct Hround as [->|[-> _]]; lia|lia|].
  rewrite Hshr2. cbn [shr_m].
  exists (shr_m rec1), m2. split; [exact Hm1|]. split; [exact Hin|].
  split; [destruct Hround as [H|[H Hf]]; [left; exact H|right; split; [exact H|auto]]|].
  destruct m3 as [|p|p]; [| |lia].
  - split; [exact I|]. split; [reflexivity|]. cbn [SFmag]. lra.
  - replace (e3 <=? emax - prec) with true
      by (symmetry; apply Z.leb_le; change (emax - prec) with 971; lia).
    split; [exact I|]. split; [reflexivity|]. cbn [SFmag]. exact Hval.
Qed.

(** The same for bounds on a coarser grid: what lies between two points of
    the grid of step 2^g is rounded to something between them. *)
Lemma binary_round_aux_between (sx : bool) (mx ex : Z) (lx : location) (X : R)
    (g a b : Z) :
  0 <= mx ->
  Rep (shr_record_of_loc mx lx) ex X ->
  Z.max ex (fexp prec emax (Zdigits2 mx + ex)) <= g -> g <= 970 ->
  (IZR a * pow2 g <= X <= IZR b * pow2 g)%R ->
  finiteSF (binary_round_aux prec emax sx mx ex lx)
  /\ SFsign (binary_round_aux prec emax sx mx ex lx) = sx
  /\ (IZR a * pow2 g <= SFmag (binary_round_aux prec emax sx mx ex lx)
      <= IZR b * pow2 g)%R.
Proof.
  intros Hmx HX Hg Hg' [Hlo Hhi].
  destruct (binary_round_aux_spec sx mx ex lx X Hmx HX ltac:(lia))
    as (m1 & m2 & Hm1 & [Hin1 Hin2] & Hm2 & Hfin & Hsign & Hval).
  set (e1 := Z.max ex (fexp prec emax (Zdigits2 mx + ex))) in *.
  split; [exact Hfin|]. split; [exact Hsign|]. rewrite Hval.
  assert (Hgrid : pow2 g = (IZR (2 ^ (g - e1)) * pow2 e1)%R).
  { rewrite <- pow2_IZR, <- pow2_add by lia. f_equal. lia. }
  rewrite Hgrid in *. pose proof (pow2_pos e1) as Hp.
  rewrite <- !Rmult_assoc, <- !mult_IZR in *.
  set (A := a * 2 ^ (g - e1)) in *. set (B := b * 2 ^ (g - e1)) in *.
  rewrite plus_IZR in Hin2.
  assert (HA : A <= m1).
  { assert (H : (IZR A < IZR (m1 + 1))%R) by (rewrite plus_IZR; nra).
    apply lt_IZR in H. lia. }
  assert (HB : m2 <= B).
  { destruct Hm2 as [->|[-> Hs]].
    - apply le_IZR. nra.
    - assert (H : (IZR m1 < IZR B)%R) by nra. apply lt_IZR in H. lia. }
  assert (HA' : A <= m2) by (destruct Hm2 as [->|[-> _]]; lia).
  apply IZR_le in HA', HB. split; nra.
Qed.

(** The exponent [binary_round_aux] rounds at is at most [g] as soon as
    the mantissa starts at or below [g] and the value is below 2^(g+53). *)
Lemma round_exponent_le (mx ex g : Z) (X : R) :
  0 <= mx ->
  (IZR mx * pow2 ex <= X)%R -> (X < pow2 (g + 53))%R ->
  ex <= g -> -1074 <= g ->
  Z.max ex (fexp prec emax (Zdigits2 mx + ex)) <= g.
Proof.
  intros Hmx Hlo Hhi Hex Hg. rewrite fexp64.
  destruct (Z.eq_dec mx 0) as [->|Hne]; [cbn [Zdigits2]; lia|].
  pose proof (Zdigits2_lower mx ltac:(lia)) as Hd.
  assert (Hlt : (pow2 (Zdigits2 mx - 1 + ex) < pow2 (g + 53))%R).
  { rewrite pow2_add. pose proof (pow2_pos ex). nra. }
  apply pow2_lt_inv in Hlt. lia.
Qed.

Lemma Rep_exact (m e : Z) :
  0 <= m -> Rep (shr_record_of_loc m loc_Exact) e (IZR m * pow2 e).
Proof.
  intros Hm. unfold Rep. cbn [shr_record_of_loc shr_m shr_r shr_s].
  pose proof (pow2_pos e). rewrite plus_IZR.
  split; [exact Hm|]. split; [nra|discriminate].
Qed.

Lemma iter_xO (d m : positive) :
  Zpos (Pos.iter xO m d) = Zpos m * 2 ^ Zpos d.
Proof.
  induction d as [|d IH] using Pos.peano_ind.
  - cbn [Pos.iter]. lia.
  - rewrite Pos.iter_succ, Pos2Z.inj_succ, Z.pow_succ_r by lia.
    rewrite Pos2Z.inj_xO, IH. lia.
Qed.

(** [shl_align] keeps the value and does not raise the exponent. *)
Lemma shl_align_value (mx : positive) (ex ex' : Z) :
  exists mz ez,
    shl_align mx ex ex' = (mz, ez)
    /\ ez = Z.min ex ex'
    /\ (IZR (Zpos mz) * pow2 ez = IZR (Zpos mx) * pow2 ex)%R.
Proof.
  unfold shl_align. destruct (ex' - ex) as [|d|d] eqn:Hd.
  - exists mx, ex. split; [reflexivity|]. split; [lia|reflexivity].
  - exists mx, ex. split; [reflexivity|]. split; [lia|reflexivity].
  - exists (Pos.iter xO mx d), ex'. split; [reflexivity|]. split; [lia|].
    rewrite iter_xO, mult_IZR, <- pow2_IZR by lia.
    rewrite Rmult_assoc, <- pow2_add. f_equal. f_equal. lia.
Qed.

(** [binary_normalize] between two points of a grid. *)
Lemma binary_normalize_between (M e g a b : Z) :
  -1074 <= g <= 970 ->
  (Rabs (IZR M * pow2 e) < pow2 (g + 53))%R ->
  (IZR a * pow2 g <= Rabs (IZR M * pow2 e) <= IZR b * pow2 g)%R ->
  finiteSF (binary_normalize prec emax M e false)
  /\ SFsign (binary_normalize prec emax M e false) = (M <? 0)
  /\ (IZR a * pow2 g <= SFmag (binary_normalize prec emax M e false)
      <= IZR b * pow2 g)%R.
Proof.
  intros Hg Hlt Hab. pose proof (pow2_pos e) as Hp.
  assert (Hround : forall (s : bool) (m : positive),
             Rabs (IZR M * pow2 e) = (IZR (Zpos m) * pow2 e)%R ->
             finiteSF (binary_round prec emax s m e)
             /\ SFsign (binary_round prec emax s m e) = s
             /\ (IZR a * pow2 g <= SFmag (binary_round prec emax s m e)
                 <= IZR b * pow2 g)%R).
  { intros s m Hm. unfold binary_round.
    destruct (shl_align_value m e (fexp prec emax (Zpos (digits2_pos m) + e)))
      as (mz & ez & -> & Hez & Hval).
    rewrite Hm, <- Hval in Hlt, Hab.
    apply (binary_round_aux_between s (Zpos mz) ez loc_Exact
             (IZR (Zpos mz) * pow2 ez)%R g a b);
      [lia|apply Rep_exact; lia| |lia|exact Hab].
    apply (round_exponent_le _ _ _ (IZR (Zpos mz) * pow2 ez)); [lia|lra|exact Hlt| |lia].
    rewrite Hez, fexp64.
    assert (Hd : (pow2 (Zpos (digits2_pos m) - 1 + e) < pow2 (g + 53))%R).
    { pose proof (Zdigits2_lower (Zpos m) ltac:(lia)) as Hl. cbn [Zdigits2] in Hl.
      rewrite pow2_add. rewrite Hval in Hlt. nra. }
    apply pow2_lt_inv in Hd. lia. }
  destruct M as [|m|m]; cbn [binary_normalize].
  - split; [exact I|]. split; [reflexivity|]. cbn [SFmag].
    rewrite Rmult_0_l, Rabs_R0 in Hab. exact Hab.
  - change (Zpos m <? 0) with false. apply Hround.
    apply Rabs_right. pose proof (IZR_lt 0 (Zpos m) ltac:(lia)). nra.
  - change (Zneg m <? 0) with true. apply Hround.
    rewrite <- Rabs_Ropp. replace (- (IZR (Zneg m) * pow2 e))%R
      with (IZR (Zpos m) * pow2 e)%R
      by (change (Zneg m) with (- Zpos m); rewrite opp_IZR; ring).
    apply Rabs_right. pose proof (IZR_lt 0 (Zpos m) ltac:(lia)). nra.
Qed.

(** A value with at most 53 significant bits above 2^g is kept as it is. *)
Lemma binary_normalize_exact (M e g A : Z) :
  -1074 <= g <= 970 ->
  Z.abs A < 2 ^ 53 ->
  (IZR M * pow2 e = IZR A * pow2 g)%R ->
  finiteSF (binary_normalize prec emax M e false)
  /\ SF2R (binary_normalize prec emax M e false) = (IZR M * pow2 e)%R.
Proof.
  intros Hg HA Heq. pose proof (pow2_pos g) as Hpg. pose proof (pow2_pos e) as Hpe.
  assert (Habs : Rabs (IZR M * pow2 e) = (IZR (Z.abs A) * pow2 g)%R).
  { rewrite Heq, Rabs_mult, abs_IZR, (Rabs_right (pow2 g)) by lra. reflexivity. }
  destruct (binary_normalize_between M e g (Z.abs A) (Z.abs A) Hg)
    as (Hfin & Hsign & HV).
  - rewrite Habs, pow2_add, (pow2_IZR 53) by lia. apply IZR_lt in HA. nra.
  - rewrite Habs. lra.
  - split; [exact Hfin|]. rewrite SF2R_sign_mag, Hsign.
    assert (HVeq : SFmag (binary_normalize prec emax M e false)
                   = Rabs (IZR M * pow2 e)) by (rewrite Habs; lra).
    rewrite HVeq. destruct (M <? 0) eqn:Hs.
    + apply Z.ltb_lt in Hs. apply IZR_lt in Hs.
      rewrite Rabs_left by nra. ring.
    + apply Z.ltb_ge in Hs. apply IZR_le in Hs.
      rewrite Rabs_right by nra. ring.
Qed.

(** ** The four operations on values that are exact or bounded *)

Lemma aligned_sum (sx sy : bool) (mx my : positive) (ex ey : Z) :
  (IZR (cond_Zopp sx (Zpos (fst (shl_align mx ex (Z.min ex ey))))
        + cond_Zopp sy (Zpos (fst (shl_align my ey (Z.min ex ey)))))
   * pow2 (Z.min ex ey)
   = SF2R (S754_finite sx mx ex) + SF2R (S754_finite sy my ey))%R.
Proof.
  destruct (shl_align_value mx ex (Z.min ex ey)) as (ax & ezx & -> & Hex & Hx).
  destruct (shl_align_value my ey (Z.min ex ey)) as (ay & ezy & -> & Hey & Hy).
  replace ezx with (Z.min ex ey) in Hx by lia.
  replace ezy with (Z.min ex ey) in Hy by lia.
  cbn [fst SF2R]. rewrite plus_IZR, !cond_Zopp_IZR.
  rewrite Rmult_plus_distr_r, !Rmult_assoc, Hx, Hy. reflexivity.
Qed.

Lemma SFadd_exact (x y : spec_float) (g A : Z) :
  finiteSF x -> finiteSF y ->
  -1074 <= g <= 970 -> Z.abs A < 2 ^ 53 ->
  (SF2R x + SF2R y = IZR A * pow2 g)%R ->
  finiteSF (SFadd prec emax x y)
  /\ SF2R (SFadd prec emax x y) = (SF2R x + SF2R y)%R.
Proof.
  intros Hx Hy Hg HA Hsum.
  destruct x as [sx|sx| |sx mx ex]; try contradiction;
  destruct y as [sy|sy| |sy my ey]; try contradiction; cbn [SFadd].
  - destruct sx, sy; cbn [SF2R finiteSF]; split; try exact I; lra.
  - cbn [SF2R finiteSF]. split; [exact I|lra].
  - cbn [SF2R finiteSF]. split; [exact I|lra].
  - rewrite <- aligned_sum in *. apply (binary_normalize_exact _ _ g A); assumption.
Qed.

Lemma aligned_difference (sx sy : bool) (mx my : positive) (ex ey : Z) :
  (IZR (cond_Zopp sx (Zpos (fst (shl_align mx ex (Z.min ex ey))))
        - cond_Zopp sy (Zpos (fst (shl_align my ey (Z.min ex ey)))))
   * pow2 (Z.min ex ey)
   = SF2R (S754_finite sx mx ex) - SF2R (S754_finite sy my ey))%R.
Proof.
  destruct (shl_align_value mx ex (Z.min ex ey)) as (ax & ezx & -> & Hex & Hx).
  destruct (shl_align_value my ey (Z.min ex ey)) as (ay & ezy & -> & Hey & Hy).
  replace ezx with (Z.min ex ey) in Hx by lia.
  replace ezy with (Z.min ex ey) in Hy by lia.
  cbn [fst SF2R]. rewrite minus_IZR, !cond_Zopp_IZR.
  unfold Rminus. rewrite Rmult_plus_distr_r, Ropp_mult_distr_l_reverse || idtac.
  rewrite !Rmult_assoc, Hx.
  replace (- ((if sy then -1 else 1) * IZR (Zpos ay)) * pow2 (Z.min ex ey))%R
    with (- ((if sy then -1 else 1) * (IZR (Zpos ay) * pow2 (Z.min ex ey))))%R by ring.
  rewrite Hy. ring.
Qed.

Lemma SFsub_exact (x y : spec_float) (g A : Z) :
  finiteSF x -> finiteSF y ->
  -1074 <= g <= 970 -> Z.abs A < 2 ^ 53 ->
  (SF2R x - SF2R y = IZR A * pow2 g)%R ->
  finiteSF (SFsub prec emax x y)
  /\ SF2R (SFsub prec emax x y) = (SF2R x - SF2R y)%R.
Proof.
  intros Hx Hy Hg HA Hsum.
  destruct x as [sx|sx| |sx mx ex]; try contradiction;
  destruct y as [sy|sy| |sy my ey]; try contradiction; cbn [SFsub].
  - destruct sx, sy; cbn [SF2R finiteSF]; split; try exact I; lra.
  - cbn [SF2R finiteSF]. split; [exact I|].
    rewrite !cond_Zopp_IZR. destruct sy; cbn [negb]; lra.
  - cbn [SF2R finiteSF]. split; [exact I|lra].
  - rewrite <- aligned_difference in *. apply (binary_normalize_exact _ _ g A); assumption.
Qed.

(** The exponent of a canonical finite number below 2^k. *)
Lemma valid_exponent (s : bool) (m : positive) (e k : Z) :
  valid_binary (S754_finite s m e) = true ->
  (SFmag (S754_finite s m e) < pow2 k)%R ->
  e <= Z.max (k - 53) (-1074).
Proof.
  cbn [SpecFloat.valid_binary SFmag]. unfold bounded, canonical_mantissa.
  intros Hv Hlt. apply andb_prop in Hv as [Hc _]. apply Z.eqb_eq in Hc.
  rewrite fexp64 in Hc.
  pose proof (Zdigits2_lower (Zpos m) ltac:(lia)) as Hl. cbn [Zdigits2] in Hl.
  assert (Hd : (pow2 (Zpos (digits2_pos m) - 1 + e) < pow2 k)%R).
  { rewrite pow2_add. pose proof (pow2_pos e). nra. }
  apply pow2_lt_inv in Hd. lia.
Qed.

Lemma SFmul_between (x y : spec_float) (g a b kx ky : Z) :
  finiteSF x -> finiteSF y ->
  valid_binary x = true -> valid_binary y = true ->
  -1074 <= g <= 970 ->
  (SFmag x < pow2 kx)%R -> (SFmag y < pow2 ky)%R ->
  Z.max (kx - 53) (-1074) + Z.max (ky - 53) (-1074) <= g ->
  (SFmag x * SFmag y < pow2 (g + 53))%R ->
  (IZR a * pow2 g <= SFmag x * SFmag y <= IZR b * pow2 g)%R ->
  finiteSF (SFmul prec emax x y)
  /\ SFsign (SFmul prec emax x y) = xorb (SFsign x) (SFsign y)
  /\ (IZR a * pow2 g <= SFmag (SFmul prec emax x y) <= IZR b * pow2 g)%R.
Proof.
  intros Hx Hy Vx Vy Hg Kx Ky Hk Hlt Hab.
  destruct x as [sx|sx| |sx mx ex]; try contradiction;
  destruct y as [sy|sy| |sy my ey]; try contradiction; cbn [SFmul SFsign];
    try (cbn [SFmag] in *; rewrite ?Rmult_0_l, ?Rmult_0_r in Hab;
         split; [exact I|]; split; [reflexivity|exact Hab]).
  pose proof (valid_exponent _ _ _ _ Vx Kx). pose proof (valid_exponent _ _ _ _ Vy Ky).
  assert (Hprod : (IZR (Zpos (mx * my)) * pow2 (ex + ey)
                   = SFmag (S754_finite sx mx ex) * SFmag (S754_finite sy my ey))%R).
  { cbn [SFmag]. rewrite Pos2Z.inj_mul, mult_IZR, pow2_add. ring. }
  rewrite <- Hprod in Hlt, Hab.
  apply (binary_round_aux_between _ _ _ loc_Exact
           (IZR (Zpos (mx * my)) * pow2 (ex + ey))%R g a b);
    [lia|apply Rep_exact; lia| |lia|exact Hab].
  apply (round_exponent_le _ _ _ (IZR (Zpos (mx * my)) * pow2 (ex + ey))%R);
    [lia|lra|exact Hlt|lia|lia].
Qed.

Lemma new_location_flags (nb r q : Z) :
  shr_m (shr_record_of_loc q (new_location nb r)) = q
  /\ (shr_r (shr_record_of_loc q (new_location nb r))
      || shr_s (shr_record_of_loc q (new_location nb r)) = true -> r <> 0).
Proof.
  unfold new_location, new_location_even, new_location_odd.
  destruct (Z.even nb); destruct (Z.eqb_spec r 0) as [->|Hr];
    cbn [shr_record_of_loc shr_m shr_r shr_s orb];
    try (split; [reflexivity|discriminate]).
  - destruct (2 * r ?= nb); cbn; split; auto.
  - destruct (2 * r + 1 ?= nb); cbn; split; auto.
Qed.

Lemma SFdiv_between (x : spec_float) (sy : bool) (my : positive) (ey g a b : Z) :
  finiteSF x ->
  -1074 <= g <= 970 ->
  (SFmag x / SFmag (S754_finite sy my ey) < pow2 (g + 53))%R ->
  (IZR a * pow2 g <= SFmag x / SFmag (S754_finite sy my ey) <= IZR b * pow2 g)%R ->
  finiteSF (SFdiv prec emax x (S754_finite sy my ey))
  /\ SFsign (SFdiv prec emax x (S754_finite sy my ey)) = xorb (SFsign x) sy
  /\ (IZR a * pow2 g <= SFmag (SFdiv prec emax x (S754_finite sy my ey))
      <= IZR b * pow2 g)%R.
Proof.
  intros Hx Hg Hlt Hab.
  destruct x as [sx|sx| |sx mx ex]; try contradiction; cbn [SFdiv SFsign].
  { cbn [SFmag] in *. unfold Rdiv in Hab. rewrite Rmult_0_l in Hab.
    split; [exact I|]. split; [reflexivity|exact Hab]. }
  cbn [SFmag] in *.
  set (X := (IZR (Zpos mx) * pow2 ex / (IZR (Zpos my) * pow2 ey))%R) in *.
  pose proof (pow2_pos ex) as Hpx. pose proof (pow2_pos ey) as Hpy.
  pose proof (IZR_lt 0 (Zpos mx) ltac:(lia)) as Hmx.
  pose proof (IZR_lt 0 (Zpos my) ltac:(lia)) as Hmy.
  assert (HXy : (X * (IZR (Zpos my) * pow2 ey) = IZR (Zpos mx) * pow2 ex)%R).
  { unfold X. field. split; lra. }
  assert (HXpos : (0 < X)%R).
  { unfold X. apply Rdiv_lt_0_compat; nra. }
  unfold SFdiv_core_binary.
  set (d1 := Zdigits2 (Zpos mx)). set (d2 := Zdigits2 (Zpos my)).
  set (e' := Z.min (fexp prec emax (d1 + ex - (d2 + ey))) (ex - ey)).
  set (s := ex - ey - e').
  assert (Hs : 0 <= s) by (unfold s, e'; lia).
  set (m' := match s with
             | 0 => Zpos mx
             | Zpos _ => Z.shiftl (Zpos mx) s
             | Zneg _ => 0
             end).
  assert (Hm' : m' = Zpos mx * 2 ^ s).
  { unfold m'. destruct s as [|p|p] eqn:Es; [lia| |lia].
    apply Z.shiftl_mul_pow2. lia. }
  pose proof (Z_div_mod m' (Zpos my) ltac:(lia)) as Hdiv.
  destruct (Z.div_eucl m' (Zpos my)) as [q r]. destruct Hdiv as [Hqr Hr].
  assert (Hq : 0 <= q) by nia.
  assert (HXq : (X * IZR (Zpos my) = (IZR (Zpos my) * IZR q + IZR r) * pow2 e')%R).
  { assert (Hex : pow2 ex = (pow2 s * pow2 e' * pow2 ey)%R)
      by (rewrite <- !pow2_add; f_equal; unfold s; lia).
    assert (HmR : IZR m' = (IZR (Zpos mx) * pow2 s)%R)
      by (rewrite Hm', mult_IZR, pow2_IZR by lia; reflexivity).
    assert (HqR : IZR m' = (IZR (Zpos my) * IZR q + IZR r)%R)
      by (rewrite Hqr, plus_IZR, mult_IZR; reflexivity).
    apply Rmult_eq_reg_r with (r := pow2 ey); [|lra].
    rewrite <- HqR, HmR, Rmult_assoc, HXy, Hex. ring. }
  pose proof (pow2_pos e') as Hpe.
  assert (Hr0 : (0 <= IZR r)%R) by (apply IZR_le; lia).
  assert (Hr1 : (IZR r < IZR (Zpos my))%R) by (apply IZR_lt; lia).
  destruct (new_location_flags (Zpos my) r q) as [Hm Hflags].
  assert (Hrep : Rep (shr_record_of_loc q (new_location (Zpos my) r)) e' X).
  { unfold Rep. rewrite Hm, plus_IZR. split; [exact Hq|]. split; [split; nra|].
    intros Hf. specialize (Hflags Hf).
    assert (0 < IZR r)%R by (apply IZR_lt; lia). nra. }
  apply (binary_round_aux_between _ _ _ _ X g a b); [exact Hq|exact Hrep| |lia|exact Hab].
  apply (round_exponent_le _ _ _ X Hq); [nra|exact Hlt| |lia].
  unfold e'. rewrite fexp64.
  pose proof (Zdigits2_lower (Zpos mx) ltac:(lia)) as Hd1. fold d1 in Hd1.
  pose proof (Zdigits2_upper (Zpos my) ltac:(lia)) as Hd2. fold d2 in Hd2.
  rewrite plus_IZR in Hd2.
  assert (Hd : (pow2 (d1 - 1 + ex - d2 - ey) < pow2 (g + 53))%R).
  { apply Rle_lt_trans with (r2 := X); [|exact Hlt].
    pose proof (pow2_pos d2) as Hp2.
    pose proof (pow2_pos (d1 - 1 + ex - d2 - ey)) as Hpt.
    assert (Hsplit : (pow2 (d1 - 1 + ex - d2 - ey) * (pow2 d2 * pow2 ey)
                      = pow2 (d1 - 1) * pow2 ex)%R).
    { rewrite <- !pow2_add. f_equal. lia. }
    apply Rmult_le_reg_r with (r := (pow2 d2 * pow2 ey)%R); [nra|].
    rewrite Hsplit.
    apply Rle_trans with (r2 := (X * (IZR (Zpos my) * pow2 ey))%R); [rewrite HXy; nra|].
    apply Rmult_le_compat_l; [lra|]. nra. }
  apply pow2_lt_inv in Hd. lia.
Qed.

(** ** The same facts on primitive doubles *)

Lemma F2R_opp (x : float) : F2R (- x) = (- F2R x)%R.
Proof.
  unfold F2R. rewrite FloatAxioms.opp_spec.
  destruct (Prim2SF x) as [s|s| |s m e]; cbn [SFopp SF2R]; try lra.
  rewrite !cond_Zopp_IZR. destruct s; cbn [negb]; lra.
Qed.

Lemma finiteF_opp (x : float) : finiteF x -> finiteF (- x).
Proof.
  unfold finiteF. rewrite FloatAxioms.opp_spec. destruct (Prim2SF x); cbn; auto.
Qed.

Lemma F2R_abs (x : float) : Rabs (F2R x) = Fmag x.
Proof. apply SF2R_abs. Qed.

(** Integers of at most 53 bits are doubles. *)
Lemma Z2f_exact (z : Z) :
  Z.abs z < 2 ^ 53 -> finiteF (Z2f z) /\ F2R (Z2f z) = IZR z.
Proof.
  assert (Hconv : forall a, 0 <= a < 2 ^ 53 ->
            finiteF (of_uint63 (of_Z a)) /\ F2R (of_uint63 (of_Z a)) = IZR a).
  { intros a Ha. unfold finiteF, F2R. rewrite FloatAxioms.of_uint63_spec, Uint63.of_Z_spec.
    rewrite Z.mod_small by (change wB with (2 ^ 63); lia).
    destruct (binary_normalize_exact a 0 0 a) as [Hf Hv];
      [lia|lia|reflexivity|].
    split; [exact Hf|]. rewrite Hv, pow2_0. lra. }
  intros Hz. unfold Z2f. destruct (z <? 0) eqn:Hneg.
  - apply Z.ltb_lt in Hneg.
    replace (- z <? 9223372036854775808) with true by (symmetry; apply Z.ltb_lt; lia).
    destruct (Hconv (- z)) as [Hf Hv]; [lia|].
    split; [apply finiteF_opp, Hf|]. rewrite F2R_opp, Hv, opp_IZR. lra.
  - apply Z.ltb_ge in Hneg.
    replace (z <? 9223372036854775808) with true by (symmetry; apply Z.ltb_lt; lia).
    apply Hconv. lia.
Qed.

Lemma Fadd_exact (x y : float) (g A : Z) :
  finiteF x -> finiteF y ->
  -1074 <= g <= 970 -> Z.abs A < 2 ^ 53 ->
  (F2R x + F2R y = IZR A * pow2 g)%R ->
  finiteF (x + y) /\ F2R (x + y) = (F2R x + F2R y)%R.
Proof.
  unfold finiteF, F2R. rewrite FloatAxioms.add_spec. apply SFadd_exact.
Qed.

Lemma Fsub_exact (x y : float) (g A : Z) :
  finiteF x -> finiteF y ->
  -1074 <= g <= 970 -> Z.abs A < 2 ^ 53 ->
  (F2R x - F2R y = IZR A * pow2 g)%R ->
  finiteF (x - y) /\ F2R (x - y) = (F2R x - F2R y)%R.
Proof.
  unfold finiteF, F2R. rewrite FloatAxioms.sub_spec. apply SFsub_exact.
Qed.

Lemma Fmul_between (x y : float) (g a b kx ky : Z) :
  finiteF x -> finiteF y ->
  -1074 <= g <= 970 ->
  (Fmag x < pow2 kx)%R -> (Fmag y < pow2 ky)%R ->
  Z.max (kx - 53) (-1074) + Z.max (ky - 53) (-1074) <= g ->
  (Fmag x * Fmag y < pow2 (g + 53))%R ->
  (IZR a * pow2 g <= Fmag x * Fmag y <= IZR b * pow2 g)%R ->
  finiteF (x * y)
  /\ SFsign (Prim2SF (x * y)) = xorb (SFsign (Prim2SF x)) (SFsign (Prim2SF y))
  /\ (IZR a * pow2 g <= Fmag (x * y) <= IZR b * pow2 g)%R.
Proof.
  unfold finiteF, Fmag. rewrite FloatAxioms.mul_spec. intros Hx Hy.
  apply SFmul_between; auto using Prim2SF_valid.
Qed.

Lemma Fdiv_between (x y : float) (g a b : Z) :
  finiteF x -> finiteF y -> F2R y <> 0%R ->
  -1074 <= g <= 970 ->
  (Fmag x / Fmag y < pow2 (g + 53))%R ->
  (IZR a * pow2 g <= Fmag x / Fmag y <= IZR b * pow2 g)%R ->
  finiteF (x / y)
  /\ SFsign (Prim2SF (x / y)) = xorb (SFsign (Prim2SF x)) (SFsign (Prim2SF y))
  /\ (IZR a * pow2 g <= Fmag (x / y) <= IZR b * pow2 g)%R.
Proof.
  unfold finiteF, Fmag, F2R. rewrite FloatAxioms.div_spec. intros Hx Hy Hne.
  destruct (Prim2SF y) as [sy|sy| |sy my ey]; try contradiction.
  apply SFdiv_between. exact Hx.
Qed.

(** The test [x === 0] on a double that has a value. *)
Lemma Feqb_zero (x : float) :
  finiteF x -> ((x =? 0)%float = true <-> F2R x = 0%R).
Proof.
  unfold finiteF, F2R. rewrite FloatAxioms.eqb_spec. change (Prim2SF 0) with (S754_zero false).
  destruct (Prim2SF x) as [s|s| |s m e]; try contradiction; intros _.
  - cbn. split; auto.
  - unfold SFeqb. cbn [SFcompare SF2R]. rewrite cond_Zopp_IZR.
    pose proof (pow2_pos e). pose proof (IZR_lt 0 (Zpos m) ltac:(lia)).
    destruct s; split; try discriminate; intros; exfalso; nra.
Qed.

(** ** [Math.round] and [Math.max] on percentages *)

Lemma Fmag_Z2f (z : Z) : Z.abs z < 2 ^ 53 -> Fmag (Z2f z) = IZR (Z.abs z).
Proof.
  intros Hz. rewrite <- F2R_abs. destruct (Z2f_exact z Hz) as [_ ->].
  symmetry. apply abs_IZR.
Qed.

Lemma finite_zero_cases (x : float) (s : bool) :
  Prim2SF x = S754_zero s -> x = neg_zero \/ x = zero.
Proof.
  intros H. rewrite <- (SF2Prim_Prim2SF x), H. destruct s; cbn; auto.
Qed.

Lemma Math_round_percent (x : float) :
  finiteF x -> (Fmag x <= 100)%R ->
  exists n, -100 <= n <= 100 /\ (Math_round x = Z2f n \/ Math_round x = neg_zero).
Proof.
  unfold finiteF, Fmag, Math_round. intros Hfin Hmag.
  pose proof (Prim2SF_valid x) as Hvalid.
  destruct (Prim2SF x) as [s|s| |s m e] eqn:Hx; try contradiction.
  - exists 0. split; [lia|]. destruct (finite_zero_cases x s Hx) as [->| ->]; auto.
  - assert (He : e <= -46).
    { pose proof (valid_exponent s m e 7 Hvalid) as H. cbn [SFmag] in *.
      rewrite (pow2_IZR 7) in H by lia. change (2 ^ 7) with 128 in H.
      assert (IZR (Zpos m) * pow2 e < 128)%R by lra. specialize (H H0). lia. }
    replace (0 <=? e) with false by (symmetry; apply Z.leb_gt; lia).
    cbn [SFmag] in Hmag.
    set (D := 2 ^ (- e)).
    assert (HD : 0 < D) by (apply Z.pow_pos_nonneg; lia).
    assert (Hm : Zpos m <= 100 * D).
    { apply le_IZR. rewrite mult_IZR. unfold D. rewrite <- pow2_IZR by lia.
      pose proof (pow2_pos e) as Hp. pose proof (pow2_pos (- e)) as Hn.
      assert (Hone : (pow2 e * pow2 (- e) = 1)%R).
      { rewrite <- pow2_add. replace (e + - e) with 0 by lia. apply pow2_0. }
      nra. }
    rewrite Z.shiftr_div_pow2 by lia.
    replace (2 ^ (1 - e)) with (2 * D)
      by (unfold D; replace (1 - e) with (Z.succ (- e)) by lia;
          rewrite Z.pow_succ_r by lia; reflexivity).
    set (n := (2 * cond_Zopp s (Zpos m) + D) / (2 * D)).
    assert (Hn : -100 <= n <= 100).
    { unfold n. split.
      - apply Z.div_le_lower_bound; [lia|]. destruct s; cbn [cond_Zopp]; lia.
      - apply Z.lt_succ_r. apply Z.div_lt_upper_bound; [lia|].
        destruct s; cbn [cond_Zopp]; lia. }
    destruct (n =? 0) eqn:Hz.
    + exists 0. split; [lia|]. destruct s; auto.
    + exists n. split; [exact Hn|]. left. reflexivity.
Qed.

Lemma percentRange_In (n : Z) : -100 <= n <= 100 -> In n percentRange.
Proof.
  intros Hn. unfold percentRange. apply in_map_iff.
  exists (Z.to_nat (n + 100)). split; [lia|]. apply in_seq. lia.
Qed.

Lemma Math_max_percent (n : Z) :
  -100 <= n <= 100 -> Math_max 0 (Z2f n) = Z2f (Z.max 0 n).
Proof.
  intros Hn. apply FloatAxioms.Leibniz.eqb_spec.
  assert (Hall : forallb clampCheck percentRange = true) by (vm_compute; reflexivity).
  rewrite forallb_forall in Hall. apply (Hall n). apply percentRange_In. exact Hn.
Qed.

(** The clamped percentage of a tally that does not exceed the vote count
    in magnitude is a whole number from 0 to 100. *)
Lemma groupScore_percent (summary : PollResult) :
  finiteF (pr_score summary) -> finiteF (pr_votes summary) ->
  F2R (pr_votes summary) <> 0%R ->
  (Fmag (pr_score summary) <= Fmag (pr_votes summary))%R ->
  exists k, 0 <= k <= 100 /\ groupScore summary = Z2f k.
Proof.
  intros Hs Hv Hne Hle. unfold groupScore.
  assert (Hvpos : (0 < Fmag (pr_votes summary))%R).
  { rewrite <- F2R_abs. apply Rabs_pos_lt. exact Hne. }
  assert (Hspos : (0 <= Fmag (pr_score summary))%R) by apply SFmag_nonneg.
  assert (Hratio : (0 <= Fmag (pr_score summary) / Fmag (pr_votes summary) <= 1)%R).
  { split.
    - apply Rmult_le_pos; [lra|]. apply Rlt_le, Rinv_0_lt_compat. lra.
    - apply Rmult_le_reg_r with (r := Fmag (pr_votes summary)); [lra|].
      unfold Rdiv. rewrite Rmult_assoc, Rinv_l by lra. lra. }
  destruct (Fdiv_between (pr_score summary) (pr_votes summary) 0 0 1)
    as (Hqf & _ & Hq); [assumption..|lia| | |].
  { rewrite (pow2_IZR (0 + 53)) by lia. change (2 ^ (0 + 53)) with 9007199254740992. lra. }
  { rewrite pow2_0. lra. }
  rewrite pow2_0 in Hq.
  set (q := (pr_score summary / pr_votes summary)%float) in *.
  assert (H100 : Fmag 100 = 100%R) by (apply (Fmag_Z2f 100); reflexivity).
  destruct (Fmul_between q 100 0 0 100 1 7) as (Hpf & _ & Hp).
  - exact Hqf.
  - apply (proj1 (Z2f_exact 100 ltac:(reflexivity))).
  - lia.
  - rewrite pow2_1. lra.
  - rewrite H100, (pow2_IZR 7) by lia. change (2 ^ 7) with 128. lra.
  - lia.
  - rewrite H100, (pow2_IZR (0 + 53)) by lia.
    change (2 ^ (0 + 53)) with 9007199254740992. lra.
  - rewrite H100, pow2_0. lra.
  - rewrite pow2_0 in Hp.
    destruct (Math_round_percent (q * 100)%float Hpf ltac:(lra)) as (n & Hn & [-> | ->]).
    + exists (Z.max 0 n). split; [lia|]. apply Math_max_percent. exact Hn.
    + exists 0. split; [lia|]. reflexivity.
Qed.

(** ** Signs, and the uniqueness of finite doubles *)

Lemma pow2_m1 : pow2 (-1) = (/ 2)%R.
Proof.
  apply Rmult_eq_reg_l with (r := pow2 1); [|pose proof (pow2_pos 1); lra].
  rewrite <- pow2_add. change (1 + -1) with 0. rewrite pow2_0, pow2_1. lra.
Qed.

Lemma positive_sign (f : spec_float) : (0 < SF2R f)%R -> SFsign f = false.
Proof.
  intros H. rewrite SF2R_sign_mag in H. pose proof (SFmag_nonneg f).
  destruct (SFsign f); [lra|reflexivity].
Qed.

Lemma F2R_of_sign (x : float) :
  SFsign (Prim2SF x) = false -> F2R x = Fmag x.
Proof. unfold F2R, Fmag. rewrite SF2R_sign_mag. intros ->. lra. Qed.

Lemma Z2f_sign (n : Z) : 0 <= n < 2 ^ 53 -> SFsign (Prim2SF (Z2f n)) = false.
Proof.
  intros Hn. destruct (Z.eq_dec n 0) as [->|Hne]; [reflexivity|].
  apply positive_sign. fold (F2R (Z2f n)).
  destruct (Z2f_exact n ltac:(lia)) as [_ ->]. apply IZR_lt. lia.
Qed.

(** A finite double is determined by its sign and magnitude. *)
Lemma SF_unique (x y : spec_float) :
  valid_binary x = true -> valid_binary y = true ->
  finiteSF x -> finiteSF y ->
  SFsign x = SFsign y -> SFmag x = SFmag y -> x = y.
Proof.
  intros Hvx Hvy Hfx Hfy Hs Hm.
  destruct x as [sx|sx| |sx mx ex]; try contradiction;
    destruct y as [sy|sy| |sy my ey]; try contradiction;
    cbn [SFsign SFmag] in Hs, Hm; subst.
  - reflexivity.
  - pose proof (pow2_pos ey). pose proof (IZR_lt 0 (Zpos my) ltac:(lia)). nra.
  - pose proof (pow2_pos ex). pose proof (IZR_lt 0 (Zpos mx) ltac:(lia)). nra.
  - cbn [SpecFloat.valid_binary] in Hvx, Hvy. unfold bounded, canonical_mantissa in *.
    apply andb_prop in Hvx as [Hcx _]. apply andb_prop in Hvy as [Hcy _].
    apply Z.eqb_eq in Hcx, Hcy. rewrite fexp64 in Hcx, Hcy.
    pose proof (Zdigits2_lower (Zpos mx) ltac:(lia)) as Hlx.
    pose proof (Zdigits2_upper (Zpos mx) ltac:(lia)) as Hux.
    pose proof (Zdigits2_lower (Zpos my) ltac:(lia)) as Hly.
    pose proof (Zdigits2_upper (Zpos my) ltac:(lia)) as Huy.
    cbn [Zdigits2] in Hlx, Hux, Hly, Huy. rewrite plus_IZR in Hux, Huy.
    set (dx := Zpos (digits2_pos mx)) in *. set (dy := Zpos (digits2_pos my)) in *.
    pose proof (pow2_pos ex) as Hpx. pose proof (pow2_pos ey) as Hpy.
    assert (H1 : (pow2 (dx - 1 + ex) < pow2 (dy + ey))%R).
    { rewrite !pow2_add. nra. }
    assert (H2 : (pow2 (dy - 1 + ey) < pow2 (dx + ex))%R).
    { rewrite !pow2_add. nra. }
    apply pow2_lt_inv in H1, H2.
    assert (Hd : dx + ex = dy + ey) by lia.
    assert (He : ex = ey) by (rewrite <- Hcx, <- Hcy, Hd; reflexivity).
    subst ey. f_equal.
    apply Rmult_eq_reg_r in Hm; [|lra].
    apply eq_IZR in Hm. congruence.
Qed.

Lemma F_unique (x y : float) :
  finiteF x -> finiteF y ->
  SFsign (Prim2SF x) = SFsign (Prim2SF y) -> Fmag x = Fmag y -> x = y.
Proof.
  intros Hx Hy Hs Hm. apply Prim2SF_inj.
  apply SF_unique; auto using Prim2SF_valid.
Qed.

(** Sums and products of whole numbers below 2^53 are exact. *)
Lemma Z2f_add_exact (a b : Z) :
  0 <= a -> 0 <= b -> a + b < 2 ^ 53 ->
  (Z2f a + Z2f b)%float = Z2f (a + b).
Proof.
  intros Ha Hb Hlt.
  destruct (Z.eq_dec (a + b) 0) as [Hzero|Hpos].
  { assert (a = 0) by lia. assert (b = 0) by lia. subst. reflexivity. }
  destruct (Z2f_exact a ltac:(lia)) as [Haf Hav].
  destruct (Z2f_exact b ltac:(lia)) as [Hbf Hbv].
  destruct (Z2f_exact (a + b) ltac:(lia)) as [Hsf Hsv].
  destruct (Fadd_exact (Z2f a) (Z2f b) 0 (a + b)) as [Hf Hx];
    [assumption|assumption|lia|lia|rewrite Hav, Hbv, pow2_0, plus_IZR; lra|].
  assert (Hval : F2R (Z2f a + Z2f b) = IZR (a + b))
    by (rewrite Hx, Hav, Hbv, plus_IZR; reflexivity).
  assert (Hgt : (0 < IZR (a + b))%R) by (apply IZR_lt; lia).
  apply F_unique; [exact Hf|exact Hsf| |].
  - rewrite (Z2f_sign (a + b)) by lia. apply positive_sign.
    fold (F2R (Z2f a + Z2f b)). rewrite Hval. exact Hgt.
  - rewrite <- !F2R_abs, Hval, Hsv. reflexivity.
Qed.

Lemma Z2f_mul_exact (a b : Z) :
  0 <= a < 2 ^ 53 -> 0 <= b < 2 ^ 53 -> a * b < 2 ^ 53 ->
  (Z2f a * Z2f b)%float = Z2f (a * b).
Proof.
  intros Ha Hb Hlt.
  destruct (Z2f_exact a ltac:(lia)) as [Haf Hav].
  destruct (Z2f_exact b ltac:(lia)) as [Hbf Hbv].
  assert (Hab : 0 <= a * b) by nia.
  destruct (Z2f_exact (a * b) ltac:(lia)) as [Hpf Hpv].
  assert (Ham : Fmag (Z2f a) = IZR a) by (rewrite Fmag_Z2f, Z.abs_eq by lia; reflexivity).
  assert (Hbm : Fmag (Z2f b) = IZR b) by (rewrite Fmag_Z2f, Z.abs_eq by lia; reflexivity).
  assert (Hpm : Fmag (Z2f (a * b)) = IZR (a * b))
    by (rewrite Fmag_Z2f, Z.abs_eq by lia; reflexivity).
  assert (H53 : pow2 53 = IZR (2 ^ 53)) by (apply pow2_IZR; lia).
  destruct (Fmul_between (Z2f a) (Z2f b) 0 (a * b) (a * b) 53 53)
    as (Hf & Hs & Hm).
  - exact Haf.
  - exact Hbf.
  - lia.
  - rewrite Ham, H53. apply IZR_lt. lia.
  - rewrite Hbm, H53. apply IZR_lt. lia.
  - lia.
  - rewrite Ham, Hbm, <- mult_IZR. change (0 + 53) with 53. rewrite H53.
    apply IZR_lt. exact Hlt.
  - rewrite Ham, Hbm, <- mult_IZR, pow2_0. lra.
  - apply F_unique; [exact Hf|exact Hpf| |].
    + rewrite Hs, !Z2f_sign by lia. reflexivity.
    + rewrite Hpm. rewrite pow2_0 in Hm. lra.
Qed.

(** ** getTopRecommendation *)

Lemma firstMaximum_step (seen : list Recommendation) (acc item : Recommendation) :
  Forall numeric seen -> numeric item ->
  firstMaximum acc seen ->
  firstMaximum (pickHigher acc item) (seen ++ [item]).
Proof.
  intros Hseen Hitem (before & after & -> & Hb & Ha).
  apply Forall_app in Hseen as [Nb Hseen].
  apply Forall_cons_iff in Hseen as [Nacc Na].
  unfold pickHigher. destruct (score acc <? score item)%float eqn:Hlt.
  - exists (before ++ acc :: after), [].
    split; [reflexivity|]. split; [|constructor].
    rewrite Forall_forall in Nb, Na, Hb, Ha.
    apply Forall_app; split; [|constructor]; [| |]; rewrite ?Forall_forall.
    + intros r Hr. apply (ltb_trans _ (score acc)); auto. apply Nb; assumption.
    + assumption.
    + intros r Hr. apply (leb_ltb_trans _ (score acc)); auto. apply Na; assumption.
  - exists before, (after ++ [item]). rewrite <- app_assoc. split; [reflexivity|].
    split; [assumption|]. apply Forall_app; split; [assumption|].
    constructor; [|constructor]. apply not_ltb_leb; assumption.
Qed.

Lemma firstMaximum_fold (rest seen : list Recommendation) (acc : Recommendation) :
  Forall numeric seen -> Forall numeric rest ->
  firstMaximum acc seen ->
  firstMaximum (fold_left pickHigher rest acc) (seen ++ rest).
Proof.
  revert seen acc. induction rest as [|item rest IH]; intros seen acc Hs Hr Hacc.
  - rewrite app_nil_r. exact Hacc.
  - apply Forall_cons_iff in Hr as [Hitem Hr]. cbn [fold_left].
    replace (seen ++ item :: rest) with ((seen ++ [item]) ++ rest)
      by (rewrite <- app_assoc; reflexivity).
    apply IH; [apply Forall_app; split; [assumption|constructor; [assumption|constructor]]
              |assumption|].
    apply firstMaximum_step; assumption.
Qed.

Lemma firstMaximum_In (top : Recommendation) (l : list Recommendation) :
  firstMaximum top l -> In top l.
Proof. intros (before & after & -> & _). apply in_elt. Qed.

(** C4.  On a list of recommendations with numeric (non-NaN) scores,
    [getTopRecommendation] answers [undefined] for an absent list, an empty
    list and a list whose scores are all zero; on a list with a non-zero
    score it answers the first element with the largest score, which is an
    element of that list; and on [{A,10},{B,30},{B2,30}] it answers
    [{B,30}]. *)
Theorem getTopRecommendation_first_maximum (l : list Recommendation) :
  Forall numeric l ->
  getTopRecommendation undefined = undefined
  /\ getTopRecommendation null = undefined
  /\ getTopRecommendation (present []) = undefined
  /\ (Forall (fun r => (score r =? 0)%float = true) l ->
      getTopRecommendation (present l) = undefined)
  /\ (Exists (fun r => (score r =? 0)%float = false) l ->
      exists top,
        getTopRecommendation (present l) = present top
        /\ firstMaximum top l
        /\ In top l)
  /\ getTopRecommendation
       (present [ {| value := Str "A"; score := 10 |};
                  {| value := Str "B"; score := 30 |};
                  {| value := Str "B2"; score := 30 |} ])
     = present {| value := Str "B"; score := 30 |}.
Proof.
  intros Hnum. repeat split; try reflexivity.
  - intros Hzero. destruct l as [|first rest]; [reflexivity|].
    assert (Hall : forallb (fun item => (score item =? 0)%float) (first :: rest) = true).
    { apply forallb_forall. rewrite Forall_forall in Hzero. exact Hzero. }
    cbn [getTopRecommendation]. rewrite Hall. reflexivity.
  - intros Hsome. destruct l as [|first rest].
    + inversion Hsome.
    + assert (Hall : forallb (fun item => (score item =? 0)%float) (first :: rest) = false).
      { apply not_true_is_false. intros Hall.
        rewrite forallb_forall in Hall. apply Exists_exists in Hsome as (r & Hr & Hz).
        rewrite (Hall r Hr) in Hz. discriminate. }
      cbn [getTopRecommendation]. rewrite Hall.
      change (fun acc item : Recommendation =>
                if (score acc <? score item)%float then item else acc) with pickHigher.
      cbn [fold_left]. unfold pickHigher at 2. rewrite ltb_irrefl.
      apply Forall_cons_iff in Hnum as [Hfirst Hrest].
      assert (Hmax : firstMaximum (fold_left pickHigher rest first) ([first] ++ rest)).
      { apply firstMaximum_fold; [constructor; [assumption|constructor]|assumption|].
        exists [], []. repeat split; constructor. }
      eexists. split; [reflexivity|]. split; [exact Hmax|].
      apply firstMaximum_In in Hmax. exact Hmax.
Qed.

Lemma getTopRecommendation_first_maximum_witness :
  exists top,
    getTopRecommendation
      (present [ {| value := Str "A"; score := 10 |};
                 {| value := Str "B"; score := 30 |};
                 {| value := Str "B2"; score := 30 |} ]) = present top
    /\ In top [ {| value := Str "A"; score := 10 |};
                {| value := Str "B"; score := 30 |};
                {| value := Str "B2"; score := 30 |} ].
Proof.
  destruct (getTopRecommendation_first_maximum
              [ {| value := Str "A"; score := 10 |};
                {| value := Str "B"; score := 30 |};
                {| value := Str "B2"; score := 30 |} ])
    as (_ & _ & _ & _ & Htop & _).
  - repeat constructor.
  - destruct Htop as (top & Heq & _ & Hin).
    + apply Exists_cons_hd. reflexivity.
    + exists top. split; assumption.
Defined.

(** ** BatchPlanner: the batches taken from the queue *)

Section Batches.

Variable decode : string -> string -> string.
Variable Row : Type.
Variable rowId : Row -> float.
Variable options : Options.

Local Abbreviation size := (opt_batchSize options).

Hypothesis size_positive : 0 < size.

Lemma splice0_app {A} (n : Z) (l : list A) :
  fst (splice0 n l) ++ snd (splice0 n l) = l.
Proof. apply firstn_skipn. Qed.

Lemma splice0_length {A} (n : Z) (l : list A) :
  0 <= n ->
  Z.of_nat (List.length (fst (splice0 n l))) = Z.min n (Z.of_nat (List.length l))
  /\ Z.of_nat (List.length (snd (splice0 n l))) = Z.of_nat (List.length l) - Z.min n (Z.of_nat (List.length l)).
Proof.
  intros Hn. unfold splice0. cbn [fst snd].
  rewrite length_firstn, length_skipn. lia.
Qed.

Lemma planned_splice (queue : list Row) :
  planned Row options (fst (splice0 size queue)) (snd (splice0 size queue)).
Proof.
  destruct (splice0_length size queue) as [Hf Hs]; [lia|].
  unfold planned. split; [lia|].
  destruct (Z.le_gt_cases size (Z.of_nat (List.length queue))) as [Hle|Hgt].
  - left. lia.
  - right. apply length_zero_iff_nil. lia.
Qed.

Lemma batchesFrom_concat (fuel : nat) :
  forall pending queue,
    planned Row options pending queue ->
    (List.length queue < fuel)%nat ->
    List.concat (batchesFrom options fuel pending queue) = pending ++ queue.
Proof.
  induction fuel as [|fuel IH]; intros pending queue Hp Hfuel; [lia|].
  destruct pending as [|r pending].
  - destruct Hp as [_ [Hfull|Hq]]; [cbn in Hfull; lia|].
    subst queue. reflexivity.
  - cbn [batchesFrom].
    pose proof (planned_splice queue) as Hnext.
    pose proof (splice0_app size queue) as Happ.
    destruct (splice0_length size queue) as [Hf Hs]; [lia|].
    destruct (splice0 size queue) as [next queue'] eqn:Hsp. cbn [fst snd] in *.
    cbn [List.concat]. destruct queue as [|q queue0].
    + cbn in Hf, Hs. destruct next; [|cbn in Hf; lia]. destruct queue'; [|cbn in Hs; lia].
      destruct fuel; reflexivity.
    + rewrite IH; [rewrite Happ; reflexivity|assumption|].
      cbn [List.length] in *. lia.
Qed.

(** Every batch is non-empty and at most [size] long, and every batch but
    the last is exactly [size] long. *)
Lemma batchesFrom_sizes (fuel : nat) :
  forall pending queue,
    planned Row options pending queue ->
    (List.length queue < fuel)%nat ->
    Forall (fun b => 0 < Z.of_nat (List.length b) <= size)
           (batchesFrom options fuel pending queue)
    /\ Forall (fun b => Z.of_nat (List.length b) = size)
              (removelast (batchesFrom options fuel pending queue)).
Proof.
  induction fuel as [|fuel IH]; intros pending queue Hp Hfuel; [lia|].
  destruct pending as [|r pending]; [split; constructor|].
  cbn [batchesFrom].
  pose proof (planned_splice queue) as Hnext.
  destruct (splice0_length size queue) as [Hf Hs]; [lia|].
  destruct (splice0 size queue) as [next queue'] eqn:Hsp. cbn [fst snd] in *.
  destruct queue as [|q queue0].
  - cbn in Hf, Hs. destruct next; [|cbn in Hf; lia].
    replace (batchesFrom options fuel [] queue') with (@nil (list Row))
      by (destruct fuel; reflexivity).
    destruct Hp as [Hle _]. split; [|constructor].
    constructor; [cbn [List.length] in *; lia|constructor].
  - destruct (IH next queue' Hnext) as [Hall Hfull]; [cbn [List.length] in *; lia|].
    destruct Hp as [Hle [Heq|Hq]]; [|discriminate].
    split.
    + constructor; [cbn [List.length] in *; lia|assumption].
    + assert (Hne : batchesFrom options fuel next queue' <> []).
      { destruct next; [cbn [List.length] in *; lia|].
        destruct fuel; [cbn [List.length] in *; lia|].
        cbn [batchesFrom]. destruct (splice0 (opt_batchSize options) queue'). discriminate. }
      destruct (batchesFrom options fuel next queue') as [|b bs] eqn:Hb; [congruence|].
      change (removelast ((r :: pending) :: b :: bs))
        with ((r :: pending) :: removelast (b :: bs)).
      constructor; assumption.
Qed.

Lemma ceilDiv_small (a : Z) : 0 < a <= size -> ceilDiv a size = 1.
Proof.
  intros Ha. unfold ceilDiv.
  replace (a + size - 1) with (1 * size + (a - 1)) by lia.
  rewrite Z.div_add_l by lia. rewrite Z.div_small; lia.
Qed.

Lemma ceilDiv_step (a : Z) : 0 <= a -> ceilDiv (a + size) size = ceilDiv a size + 1.
Proof.
  intros Ha. unfold ceilDiv.
  replace (a + size + size - 1) with ((a + size - 1) + 1 * size) by lia.
  rewrite Z.div_add by lia. reflexivity.
Qed.

Lemma ceilDiv_zero : ceilDiv 0 size = 0.
Proof. unfold ceilDiv. apply Z.div_small. lia. Qed.

Lemma batchesFrom_count (fuel : nat) :
  forall pending queue,
    planned Row options pending queue ->
    (List.length queue < fuel)%nat ->
    Z.of_nat (List.length (batchesFrom options fuel pending queue))
    = ceilDiv (Z.of_nat (List.length (pending ++ queue))) size.
Proof.
  induction fuel as [|fuel IH]; intros pending queue Hp Hfuel; [lia|].
  destruct pending as [|r pending].
  - destruct Hp as [_ [Hfull|Hq]]; [cbn in Hfull; lia|].
    subst queue. cbn. rewrite ceilDiv_zero. reflexivity.
  - cbn [batchesFrom].
    pose proof (planned_splice queue) as Hnext.
    pose proof (splice0_app size queue) as Happ.
    destruct (splice0_length size queue) as [Hf Hs]; [lia|].
    destruct (splice0 size queue) as [next queue'] eqn:Hsp. cbn [fst snd] in *.
    destruct queue as [|q queue0].
    + cbn in Hf, Hs. destruct next; [|cbn in Hf; lia].
      replace (batchesFrom options fuel [] queue') with (@nil (list Row))
        by (destruct fuel; reflexivity).
      rewrite app_nil_r. destruct Hp as [Hle _].
      rewrite ceilDiv_small; [reflexivity|cbn [List.length] in *; lia].
    + cbn [List.length]. rewrite Nat2Z.inj_succ.
      rewrite IH; [|assumption|cbn [List.length] in *; lia].
      rewrite Happ. destruct Hp as [Hle [Heq|Hq]]; [|discriminate].
      rewrite length_app, Nat2Z.inj_add, Heq.
      rewrite (Z.add_comm size), ceilDiv_step by lia. lia.
Qed.

Lemma batchesFrom_fuel (fuel1 : nat) :
  forall fuel2 pending queue,
    planned Row options pending queue ->
    (List.length queue < fuel1)%nat ->
    (List.length queue < fuel2)%nat ->
    batchesFrom options fuel1 pending queue
    = batchesFrom options fuel2 pending queue.
Proof.
  induction fuel1 as [|fuel1 IH]; intros fuel2 pending queue Hp H1 H2; [lia|].
  destruct fuel2 as [|fuel2]; [lia|].
  destruct pending as [|r pending]; [reflexivity|].
  cbn [batchesFrom].
  pose proof (planned_splice queue) as Hnext.
  destruct (splice0_length size queue) as [Hf Hs]; [lia|].
  destruct (splice0 size queue) as [next queue'] eqn:Hsp. cbn [fst snd] in *.
  f_equal. destruct queue as [|q queue0].
  - cbn in Hf. destruct next; [|cbn in Hf; lia].
    destruct fuel1, fuel2; reflexivity.
  - apply IH; [assumption|cbn [List.length] in *; lia..].
Qed.

End Batches.

(** ** IngestionLoop: what one pass through the loop body does *)

Section LoopFacts.

Variable decode : string -> string -> string.
Variable Row : Type.
Variable rowId : Row -> float.
Variable options : Options.

Local Abbreviation size := (opt_batchSize options).
Local Abbreviation step := (iteration decode rowId options).
Local Abbreviation loop := (run decode rowId options).

Lemma iteration_rejected (a : Attempt) (st : LoopState Row) :
  fetched a = Rejected ->
  step a st = Continue (afterRejected rowId st).
Proof.
  intros Hf. unfold iteration, afterRejected. rewrite Hf. rewrite <- app_assoc. reflexivity.
Qed.

Lemma iteration_resolved (a : Attempt) (st : LoopState Row)
    (response : nullable (list BggThingDto)) (games : list Game) :
  fetched a = Resolved response ->
  mapM (parseGame decode) (fetchedThings response) = Return games ->
  step a st
  = if opt_debug options
    then Exited (afterResolved rowId options a response games st)
    else Continue (afterResolved rowId options a response games st).
Proof.
  intros Hf Hgames. unfold iteration, afterResolved, outputDir, targetPrefix. rewrite Hf.
  destruct response as [| |[|t ts]]; cbn [fetchedThings isEmptyResponse] in *;
    rewrite Hgames; destruct (splice0 size (df st)) as [next queue];
    destruct (opt_debug options); cbn [fst snd];
    rewrite <- ?app_assoc; reflexivity.
Qed.

Lemma iteration_uncaught (a : Attempt) (st : LoopState Row)
    (response : nullable (list BggThingDto)) (e : exn) :
  fetched a = Resolved response ->
  mapM (parseGame decode) (fetchedThings response) = Throw e ->
  exists st', step a st = Uncaught e st'.
Proof.
  intros Hf Hthrow. unfold iteration. rewrite Hf.
  destruct response as [| |[|t ts]]; cbn [fetchedThings] in *;
    try discriminate; rewrite Hthrow; eexists; reflexivity.
Qed.

(** An empty or absent result set never reaches the normaliser. *)
Lemma empty_response_games (response : nullable (list BggThingDto)) :
  isEmptyResponse response = true ->
  mapM (parseGame decode) (fetchedThings response) = Return [].
Proof. destruct response as [| |[|t ts]]; [reflexivity..|discriminate]. Qed.

Lemma delivers_resolved (a : Attempt) :
  delivers decode a ->
  exists response games,
    fetched a = Resolved response
    /\ mapM (parseGame decode) (fetchedThings response) = Return games.
Proof.
  unfold delivers. destruct (fetched a) as [|response]; [contradiction|].
  destruct response as [| |things]; intros H.
  - exists undefined, []. split; reflexivity.
  - exists null, []. split; reflexivity.
  - destruct H as [games Hg]. exists (present things), games. split; [reflexivity|exact Hg].
Qed.

Lemma queried_app (e1 e2 : list Effect) : queried (e1 ++ e2) = queried e1 ++ queried e2.
Proof. apply flat_map_app. Qed.

Lemma queried_afterResolved (a : Attempt) (response : nullable (list BggThingDto))
    (games : list Game) (st : LoopState Row) :
  queried (effects (afterResolved rowId options a response games st))
  = queried (effects st) ++ [map rowId (batch st)].
Proof.
  unfold afterResolved. cbn [effects]. rewrite !queried_app. f_equal.
  destruct (opt_debug options); [reflexivity|].
  destruct (timeTaken a <? 5000)%float; reflexivity.
Qed.

End LoopFacts.

(** ** IngestionLoop: fetch failures *)

(** C1 (as amended).  A query that raises is recorded in [stats.errors]
    with the identifiers of the batch, the client is replaced, the loop
    sleeps for the fixed 5000 ms and goes on with the same batch, queue and
    batch index.  A query that resolves to an empty or absent result set is
    recorded in [stats.errors] with the identifiers of the batch as well,
    but is then handled as a processed batch with no items: the effects of
    the pass are the query, the write of an empty output file for the
    current batch index and, outside debug mode, the pacing sleep of
    5000 ms minus the elapsed time that follows every batch faster than
    5000 ms (in debug mode the raw dump and the exit instead); the client
    is not replaced and the fixed back-off of the [catch] block is not
    taken; the processed count grows by one, the next batch is taken from
    the queue and, outside debug mode, the batch index advances by one and
    the run goes on from there.  Neither ends the run with an uncaught
    exception. *)
Theorem fetch_failure_recorded_not_fatal
    (decode : string -> string -> string) (Row : Type) (rowId : Row -> float)
    (options : Options) (a : Attempt) (st : LoopState Row) :
  match fetched a with
  | Rejected =>
      exists st',
        iteration decode rowId options a st = Continue st'
        /\ batch st' = batch st
        /\ df st' = df st
        /\ currentBatchCount st' = currentBatchCount st
        /\ client st' = S (client st)
        /\ errors (stats st')
           = errors (stats st)
             ++ [ {| ids := map rowId (batch st);
                     error := retryMessage (currentBatchCount st) |} ]
        /\ batchesProcessed (stats st') = batchesProcessed (stats st)
        /\ effects st'
           = effects st
             ++ [Query (client st) (map rowId (batch st)); CreateClient; Sleep 5000]
        /\ forall env,
             batch st <> [] ->
             run decode rowId options (a :: env) st = run decode rowId options env st'
  | Resolved response =>
      if isEmptyResponse response then
        exists st',
          iteration decode rowId options a st
          = (if opt_debug options then Exited st' else Continue st')
          /\ errors (stats st')
             = errors (stats st)
               ++ [ {| ids := map rowId (batch st);
                       error := "No data returned from BGG API" |} ]
          /\ batch st' = fst (splice0 (opt_batchSize options) (df st))
          /\ df st' = snd (splice0 (opt_batchSize options) (df st))
          /\ client st' = client st
          /\ batchesProcessed (stats st') = batchesProcessed (stats st) + 1
          /\ currentBatchCount st'
             = (if opt_debug options then currentBatchCount st
                else currentBatchCount st + 1)
          /\ effects st'
             = effects st
               ++ [Query (client st) (map rowId (batch st));
                   WriteBatch ("./" ++ (if opt_debug options then "debug" else "output")
                               ++ "/batch_" ++ numToString (currentBatchCount st)
                               ++ ".json") []]
               ++ (if opt_debug options
                   then [WriteRaw ("./debug/batch_" ++ numToString (currentBatchCount st)
                                   ++ "-raw.json") [];
                         Exit 0]
                   else if (timeTaken a <? 5000)%float
                        then [Sleep (5000 - timeTaken a)%float]
                        else [])
          /\ (In CreateClient (effects st') -> In CreateClient (effects st))
          /\ (forall env,
                batch st <> [] ->
                opt_debug options = false ->
                run decode rowId options (a :: env) st
                = run decode rowId options env st')
      else True
  end.
Proof.
  destruct (fetched a) as [|response] eqn:Hf.
  - exists (afterRejected rowId st).
    rewrite (iteration_rejected decode Row rowId options a st Hf).
    repeat split; try reflexivity.
    intros env Hne. cbn [run]. destruct (batch st); [congruence|].
    rewrite (iteration_rejected decode Row rowId options a st Hf). reflexivity.
  - destruct (isEmptyResponse response) eqn:Hempty; [|exact I].
    exists (afterResolved rowId options a response [] st).
    pose proof (iteration_resolved decode Row rowId options a st response [] Hf
                  (empty_response_games decode response Hempty)) as Hstep.
    assert (Hrun : forall env,
               batch st <> [] ->
               opt_debug options = false ->
               run decode rowId options (a :: env) st
               = run decode rowId options env
                     (afterResolved rowId options a response [] st)).
    { intros env Hne Hdebug. cbn [run]. destruct (batch st); [congruence|].
      rewrite Hstep, Hdebug. reflexivity. }
    split; [exact Hstep|].
    destruct response as [| |[|t ts]]; try discriminate Hempty;
      (repeat split; try reflexivity; try exact Hrun;
       cbn [afterResolved effects isEmptyResponse fetchedThings];
       intros Hin; apply in_app_or in Hin as [Hin|Hin]; [exact Hin|];
       apply in_app_or in Hin as [Hin|Hin];
       [destruct Hin as [Hin|[Hin|[]]]; discriminate|];
       destruct (opt_debug options);
       [destruct Hin as [Hin|[Hin|[]]]; discriminate|];
       destruct (timeTaken a <? 5000)%float;
       [destruct Hin as [Hin|[]]; discriminate|destruct Hin]).
Qed.

(** The claim as the specification words it fails: with two rows and a
    batch size of one, a query that resolves to [undefined] makes the loop
    go on with the second row. *)
Lemma empty_result_is_not_retried :
  ~ retriesEveryFailure (fun text _ => text) Z Z2f
      {| opt_debug := false; opt_skipBatchCount := undefined; opt_batchSize := 1 |}.
Proof.
  intros Hclaim.
  destruct (Hclaim {| fetched := Resolved undefined; timeTaken := 0 |}
                   (start {| opt_debug := false; opt_skipBatchCount := undefined;
                             opt_batchSize := 1 |} [1; 2]) eq_refl)
    as (st' & Hstep & Hbatch & _).
  vm_compute in Hstep. injection Hstep as <-. discriminate Hbatch.
Qed.

(** ** BatchPlanner: coverage, sizes and the resume offset *)

Section Planner.

Variable Row : Type.
Variable options : Options.

Local Abbreviation size := (opt_batchSize options).

Hypothesis size_positive : 0 < size.

Lemma start_fields (rows : list Row) :
  batch (start options rows) = fst (splice0 size (snd (skipBatches options rows)))
  /\ df (start options rows) = snd (splice0 size (snd (skipBatches options rows)))
  /\ currentBatchCount (start options rows) = fst (skipBatches options rows) + 1
  /\ startingBatch (stats (start options rows)) = fst (skipBatches options rows) + 1
  /\ availableBatches (stats (start options rows)) = totalBatchCount options rows.
Proof.
  unfold start. destruct (skipBatches options rows) as [skipped queue]. cbn [fst snd].
  destruct (splice0 size queue) as [first queue']. repeat split; reflexivity.
Qed.

Lemma start_effects (rows : list Row) : effects (start options rows) = [].
Proof.
  unfold start. destruct (skipBatches options rows) as [skipped queue].
  destruct (splice0 size queue) as [first queue']. reflexivity.
Qed.

Lemma start_planned (rows : list Row) :
  planned Row options (batch (start options rows)) (df (start options rows)).
Proof.
  destruct (start_fields rows) as (-> & -> & _). apply planned_splice. exact size_positive.
Qed.

Lemma skipBatches_length (rows : list Row) :
  (List.length (snd (skipBatches options rows)) <= List.length rows)%nat.
Proof.
  unfold skipBatches. destruct (opt_skipBatchCount options); cbn [snd splice0]; try lia.
  rewrite length_skipn. lia.
Qed.

Lemma plannedBatches_concat (rows : list Row) :
  List.concat (plannedBatches options rows) = snd (skipBatches options rows).
Proof.
  unfold plannedBatches.
  rewrite (batchesFrom_concat Row options size_positive); [|apply start_planned|].
  - destruct (start_fields rows) as (-> & -> & _). apply splice0_app.
  - destruct (start_fields rows) as (_ & -> & _).
    pose proof (skipBatches_length rows). unfold splice0. cbn [snd].
    rewrite length_skipn. lia.
Qed.

Lemma plannedBatches_fuel (rows : list Row) :
  (List.length (df (start options rows)) < S (List.length rows))%nat.
Proof.
  destruct (start_fields rows) as (_ & -> & _).
  pose proof (skipBatches_length rows). unfold splice0. cbn [snd].
  rewrite length_skipn. lia.
Qed.

Variable decode : string -> string -> string.
Variable rowId : Row -> float.

Hypothesis not_debug : opt_debug options = false.

(** A run whose queries all deliver fetches the planned batches one after
    the other, and leaves the total batch count alone. *)
Lemma run_fetches_planned (env : list Attempt) :
  forall (st : LoopState Row) (fuel : nat),
    Forall (delivers decode) env ->
    planned Row options (batch st) (df st) ->
    (List.length (df st) < fuel)%nat ->
    exists st',
      (run decode rowId options env st = Continue st'
       \/ run decode rowId options env st = Done st')
      /\ queried (effects st')
         = queried (effects st)
           ++ map (map rowId)
                  (firstn (List.length env) (batchesFrom options fuel (batch st) (df st)))
      /\ availableBatches (stats st') = availableBatches (stats st).
Proof.
  induction env as [|a env IH]; intros st fuel Henv Hp Hfuel.
  - exists st. cbn [run firstn List.length map]. rewrite app_nil_r.
    split; [destruct (batch st); auto|]. split; reflexivity.
  - apply Forall_cons_iff in Henv as [Ha Henv].
    destruct fuel as [|fuel]; [lia|].
    destruct (batch st) as [|r pending] eqn:Hb.
    + exists st. cbn [run]. rewrite Hb. cbn. rewrite app_nil_r. auto.
    + cbn [run]. rewrite Hb.
      destruct (delivers_resolved decode a Ha) as (response & games & Hf & Hg).
      rewrite (iteration_resolved decode Row rowId options a st response games Hf Hg).
      rewrite not_debug.
      set (st1 := afterResolved rowId options a response games st).
      pose proof (planned_splice Row options size_positive (df st)) as Hnext.
      destruct (splice0_length size (df st)) as [Hl1 Hl2]; [lia|].
      assert (Hfuel' : exists fuel',
                (List.length (df st1) < fuel')%nat
                /\ batchesFrom options fuel' (batch st1) (df st1)
                   = batchesFrom options fuel (batch st1) (df st1)).
      { unfold st1, afterResolved. cbn [df batch].
        destruct (df st) as [|q queue] eqn:Hdf.
        - exists 1%nat. unfold splice0. cbn [fst snd]. rewrite skipn_nil, firstn_nil.
          split; [cbn; lia|]. destruct fuel; reflexivity.
        - exists fuel. split; [|reflexivity]. cbn [List.length] in *. lia. }
      destruct Hfuel' as (fuel' & Hlt & Hsame).
      destruct (IH st1 fuel' Henv Hnext Hlt) as (st' & Hrun & Hq & Hav).
      exists st'. split; [exact Hrun|]. split.
      * rewrite Hq, Hsame. unfold st1 at 1. rewrite queried_afterResolved.
        rewrite <- app_assoc. f_equal. rewrite Hb.
        cbn [batchesFrom List.length firstn map app].
        unfold st1, afterResolved. cbn [batch df].
        destruct (splice0 size (df st)) as [next queue']. reflexivity.
      * rewrite Hav. unfold st1, afterResolved, recordBatch. cbn [stats availableBatches].
        destruct (isEmptyResponse response); reflexivity.
Qed.

End Planner.

(** C6.  Without a resume offset and with a positive batch size, the
    batches taken from the queue, concatenated in order, are the input
    rows; each batch is non-empty and at most [batchSize] long and every
    batch but the last is exactly [batchSize] long; there are
    ceil(length / batchSize) of them; the total batch count is computed
    from the full input and is not touched by the loop, which fetches
    exactly these batches in this order; and 95 rows with batch size 40
    give a total batch count of 3 and batches of 40, 40 and 15 rows. *)
Theorem batches_cover_input_in_order
    (Row : Type) (options : Options) (rows : list Row) :
  opt_skipBatchCount options = undefined ->
  0 < opt_batchSize options ->
  List.concat (plannedBatches options rows) = rows
  /\ Forall (fun b => 0 < Z.of_nat (List.length b) <= opt_batchSize options)
            (plannedBatches options rows)
  /\ Forall (fun b => Z.of_nat (List.length b) = opt_batchSize options)
            (removelast (plannedBatches options rows))
  /\ Z.of_nat (List.length (plannedBatches options rows))
     = ceilDiv (Z.of_nat (List.length rows)) (opt_batchSize options)
  /\ availableBatches (stats (start options rows))
     = Math_ceil (Z2f (Z.of_nat (List.length rows)) / Z2f (opt_batchSize options))%float
  /\ (forall decode (rowId : Row -> float) env,
        opt_debug options = false ->
        Forall (delivers decode) env ->
        exists st',
          (run decode rowId options env (start options rows) = Continue st'
           \/ run decode rowId options env (start options rows) = Done st')
          /\ queried (effects st')
             = map (map rowId) (firstn (List.length env) (plannedBatches options rows))
          /\ availableBatches (stats st') = availableBatches (stats (start options rows)))
  /\ (availableBatches (stats (start plain40 rows95)) = 3%float
      /\ map (@List.length Z) (plannedBatches plain40 rows95) = [40; 40; 15]%nat).
Proof.
  intros Hskip Hsize.
  assert (Hq : snd (skipBatches options rows) = rows).
  { unfold skipBatches. rewrite Hskip. reflexivity. }
  pose proof (start_planned Row options Hsize rows) as Hp.
  pose proof (plannedBatches_fuel Row options Hsize rows) as Hfuel.
  split; [rewrite (plannedBatches_concat Row options Hsize); exact Hq|].
  split; [apply (batchesFrom_sizes Row options Hsize); assumption|].
  split; [apply (batchesFrom_sizes Row options Hsize); assumption|].
  split.
  { unfold plannedBatches.
    rewrite (batchesFrom_count Row options Hsize) by assumption.
    destruct (start_fields Row options rows) as (-> & -> & _).
    rewrite splice0_app, Hq. reflexivity. }
  split; [apply (start_fields Row options rows)|].
  split; [|split; vm_compute; reflexivity].
  intros decode rowId env Hdebug Henv.
  destruct (run_fetches_planned Row options Hsize decode rowId Hdebug env
              (start options rows) (S (List.length rows)) Henv Hp Hfuel)
    as (st' & Hrun & Hqueried & Hav).
  exists st'. split; [exact Hrun|]. split; [|exact Hav].
  rewrite Hqueried, (start_effects Row options rows). reflexivity.
Qed.

Lemma batches_cover_input_in_order_witness :
  List.concat (plannedBatches plain40 rows95) = rows95.
Proof.
  apply (batches_cover_input_in_order Z plain40 rows95); [reflexivity|reflexivity].
Defined.

(** C7 (as amended).  A resume offset of [n] batches (with [n] not
    negative, a positive batch size, and [n + 1], the batch size and
    [n * batchSize] below 2^53, where the double arithmetic of lines 311
    and 316 is exact) removes the first [n * batchSize] rows from the
    queue before the first batch is taken, all of them when the queue is
    shorter.  Line 312 sets the batch counter to [n] and line 316
    increments it when the first batch is taken, before anything reads
    it: the first batch fetched is the next [batchSize] rows, it carries
    the index [n + 1], and [n + 1] is the starting batch of the run
    statistics.  With an offset of 1 and batch size 40 on 95 rows the
    first batch starts at row 41 and is written as batch 2. *)
Theorem skip_drops_whole_batches
    (Row : Type) (options : Options) (rows : list Row) (n : Z) :
  opt_skipBatchCount options = present n ->
  0 <= n ->
  n + 1 < 2 ^ 53 ->
  0 < opt_batchSize options < 2 ^ 53 ->
  n * opt_batchSize options < 2 ^ 53 ->
  skipBatches options rows
  = (n, skipn (Z.to_nat (n * opt_batchSize options)) rows)
  /\ (Z2f n * Z2f (opt_batchSize options))%float = Z2f (n * opt_batchSize options)
  /\ (Z2f n + 1)%float = Z2f (n + 1)
  /\ (n * opt_batchSize options <= Z.of_nat (List.length rows) ->
      Z.of_nat (List.length (snd (skipBatches options rows)))
      = Z.of_nat (List.length rows) - n * opt_batchSize options)
  /\ (Z.of_nat (List.length rows) <= n * opt_batchSize options ->
      snd (skipBatches options rows) = [])
  /\ batch (start options rows)
     = firstn (Z.to_nat (opt_batchSize options))
              (skipn (Z.to_nat (n * opt_batchSize options)) rows)
  /\ List.concat (plannedBatches options rows)
     = skipn (Z.to_nat (n * opt_batchSize options)) rows
  /\ currentBatchCount (start options rows) = n + 1
  /\ startingBatch (stats (start options rows)) = n + 1
  /\ (hd 0 (batch (start skip1of40 rows95)) = 41
      /\ nth_error rows95 40 = Some 41
      /\ currentBatchCount (start skip1of40 rows95) = 2
      /\ startingBatch (stats (start skip1of40 rows95)) = 2
      /\ exists st',
           iteration (fun text _ => text) Z2f skip1of40
             {| fetched := Resolved (present []); timeTaken := 0 |}
             (start skip1of40 rows95) = Continue st'
           /\ In (WriteBatch "./output/batch_2.json" []) (effects st')).
Proof.
  intros Hskip Hn Hn53 Hsize Hprod.
  assert (Hsk : skipBatches options rows
                = (n, skipn (Z.to_nat (n * opt_batchSize options)) rows)).
  { unfold skipBatches. rewrite Hskip. reflexivity. }
  destruct (start_fields Row options rows) as (Hb & Hd & Hc & Hs & _).
  rewrite Hsk in *. cbn [fst snd] in *.
  split; [reflexivity|].
  split; [apply Z2f_mul_exact; lia|].
  split; [apply (Z2f_add_exact n 1); lia|].
  split; [intros Hle; rewrite length_skipn; lia|].
  split; [intros Hle; apply skipn_all2; lia|].
  split; [exact Hb|].
  split; [rewrite (plannedBatches_concat Row options (proj1 Hsize)), Hsk; reflexivity|].
  split; [exact Hc|]. split; [exact Hs|].
  split; [reflexivity|]. split; [reflexivity|]. split; [reflexivity|].
  split; [reflexivity|].
  eexists. split; [vm_compute; reflexivity|]. vm_compute. auto.
Qed.

Lemma skip_drops_whole_batches_witness :
  batch (start skip1of40 rows95) = firstn 40 (skipn 40 rows95)
  /\ currentBatchCount (start skip1of40 rows95) = 2
  /\ startingBatch (stats (start skip1of40 rows95)) = 2.
Proof.
  destruct (skip_drops_whole_batches Z skip1of40 rows95 1)
    as (_ & _ & _ & _ & _ & Hb & _ & Hc & Hs & _);
    [reflexivity|lia|reflexivity|split; reflexivity|reflexivity|].
  split; [exact Hb|]. split; [exact Hc|exact Hs].
Defined.

(** The claim as the specification words it fails: with a resume offset
    of 1 the starting batch of the run statistics is 2, not 1. *)
Lemma skip_of_one_starts_at_batch_two : ~ skipSetsStartingBatchAsWorded.
Proof.
  intros Hclaim.
  specialize (Hclaim Z skip1of40 rows95 1 eq_refl ltac:(lia) ltac:(reflexivity)).
  vm_compute in Hclaim. discriminate Hclaim.
Qed.

(** ** StatsTracker: the running average *)



Section AverageInLoop.

Variable decode : string -> string -> string.
Variable Row : Type.
Variable rowId : Row -> float.
Variable options : Options.


End AverageInLoop.





(** ** RecommendationScorer: the age poll *)

Lemma fold_pushAgeVote (totalVotes : float) (votes : list BggPollResultItemDto) :
  forall result,
    fold_left (pushAgeVote totalVotes) votes result
    = result ++ map (ageRecommendation totalVotes) (filter voted votes).
Proof.
  induction votes as [|e votes IH]; intros result.
  - cbn. rewrite app_nil_r. reflexivity.
  - cbn [fold_left filter]. rewrite IH. unfold pushAgeVote, voted, votesOf.
    destruct (nullGuard (item_numvotes e) 0 =? 0)%float eqn:Hz; cbn [negb map].
    + reflexivity.
    + rewrite <- app_assoc. reflexivity.
Qed.

Lemma foldM_pushAgeGroup (totalVotes : float) (groups : list BggPollResultDto) :
  Forall hasItems groups ->
  forall result,
    foldM (pushAgeGroup totalVotes) groups result
    = Return (result ++ map (ageRecommendation totalVotes)
                            (filter voted (flat_map itemsOf groups))).
Proof.
  induction 1 as [|g groups [l Hl] _ IH]; intros result.
  - cbn. rewrite app_nil_r. reflexivity.
  - cbn [foldM flat_map]. unfold pushAgeGroup at 1, itemsOf at 1. rewrite Hl.
    cbn [bind]. rewrite IH, fold_pushAgeVote, filter_app, map_app, app_assoc.
    reflexivity.
Qed.

Lemma findPoll_not_null (polls : nullable (list BggPollDto)) (wanted : string) :
  findPoll polls wanted <> null.
Proof.
  unfold findPoll. destruct polls as [| |ps]; try discriminate.
  destruct (find _ ps); discriminate.
Qed.

Lemma filter_nil_Forall {A} (f : A -> bool) (l : list A) :
  filter f l = [] <-> Forall (fun x => f x = false) l.
Proof.
  induction l as [|x l IH]; cbn.
  - split; constructor.
  - destruct (f x) eqn:Hx; split; intros H.
    + discriminate.
    + inversion H; congruence.
    + constructor; [assumption|apply IH; assumption].
    + apply IH. inversion H; assumption.
Qed.

(** C3 (as amended).  For polls whose age poll has an item list in every
    result group, [calculateRecommendedAgeScore] returns [undefined]
    exactly when no poll is named "suggested_playerage", the poll has no
    result groups, its total (absent read as "0") parses to zero, or every
    vote entry has zero or absent votes; otherwise it returns, in the order
    of the source, one entry [{value, score}] for every vote entry with
    non-zero votes, where the score is [Math.round] of the double
    (numVotes / totalVotes) * 100: the quotient is rounded to a double
    before it is multiplied by 100. *)
Theorem age_score_characterised (polls : nullable (list BggPollDto)) :
  (forall p groups,
      findPoll polls "suggested_playerage" = present p ->
      results p = present groups ->
      Forall hasItems groups) ->
  (calculateRecommendedAgeScore polls = Return undefined <-> ageAbsent polls)
  /\ (~ ageAbsent polls ->
      exists p groups,
        findPoll polls "suggested_playerage" = present p
        /\ results p = present groups
        /\ calculateRecommendedAgeScore polls
           = Return (present (map (ageRecommendation (totalVotesOf p))
                                  (filter voted (flat_map itemsOf groups))))).
Proof.
  intros Hshape. unfold calculateRecommendedAgeScore, ageAbsent.
  pose proof (findPoll_not_null polls "suggested_playerage") as Hnn.
  destruct (findPoll polls "suggested_playerage") as [| |p] eqn:Hfind;
    [split; [tauto|intros H; destruct H; exact I]|congruence|].
  unfold parsePlayerAgePoll. fold (totalVotesOf p).
  destruct (results p) as [| |groups] eqn:Hres;
    [split; [tauto|intros H; destruct H; exact I]..|].
  specialize (Hshape p groups eq_refl Hres).
  destruct groups as [|g groups];
    [split; [split; auto|intros H; destruct H; auto]|].
  destruct (totalVotesOf p =? 0)%float eqn:Htotal;
    [split; [split; auto|intros H; destruct H; auto]|].
  rewrite (foldM_pushAgeGroup _ _ Hshape). cbn [bind app].
  destruct (filter voted (flat_map itemsOf (g :: groups))) as [|e es] eqn:Hvoted.
  - cbn [map nonEmptyOrUndefined].
    apply filter_nil_Forall in Hvoted.
    split; [split; auto|intros H; destruct H; auto].
  - cbn [map nonEmptyOrUndefined]. split.
    + split; [discriminate|]. intros [H|[H|H]]; [discriminate..|].
      apply filter_nil_Forall in H. congruence.
    + intros _. exists p, (g :: groups). rewrite Hvoted. repeat split. exact Hres.
Qed.

Lemma age_score_characterised_witness :
  exists p groups,
    results p = present groups
    /\ calculateRecommendedAgeScore (present [agePollOf 29 200])
       = Return (present (map (ageRecommendation (totalVotesOf p))
                              (filter voted (flat_map itemsOf groups)))).
Proof.
  destruct (age_score_characterised (present [agePollOf 29 200])) as [_ Hsome].
  - intros p groups Hp Hg. injection Hp as <-. injection Hg as <-.
    repeat constructor. eexists. reflexivity.
  - destruct Hsome as (p & groups & _ & Hg & Hcalc).
    + unfold ageAbsent. cbn. intros [H|[H|H]]; [discriminate..|].
      inversion H as [|? ? Hv _]. vm_compute in Hv. discriminate.
    + exists p, groups. split; assumption.
Defined.

(** The score as the specification words it fails: 29 votes out of 200
    are 14.5 percent, which rounds to 15, but the program reports 14,
    because 29 / 200 * 100 is 14.499999999999998 in double arithmetic. *)
Lemma age_score_29_of_200_is_14 : ~ ageScoreAsWorded.
Proof.
  intros Hclaim.
  assert (H := Hclaim 29 200 ltac:(lia) eq_refl).
  apply (f_equal (fun c => match c with
                           | Return (present (r :: _)) => (score r =? 15)%float
                           | _ => true
                           end)) in H.
  vm_compute in H. discriminate.
Qed.

(** ** RecommendationScorer: the player-count poll *)

Lemma foldM_pushPlayerGroup (groups : list BggPollResultDto) :
  Forall noNullItems groups ->
  forall result,
    foldM pushPlayerGroup groups result
    = Return (result ++ flat_map playerGroupRecommendation groups).
Proof.
  induction 1 as [|g groups Hg _ IH]; intros result.
  - cbn. rewrite app_nil_r. reflexivity.
  - cbn [foldM flat_map].
    unfold noNullItems in Hg. unfold pushPlayerGroup at 1, playerGroupRecommendation at 1.
    destruct (numplayers g) as [| |bucket]; cbn [bind app isNullish] in *;
      try (rewrite IH; reflexivity).
    destruct (resultItemList g) as [| |options]; cbn [bind app];
      try (rewrite IH; reflexivity).
    + exfalso. apply Hg; reflexivity.
    + destruct (pr_votes (fold_left tally options _) =? 0)%float; cbn [negb bind app].
      * rewrite IH. reflexivity.
      * rewrite IH, <- app_assoc. reflexivity.
Qed.

(** C2 (as amended).  For polls in which no result group with a bucket
    carries [null] as its option list, [calculateRecommendedPlayerCountScore]
    returns [undefined] when no poll is named "suggested_numplayers" or the
    poll has no result groups or no group is emitted, and otherwise the
    emitted entries in the order of the groups.  A group is emitted when it
    has a bucket and an option list and its accumulated vote count is not
    zero; its entry is [{value: bucket, score}] with score
    [Math.max(0, Math.round(tally / votes * 100))] in double arithmetic:
    the quotient is rounded to a double before it is multiplied by 100.
    Over the options with non-zero votes, "Best" adds its votes to the
    tally, "Recommended" adds half of them, "Not Recommended" subtracts
    half of them, each adds its votes to the vote count, and any other
    option changes neither. *)
Theorem player_count_score_characterised (polls : nullable (list BggPollDto)) :
  (forall p groups,
      findPoll polls "suggested_numplayers" = present p ->
      results p = present groups ->
      Forall noNullItems groups) ->
  calculateRecommendedPlayerCountScore polls
  = Return
      match findPoll polls "suggested_numplayers" with
      | present p =>
          match results p with
          | present groups =>
              nonEmptyOrUndefined (flat_map playerGroupRecommendation groups)
          | _ => undefined
          end
      | _ => undefined
      end
  /\ (forall summary,
        groupScore summary
        = Math_max 0 (Math_round (pr_score summary / pr_votes summary * 100)%float))
  /\ (forall acc e,
        tally acc e
        = if (votesOf e =? 0)%float then acc
          else if looseEq (item_value e) "Best" then
            {| pr_score := (pr_score acc + votesOf e)%float;
               pr_votes := (pr_votes acc + votesOf e)%float |}
          else if looseEq (item_value e) "Recommended" then
            {| pr_score := (pr_score acc + 0.5 * votesOf e)%float;
               pr_votes := (pr_votes acc + votesOf e)%float |}
          else if looseEq (item_value e) "Not Recommended" then
            {| pr_score := (pr_score acc - 0.5 * votesOf e)%float;
               pr_votes := (pr_votes acc + votesOf e)%float |}
          else acc).
Proof.
  intros Hshape. split; [|split; reflexivity].
  unfold calculateRecommendedPlayerCountScore.
  pose proof (findPoll_not_null polls "suggested_numplayers") as Hnn.
  destruct (findPoll polls "suggested_numplayers") as [| |p] eqn:Hfind;
    [reflexivity|congruence|].
  unfold parseNumPlayersPoll.
  destruct (results p) as [| |groups] eqn:Hres; [reflexivity..|].
  specialize (Hshape p groups eq_refl Hres).
  destruct groups as [|g groups]; [reflexivity|].
  rewrite (foldM_pushPlayerGroup _ Hshape). reflexivity.
Qed.

Lemma player_count_score_characterised_witness :
  calculateRecommendedPlayerCountScore (present [playerPollOf 0 129 71])
  = Return (present [ {| value := Str "2"; score := 14 |} ]).
Proof.
  destruct (player_count_score_characterised (present [playerPollOf 0 129 71]))
    as [Hcalc _].
  - intros p groups Hp Hg. injection Hp as <-. injection Hg as <-.
    repeat constructor. discriminate.
  - rewrite Hcalc. vm_compute. reflexivity.
Defined.

(** The score as the specification words it fails: with 129 votes for
    "Recommended" and 71 for "Not Recommended" the tally is 29 of 200
    votes, 14.5 percent, which rounds to 15, but the program reports 14. *)
Lemma player_score_29_of_200_is_14 : ~ playerScoreAsWorded.
Proof.
  intros Hclaim.
  assert (H := Hclaim 0 129 71 ltac:(lia) ltac:(lia) ltac:(lia)
                 (conj eq_refl eq_refl)).
  apply (f_equal (fun c => match c with
                           | Return (present (r :: _)) => (score r =? 15)%float
                           | _ => true
                           end)) in H.
  vm_compute in H. discriminate.
Qed.

(** ** RecordNormalizer *)

(** C8.  [parseGame] throws on an item whose age poll has a result group
    without an item list: [parsePlayerAgePoll] calls
    [item.resultItemList.forEach] without the guard that
    [parseNumPlayersPoll] applies to the same field, which skips such a
    group. *)
Theorem parseGame_throws_on_bare_age_group (decode : string -> string -> string) :
  parseGame decode thingWithBareAgeGroup = Throw TypeError
  /\ pushPlayerGroup [] {| numplayers := present (Str "2"); resultItemList := undefined |}
     = Return [].
Proof. split; reflexivity. Qed.
(** ** Scores of polls with integer vote counts *)

(** Half of an integer below 2^53. *)
Lemma Fmul_half (n : Z) :
  0 <= n < 2 ^ 53 ->
  finiteF (0.5 * Z2f n) /\ F2R (0.5 * Z2f n) = (IZR n / 2)%R.
Proof.
  intros Hn. destruct (Z2f_exact n ltac:(lia)) as [Hfin Hval].
  assert (Hhalf : Fmag 0.5 = (/ 2)%R).
  { unfold Fmag. change (Prim2SF 0.5) with (S754_finite false 4503599627370496 (-53)).
    cbn [SFmag]. change 4503599627370496 with (2 ^ 52). rewrite <- pow2_IZR by lia.
    rewrite <- pow2_add. change (52 + -53) with (-1). apply pow2_m1. }
  assert (Hmag : Fmag (Z2f n) = IZR n).
  { rewrite Fmag_Z2f by lia. rewrite Z.abs_eq by lia. reflexivity. }
  assert (Hn' : (0 <= IZR n < 9007199254740992)%R).
  { split; [apply IZR_le; lia|apply IZR_lt; change 9007199254740992 with (2 ^ 53); lia]. }
  destruct (Fmul_between 0.5 (Z2f n) (-1) n n 0 53) as (Hpf & Hsign & Hp).
  - exact I.
  - exact Hfin.
  - lia.
  - rewrite Hhalf, pow2_0. lra.
  - rewrite Hmag, (pow2_IZR 53) by lia. change (2 ^ 53) with 9007199254740992. lra.
  - lia.
  - rewrite Hhalf, Hmag. change (-1 + 53) with 52. rewrite (pow2_IZR 52) by lia.
    change (2 ^ 52) with 4503599627370496. lra.
  - rewrite Hhalf, Hmag, pow2_m1. lra.
  - split; [exact Hpf|]. rewrite F2R_of_sign.
    + rewrite pow2_m1 in Hp. lra.
    + rewrite Hsign, (Z2f_sign n Hn). reflexivity.
Qed.

Lemma votes_zero_test (e : BggPollResultItemDto) (n : Z) :
  hasCount e n -> n < 2 ^ 53 -> (votesOf e =? 0)%float = (n =? 0).
Proof.
  intros [Hn ->] Hlt. destruct (Z2f_exact n ltac:(lia)) as [Hfin Hval].
  pose proof (Feqb_zero (Z2f n) Hfin) as Hz. rewrite Hval in Hz.
  destruct (Z.eqb_spec n 0) as [->|Hne].
  - apply Hz. reflexivity.
  - apply not_true_is_false. intros H. apply Hz in H. apply eq_IZR in H. congruence.
Qed.

Lemma tally_step (acc : PollResult) (e : BggPollResultItemDto) (n V S2 : Z) :
  tallied acc V S2 -> hasCount e n -> V + n < 2 ^ 52 ->
  tallied (tally acc e)
          (V + (if weight2 e =? 0 then 0 else n)) (S2 + weight2 e * n).
Proof.
  intros (Hsf & Hvf & Hv & Hs & HV & HS) Hc Hlt.
  pose proof (votes_zero_test e n Hc ltac:(lia)) as Hz.
  destruct Hc as [Hn Hvotes].
  unfold tally. fold (votesOf e). rewrite Hz.
  destruct (Z.eqb_spec n 0) as [->|Hne].
  { rewrite Z.mul_0_r, Z.add_0_r. destruct (weight2 e =? 0); rewrite Z.add_0_r;
      repeat split; assumption || lia. }
  rewrite Hvotes.
  destruct (Z2f_exact n ltac:(lia)) as [Hnf Hnv].
  destruct (Fmul_half n ltac:(lia)) as [Hhf Hhv].
  assert (Hvotes' : finiteF (pr_votes acc + Z2f n)
                    /\ F2R (pr_votes acc + Z2f n) = IZR (V + n)).
  { destruct (Fadd_exact (pr_votes acc) (Z2f n) 0 (V + n)) as [Hf Hx];
      [assumption|assumption|lia|lia|rewrite Hv, Hnv, pow2_0, plus_IZR; lra|].
    split; [exact Hf|]. rewrite Hx, Hv, Hnv, plus_IZR. reflexivity. }
  destruct Hvotes' as [Hvf' Hv'].
  unfold weight2.
  destruct (looseEq (item_value e) "Best");
    [|destruct (looseEq (item_value e) "Recommended");
      [|destruct (looseEq (item_value e) "Not Recommended")]];
    cbn [Z.eqb pr_score pr_votes]; unfold tallied; cbn [pr_score pr_votes].
  - destruct (Fadd_exact (pr_score acc) (Z2f n) (-1) (S2 + 2 * n)) as [Hf Hx];
      [assumption|assumption|lia|lia|
       rewrite Hs, Hnv, pow2_m1, plus_IZR, mult_IZR; lra|].
    repeat split; try assumption; try lia.
    rewrite Hx, Hs, Hnv, plus_IZR, mult_IZR. lra.
  - destruct (Fadd_exact (pr_score acc) (0.5 * Z2f n) (-1) (S2 + 1 * n)) as [Hf Hx];
      [assumption|assumption|lia|lia|
       rewrite Hs, Hhv, pow2_m1, plus_IZR, mult_IZR; lra|].
    repeat split; try assumption; try lia.
    rewrite Hx, Hs, Hhv, plus_IZR, mult_IZR. lra.
  - destruct (Fsub_exact (pr_score acc) (0.5 * Z2f n) (-1) (S2 + -1 * n)) as [Hf Hx];
      [assumption|assumption|lia|lia|
       rewrite Hs, Hhv, pow2_m1, plus_IZR, mult_IZR; lra|].
    repeat split; try assumption; try lia.
    rewrite Hx, Hs, Hhv, plus_IZR, mult_IZR. lra.
  - rewrite Z.mul_0_l, !Z.add_0_r. repeat split; assumption.
Qed.

Lemma sumZ_nonneg (options : list BggPollResultItemDto) (counts : list Z) :
  Forall2 hasCount options counts -> 0 <= sumZ counts.
Proof.
  induction 1 as [|e n options counts [Hn _] _ IH]; cbn [sumZ fold_right]; [lia|].
  fold (sumZ counts). lia.
Qed.

Lemma tally_fold (options : list BggPollResultItemDto) :
  forall (counts : list Z) (acc : PollResult) (V S2 : Z),
    Forall2 hasCount options counts ->
    tallied acc V S2 ->
    V + sumZ counts < 2 ^ 52 ->
    tallied (fold_left tally options acc)
            (V + namedVotes options counts) (S2 + tallyTwice options counts).
Proof.
  induction options as [|e options IH]; intros counts acc V S2 Hc Hacc Hlt.
  - inversion Hc; subst. cbn. rewrite !Z.add_0_r. exact Hacc.
  - inversion Hc as [|? n ? counts' He Hrest]; subst.
    cbn [sumZ fold_right] in Hlt. fold (sumZ counts') in Hlt.
    pose proof (sumZ_nonneg _ _ Hrest) as Hpos. pose proof (proj1 He) as Hn.
    cbn [fold_left]. unfold namedVotes, tallyTwice.
    cbn [combine map sumZ fold_right].
    fold (sumZ (map (fun '(e0, n0) => if weight2 e0 =? 0 then 0 else n0)
                    (combine options counts'))).
    fold (sumZ (map (fun '(e0, n0) => weight2 e0 * n0) (combine options counts'))).
    fold (namedVotes options counts'). fold (tallyTwice options counts').
    rewrite !Z.add_assoc. apply IH; [exact Hrest| |].
    + apply tally_step; [exact Hacc|exact He|lia].
    + destruct (weight2 e =? 0); lia.
Qed.

Lemma tallied_start : tallied {| pr_score := 0; pr_votes := 0 |} 0 0.
Proof.
  unfold tallied. cbn [pr_score pr_votes].
  repeat split; try exact I; try lia; unfold F2R; cbn; lra.
Qed.

Lemma tallied_summary (options : list BggPollResultItemDto) (counts : list Z) :
  Forall2 hasCount options counts ->
  sumZ counts < 2 ^ 52 ->
  tallied (groupSummary options) (namedVotes options counts) (tallyTwice options counts).
Proof.
  intros Hc Hlt.
  apply (tally_fold options counts _ 0 0 Hc tallied_start). lia.
Qed.

(** X1.  The tally of a player-count group is exact.  When the options of
    a group carry non-negative integer vote counts that add up to less
    than 2^52, the accumulated vote count is the sum of the counts of the
    options named "Best", "Recommended" and "Not Recommended", the
    accumulated score is best + recommended / 2 - notRecommended / 2 with
    no rounding error, and the test [summary.votes !== 0] of line 211 fails
    exactly when those three options have no votes at all. *)
Theorem tally_is_exact (options : list BggPollResultItemDto) (counts : list Z) :
  Forall2 hasCount options counts ->
  sumZ counts < 2 ^ 52 ->
  finiteF (pr_votes (groupSummary options))
  /\ finiteF (pr_score (groupSummary options))
  /\ F2R (pr_votes (groupSummary options)) = IZR (namedVotes options counts)
  /\ F2R (pr_score (groupSummary options))
     = (IZR (tallyTwice options counts) / 2)%R
  /\ ((pr_votes (groupSummary options) =? 0)%float = true
      <-> namedVotes options counts = 0).
Proof.
  intros Hc Hlt.
  destruct (tallied_summary options counts Hc Hlt) as (Hs & Hv & Hvv & Hsv & _ & _).
  repeat split; try assumption.
  - intros Hz. apply Feqb_zero in Hz; [|exact Hv]. rewrite Hvv in Hz.
    apply eq_IZR in Hz. exact Hz.
  - intros Hz. apply Feqb_zero; [exact Hv|]. rewrite Hvv, Hz. reflexivity.
Qed.

Lemma tally_is_exact_witness :
  F2R (pr_votes (groupSummary mixedOptions)) = IZR 3
  /\ F2R (pr_score (groupSummary mixedOptions)) = (IZR 4 / 2)%R.
Proof.
  destruct (tally_is_exact mixedOptions [1; 2; 4; 0]) as (_ & _ & Hv & Hs & _).
  - repeat constructor; reflexivity || lia.
  - reflexivity.
  - split; [exact Hv|exact Hs].
Defined.

Lemma group_percentage (g : BggPollResultDto) :
  countsWithin g ->
  Forall (fun r => percentage (score r)) (playerGroupRecommendation g).
Proof.
  intros Hg. unfold playerGroupRecommendation.
  destruct (numplayers g) as [| |bucket]; try constructor.
  destruct (resultItemList g) as [| |options] eqn:Hopts; try constructor.
  destruct (Hg options Hopts) as (counts & Hc & Hlt).
  fold (groupSummary options).
  destruct (tallied_summary options counts Hc Hlt) as (Hs & Hv & Hvv & Hsv & HV & HS).
  destruct (pr_votes (groupSummary options) =? 0)%float eqn:Hz; constructor; [|constructor].
  cbn [score]. apply groupScore_percent; try assumption.
  - intros H0. apply Feqb_zero in H0; [congruence|exact Hv].
  - rewrite <- !F2R_abs, Hvv, Hsv.
    rewrite <- abs_IZR. unfold Rdiv. rewrite Rabs_mult, <- abs_IZR.
    rewrite (Rabs_pos_eq (/ 2)) by lra.
    apply IZR_le in HS. rewrite mult_IZR in HS.
    rewrite (Z.abs_eq (namedVotes options counts)) by exact HV. lra.
Qed.

Lemma parseNumPlayersPoll_guarded (p : BggPollDto) :
  (forall groups, results p = present groups -> Forall noNullItems groups) ->
  parseNumPlayersPoll p
  = Return match results p with
           | present groups =>
               nonEmptyOrUndefined (flat_map playerGroupRecommendation groups)
           | _ => undefined
           end.
Proof.
  intros Hshape. unfold parseNumPlayersPoll.
  destruct (results p) as [| |groups]; [reflexivity..|].
  specialize (Hshape groups eq_refl).
  destruct groups as [|g groups]; [reflexivity|].
  rewrite (foldM_pushPlayerGroup _ Hshape). reflexivity.
Qed.

Lemma groups_percentage (groups : list BggPollResultDto) :
  Forall countsWithin groups ->
  Forall (fun r => percentage (score r)) (flat_map playerGroupRecommendation groups).
Proof.
  induction 1 as [|g groups Hg _ IH]; cbn [flat_map].
  - constructor.
  - apply Forall_app. split; [apply group_percentage; exact Hg|exact IH].
Qed.

(** X2.  Player-count scores are percentages.  When no result group with
    a bucket carries [null] as its option list and the options of every
    group carry non-negative integer vote counts that add up to less than
    2^52, [parseNumPlayersPoll] returns, and every score it reports is a
    whole number from 0 to 100. *)
Theorem player_scores_are_percentages (p : BggPollDto) :
  (forall groups,
      results p = present groups ->
      Forall noNullItems groups /\ Forall countsWithin groups) ->
  exists result,
    parseNumPlayersPoll p = Return result
    /\ forall l, result = present l -> Forall (fun r => percentage (score r)) l.
Proof.
  intros Hshape.
  rewrite parseNumPlayersPoll_guarded by (intros groups Hg; apply (Hshape groups Hg)).
  eexists. split; [reflexivity|]. intros l Hl.
  destruct (results p) as [| |groups]; try discriminate.
  destruct (Hshape groups eq_refl) as [_ Hcounts].
  pose proof (groups_percentage groups Hcounts) as Hall.
  destruct (flat_map playerGroupRecommendation groups); cbn in Hl; [discriminate|].
  injection Hl as <-. exact Hall.
Qed.

Lemma player_scores_are_percentages_witness :
  exists result,
    parseNumPlayersPoll (playerPollOf 0 129 71) = Return result
    /\ forall l, result = present l -> Forall (fun r => percentage (score r)) l.
Proof.
  apply (player_scores_are_percentages (playerPollOf 0 129 71)).
  intros groups Hg. injection Hg as <-. split.
  - repeat constructor. discriminate.
  - repeat constructor. intros options Ho. injection Ho as <-.
    exists [0; 129; 71]. split; [repeat constructor; reflexivity || lia|reflexivity].
Defined.

Lemma pushPlayerGroup_percentage (groups : list BggPollResultDto) :
  Forall countsWithin groups ->
  forall result l,
    Forall (fun r => percentage (score r)) result ->
    foldM pushPlayerGroup groups result = Return l ->
    Forall (fun r => percentage (score r)) l.
Proof.
  induction 1 as [|g groups Hg _ IH]; intros result l Hresult Hfold.
  - cbn in Hfold. apply (f_equal (fun c => match c with
                                           | Return x => x
                                           | Throw _ => result
                                           end)) in Hfold.
    cbn in Hfold. rewrite <- Hfold. exact Hresult.
  - cbn [foldM] in Hfold.
    destruct (pushPlayerGroup result g) as [next|e] eqn:Hpush; [|discriminate].
    cbn [bind] in Hfold. apply (IH next l); [|exact Hfold].
    pose proof (group_percentage g Hg) as Hgroup.
    unfold pushPlayerGroup in Hpush. unfold playerGroupRecommendation in Hgroup.
    fold (groupSummary) in *.
    assert (Hsame : forall x : list Recommendation, Return x = Return next -> x = next).
    { intros x Hx. apply (f_equal (fun c => match c with
                                            | Return y => y
                                            | Throw _ => x
                                            end)) in Hx. exact Hx. }
    destruct (numplayers g) as [| |bucket];
      try (rewrite <- (Hsame _ Hpush); exact Hresult).
    destruct (resultItemList g) as [| |options];
      try (rewrite <- (Hsame _ Hpush); exact Hresult); [discriminate|].
    cbn zeta in Hpush, Hgroup.
    destruct (pr_votes (fold_left tally options {| pr_score := 0; pr_votes := 0 |}) =? 0)%float;
      cbn [negb] in Hpush; rewrite <- (Hsame _ Hpush); [exact Hresult|].
    apply Forall_app. split; [exact Hresult|exact Hgroup].
Qed.

(** C5.  Every score the player-count scorer reports is a whole number
    from 0 to 100, for polls whose options carry non-negative integer
    vote counts adding up to less than 2^52 in every result group: it is
    never negative, even when "Not Recommended" dominates (1 vote for
    "Recommended" against 30 for "Not Recommended" scores 0), and never
    above 100.  Where, in addition, no result group with a bucket carries
    [null] as its option list, the scorer does return. *)
Theorem player_count_scores_lie_in_0_100 (polls : nullable (list BggPollDto)) :
  (forall p groups,
      findPoll polls "suggested_numplayers" = present p ->
      results p = present groups ->
      Forall countsWithin groups) ->
  (forall l,
      calculateRecommendedPlayerCountScore polls = Return (present l) ->
      Forall (fun r => percentage (score r)) l)
  /\ ((forall p groups,
         findPoll polls "suggested_numplayers" = present p ->
         results p = present groups ->
         Forall noNullItems groups) ->
      exists result, calculateRecommendedPlayerCountScore polls = Return result)
  /\ calculateRecommendedPlayerCountScore (present [playerPollOf 0 1 30])
     = Return (present [ {| value := Str "2"; score := Z2f 0 |} ]).
Proof.
  intros Hcounts. split; [|split; [|reflexivity]].
  - intros l Hcalc. unfold calculateRecommendedPlayerCountScore in Hcalc.
    destruct (findPoll polls "suggested_numplayers") as [| |p] eqn:Hfind;
      try discriminate.
    unfold parseNumPlayersPoll in Hcalc.
    destruct (results p) as [| |groups] eqn:Hres; try discriminate.
    specialize (Hcounts p groups eq_refl Hres).
    destruct groups as [|g groups]; [discriminate|].
    destruct (foldM pushPlayerGroup (g :: groups) []) as [result|e] eqn:Hfold;
      [|discriminate].
    pose proof (pushPlayerGroup_percentage _ Hcounts [] result (Forall_nil _) Hfold)
      as Hall.
    cbn [bind] in Hcalc. destruct result as [|r result]; [discriminate|].
    apply (f_equal (fun c => match c with
                             | Return (present x) => x
                             | _ => l
                             end)) in Hcalc.
    cbn in Hcalc. rewrite <- Hcalc. exact Hall.
  - intros Hshape. unfold calculateRecommendedPlayerCountScore.
    destruct (findPoll polls "suggested_numplayers") as [| |p] eqn:Hfind;
      [eexists; reflexivity..|].
    rewrite parseNumPlayersPoll_guarded by (intros groups Hg; apply (Hshape p groups eq_refl Hg)).
    eexists. reflexivity.
Qed.

Lemma player_count_scores_lie_in_0_100_witness :
  Forall (fun r => percentage (score r)) [ {| value := Str "2"; score := 14 |} ].
Proof.
  destruct (player_count_scores_lie_in_0_100 (present [playerPollOf 0 129 71]))
    as (Hall & _ & _).
  - intros p groups Hp Hg. injection Hp as <-. injection Hg as <-.
    repeat constructor. intros options Ho. injection Ho as <-.
    exists [0; 129; 71]. split; [repeat constructor; reflexivity || lia|reflexivity].
  - apply Hall. reflexivity.
Defined.

(** ** The age poll *)

Lemma digitsPrefix_acc (d : Decimal.uint) :
  forall a : positive,
    digitsPrefix 10 (NilEmpty.string_of_uint d) (Some (Zpos a))
    = Some (Zpos (Pos.of_uint_acc d a)).
Proof.
  induction d; intros a; cbn [NilEmpty.string_of_uint Pos.of_uint_acc];
    [reflexivity|..];
    (cbn [digitsPrefix]; 
     match goal with |- context [digitValue ?c] =>
       let v := eval vm_compute in (digitValue c) in change (digitValue c) with v end;
     cbn match; 
     match goal with |- context [?k <? 10] =>
       change (k <? 10) with true end;
     cbn match; rewrite <- IHd; do 2 f_equal; lia).
Qed.

Lemma digitsPrefix_zero (d : Decimal.uint) :
  digitsPrefix 10 (NilEmpty.string_of_uint d) (Some 0) = Some (Z.of_uint d).
Proof.
  unfold Z.of_uint.
  induction d; cbn [NilEmpty.string_of_uint Pos.of_uint];
    [reflexivity|..];
    cbn [digitsPrefix];
    match goal with |- context [digitValue ?c] =>
       let v := eval vm_compute in (digitValue c) in change (digitValue c) with v end;
    cbn match;
    match goal with |- context [?k <? 10] => change (k <? 10) with true end;
    cbn match; cbn [Z.mul Z.add]; try exact IHd; apply digitsPrefix_acc.
Qed.

Lemma digitsPrefix_numeral (d : Decimal.uint) :
  d <> Decimal.Nil ->
  digitsPrefix 10 (NilEmpty.string_of_uint d) None = Some (Z.of_uint d).
Proof.
  intros Hd. rewrite <- digitsPrefix_zero.
  destruct d; [congruence|reflexivity..].
Qed.

Lemma parseInt_digits (d : Decimal.uint) :
  d <> Decimal.Nil ->
  parseInt (NilEmpty.string_of_uint d)
  = match digitsPrefix 10 (NilEmpty.string_of_uint d) None with
    | Some n => Z2f n
    | None => nan
    end
  /\ parseInt (String "-" (NilEmpty.string_of_uint d))
     = match digitsPrefix 10 (NilEmpty.string_of_uint d) None with
       | Some n => (- Z2f n)%float
       | None => nan
       end.
Proof.
  intros Hd. destruct d as [|d|d|d|d|d|d|d|d|d|d]; [congruence|..];
    destruct d; split; reflexivity.
Qed.

Lemma Z2f_neg (p : positive) : Z2f (Z.neg p) = (- Z2f (Z.pos p))%float.
Proof. unfold Z2f. cbn [Z.ltb Z.compare Z.opp]. reflexivity. Qed.

(** [Number.parseInt] reads back the decimal numeral of an integer. *)
Lemma parseInt_numeral (z : Z) : parseInt (numToString z) = Z2f z.
Proof.
  unfold numToString. destruct z as [|p|p]; [reflexivity| |];
    cbn [Z.to_int NilZero.string_of_int];
    pose proof (DecimalPos.Unsigned.to_uint_nonnil p) as Hnil;
    replace (NilZero.string_of_uint (Pos.to_uint p))
      with (NilEmpty.string_of_uint (Pos.to_uint p))
      by (destruct (Pos.to_uint p); [congruence|reflexivity..]);
    destruct (parseInt_digits _ Hnil) as [Hpos Hneg];
    rewrite ?Hpos, ?Hneg, (digitsPrefix_numeral _ Hnil);
    unfold Z.of_uint; rewrite DecimalPos.Unsigned.of_to; cbn [Z.of_N];
    rewrite ?Z2f_neg; reflexivity.
Qed.

Lemma Math_round_percent_pos (x : float) :
  finiteF x -> SFsign (Prim2SF x) = false -> (Fmag x <= 100)%R ->
  percentage (Math_round x).
Proof.
  unfold finiteF, Fmag, Math_round, percentage. intros Hfin Hsign Hmag.
  pose proof (Prim2SF_valid x) as Hvalid.
  destruct (Prim2SF x) as [s|s| |s m e] eqn:Hx; try contradiction;
    cbn [SFsign] in Hsign; subst s.
  - exists 0. split; [lia|]. rewrite <- (SF2Prim_Prim2SF x), Hx. reflexivity.
  - assert (He : e <= -46).
    { pose proof (valid_exponent false m e 7 Hvalid) as H. cbn [SFmag] in *.
      rewrite (pow2_IZR 7) in H by lia. change (2 ^ 7) with 128 in H.
      assert (IZR (Zpos m) * pow2 e < 128)%R by lra. specialize (H H0). lia. }
    replace (0 <=? e) with false by (symmetry; apply Z.leb_gt; lia).
    cbn [SFmag] in Hmag.
    set (D := 2 ^ (- e)).
    assert (HD : 0 < D) by (apply Z.pow_pos_nonneg; lia).
    assert (Hm : Zpos m <= 100 * D).
    { apply le_IZR. rewrite mult_IZR. unfold D. rewrite <- pow2_IZR by lia.
      pose proof (pow2_pos e) as Hp. pose proof (pow2_pos (- e)) as Hn.
      assert (Hone : (pow2 e * pow2 (- e) = 1)%R).
      { rewrite <- pow2_add. replace (e + - e) with 0 by lia. apply pow2_0. }
      nra. }
    rewrite Z.shiftr_div_pow2 by lia.
    replace (2 ^ (1 - e)) with (2 * D)
      by (unfold D; replace (1 - e) with (Z.succ (- e)) by lia;
          rewrite Z.pow_succ_r by lia; reflexivity).
    cbn [cond_Zopp].
    set (n := (2 * Zpos m + D) / (2 * D)).
    assert (Hn : 0 <= n <= 100).
    { unfold n. split.
      - apply Z.div_le_lower_bound; lia.
      - apply Z.lt_succ_r. apply Z.div_lt_upper_bound; lia. }
    destruct (n =? 0) eqn:Hz.
    + exists 0. split; [lia|]. reflexivity.
    + exists n. split; [exact Hn|]. reflexivity.
Qed.

(** The share of [n] votes among [total], as line 149 computes it. *)
Lemma ageScore_percent (n total : Z) :
  0 <= n <= total -> 0 < total < 2 ^ 53 ->
  percentage (Math_round (Z2f n / Z2f total * 100)).
Proof.
  intros Hn Ht.
  destruct (Z2f_exact n ltac:(lia)) as [Hnf Hnv].
  destruct (Z2f_exact total ltac:(lia)) as [Htf Htv].
  assert (Hnm : Fmag (Z2f n) = IZR n) by (rewrite Fmag_Z2f, Z.abs_eq by lia; reflexivity).
  assert (Htm : Fmag (Z2f total) = IZR total)
    by (rewrite Fmag_Z2f, Z.abs_eq by lia; reflexivity).
  assert (Hn0 : (0 <= IZR n)%R) by (apply IZR_le; lia).
  assert (Ht0 : (0 < IZR total)%R) by (apply IZR_lt; lia).
  assert (Hnt : (IZR n <= IZR total)%R) by (apply IZR_le; lia).
  assert (Hratio : (0 <= IZR n / IZR total <= 1)%R).
  { split.
    - apply Rmult_le_pos; [lra|]. apply Rlt_le, Rinv_0_lt_compat. lra.
    - apply Rmult_le_reg_r with (r := IZR total); [lra|].
      unfold Rdiv. rewrite Rmult_assoc, Rinv_l by lra. lra. }
  destruct (Fdiv_between (Z2f n) (Z2f total) 0 0 1) as (Hqf & Hqs & Hq);
    [assumption|assumption|rewrite Htv; lra|lia| | |].
  { rewrite Hnm, Htm, (pow2_IZR (0 + 53)) by lia.
    change (2 ^ (0 + 53)) with 9007199254740992. lra. }
  { rewrite Hnm, Htm, pow2_0. lra. }
  rewrite pow2_0 in Hq.
  rewrite (Z2f_sign n ltac:(lia)), (Z2f_sign total ltac:(lia)) in Hqs. cbn [xorb] in Hqs.
  set (q := (Z2f n / Z2f total)%float) in *.
  assert (H100 : Fmag 100 = 100%R) by (apply (Fmag_Z2f 100); reflexivity).
  destruct (Fmul_between q 100 0 0 100 1 7) as (Hpf & Hps & Hp).
  - exact Hqf.
  - apply (proj1 (Z2f_exact 100 ltac:(reflexivity))).
  - lia.
  - rewrite pow2_1. lra.
  - rewrite H100, (pow2_IZR 7) by lia. change (2 ^ 7) with 128. lra.
  - lia.
  - rewrite H100, (pow2_IZR (0 + 53)) by lia.
    change (2 ^ (0 + 53)) with 9007199254740992. lra.
  - rewrite H100, pow2_0. lra.
  - rewrite pow2_0 in Hp. rewrite Hqs in Hps.
    apply Math_round_percent_pos; [exact Hpf|exact Hps|lra].
Qed.

(** X3.  Age scores are percentages.  When every result group of an age
    poll has an item list, [totalvotes] is the decimal numeral of a whole
    number T with 0 < T < 2^53 and every vote entry carries an integer
    count from 0 to T, [parsePlayerAgePoll] returns, and every score it
    reports is a whole number from 0 to 100. *)
Theorem age_scores_are_percentages (p : BggPollDto) (total : Z) :
  0 < total < 2 ^ 53 ->
  totalvotes p = present (numToString total) ->
  (forall groups,
      results p = present groups ->
      Forall hasItems groups /\ Forall (countsUpTo total) groups) ->
  exists result,
    parsePlayerAgePoll p = Return result
    /\ forall l, result = present l -> Forall (fun r => percentage (score r)) l.
Proof.
  intros Ht Hnumeral Hshape.
  assert (Htotal : totalVotesOf p = Z2f total).
  { unfold totalVotesOf. rewrite Hnumeral. apply parseInt_numeral. }
  unfold parsePlayerAgePoll. fold (totalVotesOf p).
  destruct (results p) as [| |groups]; [eexists; split; [reflexivity|discriminate]..|].
  destruct (Hshape groups eq_refl) as [Hitems Hcounts].
  destruct groups as [|g groups]; [eexists; split; [reflexivity|discriminate]|].
  destruct (totalVotesOf p =? 0)%float; [eexists; split; [reflexivity|discriminate]|].
  rewrite (foldM_pushAgeGroup _ _ Hitems). cbn [bind app].
  eexists. split; [reflexivity|]. intros l Hl.
  assert (Hall : Forall (fun r => percentage (score r))
                   (map (ageRecommendation (totalVotesOf p))
                        (filter voted (flat_map itemsOf (g :: groups))))).
  { apply Forall_map, Forall_forall. intros e He.
    apply filter_In in He. destruct He as [He _].
    apply in_flat_map in He. destruct He as (g' & Hg' & He).
    rewrite Forall_forall in Hcounts. specialize (Hcounts g' Hg').
    unfold countsUpTo in Hcounts. rewrite Forall_forall in Hcounts.
    destruct (Hcounts e He) as (n & Hn & Hv).
    unfold ageRecommendation. cbn [score]. rewrite Hv, Htotal.
    apply ageScore_percent; lia. }
  destruct (map _ _); cbn in Hl; [discriminate|]. injection Hl as <-. exact Hall.
Qed.

Lemma age_scores_are_percentages_witness :
  exists result,
    parsePlayerAgePoll (agePollOf 29 200) = Return result
    /\ forall l, result = present l -> Forall (fun r => percentage (score r)) l.
Proof.
  apply (age_scores_are_percentages (agePollOf 29 200) 200).
  - lia.
  - reflexivity.
  - intros groups Hg. injection Hg as <-. split.
    + repeat constructor. eexists. reflexivity.
    + repeat constructor. exists 29. split; [lia|reflexivity].
Defined.

Lemma div_nan (x : float) : (x / nan)%float = nan.
Proof.
  rewrite <- (SF2Prim_Prim2SF (x / nan)), FloatAxioms.div_spec.
  change (Prim2SF nan) with S754_nan. destruct (Prim2SF x); reflexivity.
Qed.

Lemma Math_round_nan_share (x : float) : Math_round (x / nan * 100) = nan.
Proof. rewrite div_nan. reflexivity. Qed.

Lemma getTopRecommendation_unscored (e : BggPollResultItemDto)
    (es : list BggPollResultItemDto) :
  getTopRecommendation (present (map unscored (e :: es))) = present (unscored e).
Proof.
  cbn [map getTopRecommendation forallb unscored score andb].
  change (nan =? 0)%float with false. cbn [andb]. f_equal.
  induction es as [|e' es IH]; [reflexivity|].
  cbn [map fold_left]. exact IH.
Qed.

(** X4.  A total that is not a number.  When [Number.parseInt] finds no
    digits in [totalvotes], the test [totalVotes === 0] of line 136 does
    not catch it: every vote entry with votes is reported with the score
    NaN, and [getTopRecommendation] then picks the first of them,
    whatever the vote counts are. *)
Theorem age_poll_without_total_scores_nan
    (p : BggPollDto) (groups : list BggPollResultDto) :
  totalVotesOf p = nan ->
  results p = present groups ->
  Forall hasItems groups ->
  parsePlayerAgePoll p
  = Return (nonEmptyOrUndefined
              (map unscored (filter voted (flat_map itemsOf groups))))
  /\ getTopRecommendation
       (nonEmptyOrUndefined (map unscored (filter voted (flat_map itemsOf groups))))
     = match filter voted (flat_map itemsOf groups) with
       | [] => undefined
       | e :: _ => present (unscored e)
       end.
Proof.
  intros Htotal Hres Hitems. split.
  - unfold parsePlayerAgePoll. fold (totalVotesOf p). rewrite Hres, Htotal.
    destruct groups as [|g groups]; [reflexivity|].
    change (nan =? 0)%float with false. cbn match.
    rewrite (foldM_pushAgeGroup _ _ Hitems). cbn [bind app]. do 2 f_equal.
    apply map_ext. intros e. unfold ageRecommendation, unscored.
    rewrite Math_round_nan_share. reflexivity.
  - destruct (filter voted (flat_map itemsOf groups)) as [|e es]; [reflexivity|].
    change (nonEmptyOrUndefined (map unscored (e :: es)))
      with (present (map unscored (e :: es))).
    apply getTopRecommendation_unscored.
Qed.

Lemma age_poll_without_total_scores_nan_witness :
  parsePlayerAgePoll agePollWithoutTotal
  = Return (present [unscored (option_ "8" 3); unscored (option_ "10" 9)]).
Proof.
  destruct (age_poll_without_total_scores_nan agePollWithoutTotal
              [ {| numplayers := undefined;
                   resultItemList :=
                     present [option_ "5" 0; option_ "8" 3; option_ "10" 9] |} ])
    as [Hcalc _].
  - reflexivity.
  - reflexivity.
  - repeat constructor. eexists. reflexivity.
  - exact Hcalc.
Defined.

(** ** How far a score is from the exact percentage *)

(** [Math.round] of a non-negative double is the floor of its value plus
    one half. *)
Lemma Math_round_floor (x : float) :
  finiteF x -> SFsign (Prim2SF x) = false -> (Fmag x < pow2 52)%R ->
  exists n, 0 <= n /\ Math_round x = Z2f n
            /\ (IZR n <= Fmag x + / 2 < IZR n + 1)%R.
Proof.
  unfold finiteF, Fmag, Math_round. intros Hfin Hsign Hmag.
  pose proof (Prim2SF_valid x) as Hvalid.
  destruct (Prim2SF x) as [s|s| |s m e] eqn:Hx; try contradiction;
    cbn [SFsign] in Hsign; subst s.
  - exists 0. split; [lia|]. split.
    + rewrite <- (SF2Prim_Prim2SF x), Hx. reflexivity.
    + cbn [SFmag]. lra.
  - assert (He : e <= -1).
    { pose proof (valid_exponent false m e 52 Hvalid Hmag) as H. lia. }
    replace (0 <=? e) with false by (symmetry; apply Z.leb_gt; lia).
    cbn [SFmag cond_Zopp] in *.
    set (D := 2 ^ (- e)).
    assert (HD : 0 < D) by (apply Z.pow_pos_nonneg; lia).
    rewrite Z.shiftr_div_pow2 by lia.
    replace (2 ^ (1 - e)) with (2 * D)
      by (unfold D; replace (1 - e) with (Z.succ (- e)) by lia;
          rewrite Z.pow_succ_r by lia; reflexivity).
    set (n := (2 * Zpos m + D) / (2 * D)).
    pose proof (Z.div_mod (2 * Zpos m + D) (2 * D) ltac:(lia)) as Hdm.
    pose proof (Z.mod_pos_bound (2 * Zpos m + D) (2 * D) ltac:(lia)) as Hmod.
    fold n in Hdm.
    assert (Hn : 0 <= n) by (apply Z.div_pos; lia).
    assert (Hone : (pow2 e * IZR D = 1)%R).
    { unfold D. rewrite <- pow2_IZR by lia. rewrite <- pow2_add.
      replace (e + - e) with 0 by lia. apply pow2_0. }
    assert (HDr : (0 < IZR D)%R) by (apply IZR_lt; lia).
    pose proof (pow2_pos e) as Hp.
    assert (Hlo : (IZR n * (2 * IZR D) <= 2 * IZR (Zpos m) + IZR D)%R).
    { assert (H : n * (2 * D) <= 2 * Zpos m + D) by lia.
      apply IZR_le in H. rewrite plus_IZR, !mult_IZR in H. exact H. }
    assert (Hhi : (2 * IZR (Zpos m) + IZR D < (IZR n + 1) * (2 * IZR D))%R).
    { assert (H : 2 * Zpos m + D < (n + 1) * (2 * D)) by lia.
      apply IZR_lt in H. rewrite !mult_IZR, !plus_IZR, !mult_IZR in H. exact H. }
    assert (Hval : (IZR (Zpos m) * pow2 e * IZR D = IZR (Zpos m))%R)
      by (rewrite Rmult_assoc, Hone; lra).
    exists n. split; [exact Hn|]. split.
    + destruct (n =? 0) eqn:Hz; [|reflexivity].
      apply Z.eqb_eq in Hz. rewrite Hz. reflexivity.
    + split.
      * apply Rmult_le_reg_r with (r := (2 * IZR D)%R); [lra|]. nra.
      * apply Rmult_lt_reg_r with (r := (2 * IZR D)%R); [lra|]. nra.
Qed.

Lemma rounded_share_bounds (n total a a' b' k : Z) :
  0 < n <= total -> total < 2 ^ 43 ->
  a * total <= n * 2 ^ 52 < (a + 1) * total ->
  64 * a' <= 100 * a < 64 * a' + 64 ->
  64 * b' <= 100 * (a + 1) + 63 ->
  k * 2 ^ 46 <= b' + 2 ^ 45 ->
  a' + 2 ^ 45 < (k + 1) * 2 ^ 46 ->
  k = (200 * n + total) / (2 * total)
  \/ (halfway n total /\ k = (200 * n + total) / (2 * total) - 1).
Proof.
  intros Hn Ht Ha Ha' Hb' Hup Hlow. unfold halfway.
  set (R := (200 * n + total) / (2 * total)).
  pose proof (Z.div_mod (200 * n + total) (2 * total) ltac:(lia)) as Hdm.
  pose proof (Z.mod_pos_bound (200 * n + total) (2 * total) ltac:(lia)) as Hmod.
  fold R in Hdm.
  change (2 ^ 52) with 4503599627370496 in *.
  change (2 ^ 46) with 70368744177664 in *.
  change (2 ^ 45) with 35184372088832 in *.
  change (2 ^ 43) with 8796093022208 in *.
  assert (Hk_up : 2 * k * total <= 200 * n + total).
  { assert (H1 : k * 4503599627370496 <= 100 * a + 163 + 2251799813685248) by lia.
    assert (H2 : k * 4503599627370496 * total
                 <= 100 * (n * 4503599627370496) + (163 + 2251799813685248) * total)
      by nia.
    assert (H3 : 2251799813685248 * (2 * k * total - 200 * n - total) <= 163 * total)
      by lia.
    assert (H4 : 2 * k * total - 200 * n - total < 1) by nia.
    lia. }
  assert (Hk_low : 200 * n + total <= 2 * (k + 1) * total).
  { assert (H1 : 100 * a - 64 + 2251799813685248 < (k + 1) * 4503599627370496) by lia.
    assert (H2 : 100 * (n * 4503599627370496) - 100 * total
                 - 64 * total + 2251799813685248 * total
                 < (k + 1) * 4503599627370496 * total) by nia.
    assert (H3 : - (164 * total)
                 < 2251799813685248 * (2 * (k + 1) * total - 200 * n - total)) by lia.
    assert (H4 : -1 < 2 * (k + 1) * total - 200 * n - total) by nia.
    lia. }
  assert (HkR : k <= R) by (apply Z.div_le_lower_bound; lia).
  destruct (Z.eq_dec ((200 * n + total) mod (2 * total)) 0) as [Htie|Htie].
  - assert (R - 1 <= k) by nia.
    destruct (Z.eq_dec k R); [left; assumption|right; split; [exact Htie|lia]].
  - left. assert (R <= k) by nia. lia.
Qed.

(** The rounded percentage of a quotient of two non-negative doubles whose
    exact ratio is [n / total]. *)
Lemma share_value (x y : float) (n total : Z) :
  finiteF x -> finiteF y ->
  SFsign (Prim2SF x) = false -> SFsign (Prim2SF y) = false ->
  F2R y <> 0%R ->
  (Fmag x / Fmag y = IZR n / IZR total)%R ->
  0 < n <= total -> total < 2 ^ 43 ->
  exists k,
    Math_round (x / y * 100) = Z2f k
    /\ (k = (200 * n + total) / (2 * total)
        \/ (halfway n total /\ k = (200 * n + total) / (2 * total) - 1)).
Proof.
  intros Hxf Hyf Hxs Hys Hy0 Hxy Hn Ht.
  assert (Hn0 : (0 < IZR n)%R) by (apply IZR_lt; lia).
  assert (Ht0 : (0 < IZR total)%R) by (apply IZR_lt; lia).
  assert (Hnt : (IZR n <= IZR total)%R) by (apply IZR_le; lia).
  assert (Hratio : (IZR n / IZR total * IZR total = IZR n)%R).
  { unfold Rdiv. rewrite Rmult_assoc, Rinv_l by lra. lra. }
  set (X := (IZR n / IZR total)%R) in *.
  assert (HX1 : (X <= 1)%R).
  { apply Rmult_le_reg_r with (r := IZR total); [lra|]. lra. }
  (* the quotient, on the grid 2^-52 *)
  set (a := (n * 2 ^ 52) / total).
  pose proof (Z.div_mod (n * 2 ^ 52) total ltac:(lia)) as Hdm.
  pose proof (Z.mod_pos_bound (n * 2 ^ 52) total ltac:(lia)) as Hmod.
  fold a in Hdm.
  assert (Ha : a * total <= n * 2 ^ 52 < (a + 1) * total) by lia.
  assert (Ha0 : 0 <= a <= 2 ^ 52).
  { split; [apply Z.div_pos; lia|]. apply Z.div_le_upper_bound; nia. }
  pose proof (pow2_pos (-52)) as Hu.
  assert (Hu1 : (pow2 (-52) * IZR (2 ^ 52) = 1)%R).
  { rewrite <- pow2_IZR by lia. rewrite <- pow2_add. apply pow2_0. }
  assert (Hqlo : (IZR a * pow2 (-52) <= X)%R).
  { apply Rmult_le_reg_r with (r := (IZR (2 ^ 52) * IZR total)%R);
      [apply Rmult_lt_0_compat; [apply IZR_lt; reflexivity|lra]|].
    replace (IZR a * pow2 (-52) * (IZR (2 ^ 52) * IZR total))%R
      with (IZR a * IZR total * (pow2 (-52) * IZR (2 ^ 52)))%R by ring.
    replace (X * (IZR (2 ^ 52) * IZR total))%R
      with (X * IZR total * IZR (2 ^ 52))%R by ring.
    rewrite Hu1, Hratio, Rmult_1_r, <- !mult_IZR. apply IZR_le. lia. }
  assert (Hqhi : (X <= IZR (a + 1) * pow2 (-52))%R).
  { apply Rmult_le_reg_r with (r := (IZR (2 ^ 52) * IZR total)%R);
      [apply Rmult_lt_0_compat; [apply IZR_lt; reflexivity|lra]|].
    replace (IZR (a + 1) * pow2 (-52) * (IZR (2 ^ 52) * IZR total))%R
      with (IZR (a + 1) * IZR total * (pow2 (-52) * IZR (2 ^ 52)))%R by ring.
    replace (X * (IZR (2 ^ 52) * IZR total))%R
      with (X * IZR total * IZR (2 ^ 52))%R by ring.
    rewrite Hu1, Hratio, Rmult_1_r, <- !mult_IZR. apply IZR_le. lia. }
  destruct (Fdiv_between x y (-52) a (a + 1)) as (Hqf & Hqs & Hq);
    [assumption|assumption|assumption|lia| | |].
  { rewrite Hxy. change (-52 + 53) with 1. rewrite pow2_1. lra. }
  { rewrite Hxy. split; assumption. }
  rewrite Hxs, Hys in Hqs. cbn [xorb] in Hqs.
  set (q := (x / y)%float) in *.
  (* the product, on the grid 2^-46 *)
  set (a' := (100 * a) / 64).
  set (b' := (100 * (a + 1) + 63) / 64).
  pose proof (Z.div_mod (100 * a) 64 ltac:(lia)) as Hdm'.
  pose proof (Z.mod_pos_bound (100 * a) 64 ltac:(lia)) as Hmod'.
  fold a' in Hdm'.
  pose proof (Z.div_mod (100 * (a + 1) + 63) 64 ltac:(lia)) as Hdmb.
  pose proof (Z.mod_pos_bound (100 * (a + 1) + 63) 64 ltac:(lia)) as Hmodb.
  fold b' in Hdmb.
  assert (H100 : Fmag 100 = 100%R) by (apply (Fmag_Z2f 100); reflexivity).
  assert (Hgrid : (pow2 (-46) = 64 * pow2 (-52))%R).
  { replace (-46) with (6 + -52) by lia. rewrite pow2_add, (pow2_IZR 6) by lia.
    reflexivity. }
  assert (Hqmax : (Fmag q <= 1 + pow2 (-52))%R).
  { apply Rle_trans with (1 := proj2 Hq). rewrite plus_IZR, Rmult_plus_distr_r.
    assert (IZR a * pow2 (-52) <= 1)%R by lra. lra. }
  assert (Hsmall : (pow2 (-52) < / 4)%R).
  { apply Rmult_lt_reg_r with (r := IZR (2 ^ 52)); [apply IZR_lt; reflexivity|].
    rewrite Hu1. change (2 ^ 52) with 4503599627370496. lra. }
  assert (Hq0 : (0 <= Fmag q)%R) by apply SFmag_nonneg.
  destruct (Fmul_between q 100 (-46) a' b' 1 7) as (Hpf & Hps & Hp).
  - exact Hqf.
  - apply (proj1 (Z2f_exact 100 ltac:(reflexivity))).
  - lia.
  - rewrite pow2_1. lra.
  - rewrite H100, (pow2_IZR 7) by lia. change (2 ^ 7) with 128. lra.
  - lia.
  - rewrite H100. change (-46 + 53) with 7. rewrite (pow2_IZR 7) by lia.
    change (2 ^ 7) with 128. nra.
  - rewrite H100, Hgrid. split.
    + apply Rle_trans with (r2 := (100 * (IZR a * pow2 (-52)))%R); [|nra].
      assert (H : (IZR a' * 64 <= 100 * IZR a)%R).
      { assert (Hz : a' * 64 <= 100 * a) by lia.
        apply IZR_le in Hz. rewrite !mult_IZR in Hz. exact Hz. }
      nra.
    + apply Rle_trans with (r2 := (100 * (IZR (a + 1) * pow2 (-52)))%R); [nra|].
      assert (H : (100 * IZR (a + 1) <= IZR b' * 64)%R).
      { assert (Hz : 100 * (a + 1) <= b' * 64) by lia.
        apply IZR_le in Hz. rewrite !mult_IZR in Hz. exact Hz. }
      nra.
  - rewrite Hqs in Hps. cbn [xorb] in Hps.
    change (SFsign (Prim2SF 100)) with false in Hps.
    set (r := (q * 100)%float) in *.
    assert (Hb'max : b' <= 100 * 2 ^ 46 + 2).
    { change (2 ^ 46) with 70368744177664. change (2 ^ 52) with 4503599627370496 in Ha0.
      lia. }
    pose proof (pow2_pos (-46)) as Hv.
    assert (Hv1 : (pow2 (-46) * IZR (2 ^ 46) = 1)%R).
    { rewrite <- pow2_IZR by lia. rewrite <- pow2_add. apply pow2_0. }
    assert (Hrmax : (Fmag r < pow2 52)%R).
    { apply Rle_lt_trans with (1 := proj2 Hp).
      apply Rmult_lt_reg_r with (r := IZR (2 ^ 46)); [apply IZR_lt; reflexivity|].
      rewrite Rmult_assoc, Hv1, Rmult_1_r, (pow2_IZR 52), <- mult_IZR by lia.
      apply IZR_lt. change (2 ^ 46) with 70368744177664 in *.
      change (2 ^ 52) with 4503599627370496. lia. }
    destruct (Math_round_floor r Hpf Hps Hrmax) as (k & Hk0 & Hround & Hklo & Hkhi).
    exists k. split; [exact Hround|].
    apply (rounded_share_bounds n total a a' b' k); try assumption; try lia.
    + apply le_IZR. rewrite plus_IZR, mult_IZR.
      apply Rmult_le_reg_r with (r := pow2 (-46)); [exact Hv|].
      rewrite Rmult_plus_distr_r, Rmult_assoc, (Rmult_comm (IZR (2 ^ 46))), Hv1.
      replace (IZR (2 ^ 45) * pow2 (-46))%R with (/ 2)%R.
      * lra.
      * change (2 ^ 46) with (2 * 2 ^ 45) in Hv1. rewrite mult_IZR in Hv1.
        assert (0 < IZR (2 ^ 45))%R by (apply IZR_lt; reflexivity). 
        apply Rmult_eq_reg_l with (r := 2%R); [|lra].
        rewrite Rinv_r by lra. lra.
    + apply lt_IZR. rewrite plus_IZR, mult_IZR, plus_IZR.
      apply Rmult_lt_reg_r with (r := pow2 (-46)); [exact Hv|].
      rewrite Rmult_plus_distr_r, (Rmult_assoc (IZR k + 1)),
        (Rmult_comm (IZR (2 ^ 46))), Hv1.
      replace (IZR (2 ^ 45) * pow2 (-46))%R with (/ 2)%R.
      * lra.
      * change (2 ^ 46) with (2 * 2 ^ 45) in Hv1. rewrite mult_IZR in Hv1.
        apply Rmult_eq_reg_l with (r := 2%R); [|lra].
        rewrite Rinv_r by lra. lra.
Qed.

Lemma ageScore_value (n total : Z) :
  0 < n <= total -> total < 2 ^ 43 ->
  exists k,
    Math_round (Z2f n / Z2f total * 100) = Z2f k
    /\ (k = (200 * n + total) / (2 * total)
        \/ (halfway n total /\ k = (200 * n + total) / (2 * total) - 1)).
Proof.
  intros Hn Ht.
  assert (Ht53 : total < 2 ^ 53) by (change (2 ^ 43) with 8796093022208 in Ht;
                                     change (2 ^ 53) with 9007199254740992; lia).
  destruct (Z2f_exact n ltac:(lia)) as [Hnf Hnv].
  destruct (Z2f_exact total ltac:(lia)) as [Htf Htv].
  apply share_value; try assumption; try (apply Z2f_sign; lia).
  - rewrite Htv. apply not_0_IZR. lia.
  - rewrite !Fmag_Z2f, !Z.abs_eq by lia. reflexivity.
Qed.

Lemma specAgeScore_quotient (n total : Z) :
  0 <= n -> 0 < total ->
  specAgeScore n total = (200 * n + total) / (2 * total).
Proof.
  intros Hn Ht. unfold specAgeScore, specRound.
  destruct total as [|t|t]; try lia.
  assert (Hq : (100 * inject_Z n / inject_Z (Zpos t) == (100 * n) # t)%Q).
  { unfold Qeq, Qdiv, Qmult, Qinv, inject_Z. cbn -[Z.mul Z.add Pos.mul]. lia. }
  assert (Hpos : Qle_bool 0 (100 * inject_Z n / inject_Z (Zpos t)) = true).
  { apply Qle_bool_iff. rewrite Hq. unfold Qle. cbn -[Z.mul Z.add Pos.mul]. lia. }
  rewrite Hpos.
  assert (Hsum : (100 * inject_Z n / inject_Z (Zpos t) + (1 # 2)
                  == (200 * n + Zpos t) # (2 * t))%Q).
  { rewrite Hq. unfold Qeq, Qplus. cbn -[Z.mul Z.add Pos.mul]. lia. }
  rewrite (Qfloor_comp _ _ Hsum). unfold Qfloor. reflexivity.
Qed.

(** X18.  How far an age score is from the exact percentage.  For an age
    poll whose total is the numeral of T with 0 < T < 2^43, whose result
    groups all have item lists and whose vote entries carry integer counts
    from 0 to T, [parsePlayerAgePoll] reports, for each entry with votes
    and in their order, the exact percentage 100 * n / T rounded to the
    nearest whole number with halves up, or one less than that when the
    exact percentage lies exactly half-way between two whole numbers. *)
Theorem age_scores_are_rounded_shares
    (p : BggPollDto) (total : Z) (groups : list BggPollResultDto) :
  0 < total < 2 ^ 43 ->
  totalvotes p = present (numToString total) ->
  results p = present groups ->
  Forall hasItems groups ->
  Forall (countsUpTo total) groups ->
  exists l,
    parsePlayerAgePoll p = Return (nonEmptyOrUndefined l)
    /\ Forall2 (sharesOf total) (filter voted (flat_map itemsOf groups)) l.
Proof.
  intros Ht Hnumeral Hres Hitems Hcounts.
  assert (Htotal : totalVotesOf p = Z2f total).
  { unfold totalVotesOf. rewrite Hnumeral. apply parseInt_numeral. }
  assert (Ht53 : total < 2 ^ 53)
    by (change (2 ^ 43) with 8796093022208 in Ht;
        change (2 ^ 53) with 9007199254740992; lia).
  assert (Hnz : (Z2f total =? 0)%float = false).
  { apply not_true_is_false. intros H.
    apply (Feqb_zero _ (proj1 (Z2f_exact total ltac:(lia)))) in H.
    rewrite (proj2 (Z2f_exact total ltac:(lia))) in H. apply eq_IZR in H. lia. }
  unfold parsePlayerAgePoll. fold (totalVotesOf p). rewrite Hres, Htotal.
  destruct groups as [|g groups]; [exists []; split; [reflexivity|constructor]|].
  rewrite Hnz, (foldM_pushAgeGroup _ _ Hitems). cbn [bind app].
  eexists. split; [reflexivity|].
  assert (Hall : Forall (fun e => exists n, 0 <= n <= total /\ votesOf e = Z2f n)
                        (flat_map itemsOf (g :: groups))).
  { apply Forall_forall. intros e He. apply in_flat_map in He.
    destruct He as (g' & Hg' & He). rewrite Forall_forall in Hcounts.
    specialize (Hcounts g' Hg'). unfold countsUpTo in Hcounts.
    rewrite Forall_forall in Hcounts. exact (Hcounts e He). }
  induction Hall as [|e es (n & Hn & Hv) _ IH]; cbn [filter map]; [constructor|].
  destruct (voted e) eqn:Hvoted; [|exact IH].
  cbn [map]. constructor; [|exact IH].
  assert (Hpos : 0 < n).
  { destruct (Z.eq_dec n 0) as [->|Hne]; [|lia].
    unfold voted in Hvoted. rewrite Hv in Hvoted. discriminate. }
  destruct (ageScore_value n total ltac:(lia) ltac:(lia)) as (k & Hk & Hcases).
  split; [reflexivity|]. exists n, k.
  split; [exact Hv|]. split; [lia|]. split.
  - unfold ageRecommendation. cbn [score]. rewrite Hv. exact Hk.
  - rewrite specAgeScore_quotient by lia. exact Hcases.
Qed.

Lemma age_scores_are_rounded_shares_witness :
  exists l,
    parsePlayerAgePoll (agePollOf 29 200) = Return (nonEmptyOrUndefined l)
    /\ Forall2 (sharesOf 200) [option_ "8" 29] l.
Proof.
  apply (age_scores_are_rounded_shares (agePollOf 29 200) 200
           [ {| numplayers := undefined;
                resultItemList := present [option_ "8" 29] |} ]).
  - split; reflexivity.
  - reflexivity.
  - reflexivity.
  - repeat constructor. eexists. reflexivity.
  - repeat constructor. exists 29. split; [lia|reflexivity].
Defined.

(** ** How far a player-count score is from the exact percentage *)

Lemma negative_sign (f : spec_float) : (SF2R f < 0)%R -> SFsign f = true.
Proof.
  intros H. rewrite SF2R_sign_mag in H. pose proof (SFmag_nonneg f).
  destruct (SFsign f); [reflexivity|lra].
Qed.

Lemma Math_round_percent_neg (x : float) :
  finiteF x -> SFsign (Prim2SF x) = true -> (Fmag x <= 100)%R ->
  exists n, -100 <= n <= 0 /\ (Math_round x = Z2f n \/ Math_round x = neg_zero).
Proof.
  unfold finiteF, Fmag, Math_round. intros Hfin Hsign Hmag.
  pose proof (Prim2SF_valid x) as Hvalid.
  destruct (Prim2SF x) as [s|s| |s m e] eqn:Hx; try contradiction;
    cbn [SFsign] in Hsign; subst s.
  - exists 0. split; [lia|]. right. rewrite <- (SF2Prim_Prim2SF x), Hx. reflexivity.
  - assert (He : e <= -46).
    { pose proof (valid_exponent true m e 7 Hvalid) as H. cbn [SFmag] in *.
      rewrite (pow2_IZR 7) in H by lia. change (2 ^ 7) with 128 in H.
      assert (IZR (Zpos m) * pow2 e < 128)%R by lra. specialize (H H0). lia. }
    replace (0 <=? e) with false by (symmetry; apply Z.leb_gt; lia).
    cbn [SFmag] in Hmag.
    set (D := 2 ^ (- e)).
    assert (HD : 0 < D) by (apply Z.pow_pos_nonneg; lia).
    assert (Hm : Zpos m <= 100 * D).
    { apply le_IZR. rewrite mult_IZR. unfold D. rewrite <- pow2_IZR by lia.
      pose proof (pow2_pos e) as Hp. pose proof (pow2_pos (- e)) as Hn.
      assert (Hone : (pow2 e * pow2 (- e) = 1)%R).
      { rewrite <- pow2_add. replace (e + - e) with 0 by lia. apply pow2_0. }
      nra. }
    rewrite Z.shiftr_div_pow2 by lia.
    replace (2 ^ (1 - e)) with (2 * D)
      by (unfold D; replace (1 - e) with (Z.succ (- e)) by lia;
          rewrite Z.pow_succ_r by lia; reflexivity).
    cbn [cond_Zopp].
    set (n := (2 * - Zpos m + D) / (2 * D)).
    assert (Hn : -100 <= n <= 0).
    { unfold n. split.
      - apply Z.div_le_lower_bound; lia.
      - apply Z.lt_succ_r. apply Z.div_lt_upper_bound; lia. }
    destruct (n =? 0) eqn:Hz.
    + exists 0. split; [lia|]. right. reflexivity.
    + exists n. split; [exact Hn|]. left. reflexivity.
Qed.

(** A tally that is not above zero scores 0. *)
Lemma groupScore_nonpositive (summary : PollResult) :
  finiteF (pr_score summary) -> finiteF (pr_votes summary) ->
  (0 < F2R (pr_votes summary))%R ->
  (Fmag (pr_score summary) <= Fmag (pr_votes summary))%R ->
  (F2R (pr_score summary) <= 0)%R ->
  groupScore summary = Z2f 0.
Proof.
  intros Hs Hv Hvpos Hle Hneg. unfold groupScore.
  assert (Hvs : SFsign (Prim2SF (pr_votes summary)) = false)
    by (apply positive_sign; exact Hvpos).
  assert (Hvm : (0 < Fmag (pr_votes summary))%R).
  { rewrite <- (F2R_of_sign _ Hvs). exact Hvpos. }
  assert (Hspos : (0 <= Fmag (pr_score summary))%R) by apply SFmag_nonneg.
  assert (Hratio : (0 <= Fmag (pr_score summary) / Fmag (pr_votes summary) <= 1)%R).
  { split.
    - apply Rmult_le_pos; [lra|]. apply Rlt_le, Rinv_0_lt_compat. lra.
    - apply Rmult_le_reg_r with (r := Fmag (pr_votes summary)); [lra|].
      unfold Rdiv. rewrite Rmult_assoc, Rinv_l by lra. lra. }
  assert (H100 : Fmag 100 = 100%R) by (apply (Fmag_Z2f 100); reflexivity).
  destruct (Rle_lt_or_eq_dec _ _ Hneg) as [Hlt|Hzero].
  - (* a negative tally *)
    assert (Hss : SFsign (Prim2SF (pr_score summary)) = true)
      by (apply negative_sign; exact Hlt).
    destruct (Fdiv_between (pr_score summary) (pr_votes summary) 0 0 1)
      as (Hqf & Hqs & Hq); [assumption|assumption|lra|lia| | |].
    { rewrite (pow2_IZR (0 + 53)) by lia. change (2 ^ (0 + 53)) with 9007199254740992. lra. }
    { rewrite pow2_0. lra. }
    rewrite pow2_0 in Hq. rewrite Hss, Hvs in Hqs. cbn [xorb] in Hqs.
    set (q := (pr_score summary / pr_votes summary)%float) in *.
    destruct (Fmul_between q 100 0 0 100 1 7) as (Hpf & Hps & Hp).
    + exact Hqf.
    + apply (proj1 (Z2f_exact 100 ltac:(reflexivity))).
    + lia.
    + rewrite pow2_1. lra.
    + rewrite H100, (pow2_IZR 7) by lia. change (2 ^ 7) with 128. lra.
    + lia.
    + rewrite H100, (pow2_IZR (0 + 53)) by lia.
      change (2 ^ (0 + 53)) with 9007199254740992. lra.
    + rewrite H100, pow2_0. lra.
    + rewrite pow2_0 in Hp. rewrite Hqs in Hps.
      change (SFsign (Prim2SF 100)) with false in Hps. cbn [xorb] in Hps.
      destruct (Math_round_percent_neg (q * 100)%float Hpf Hps ltac:(lra))
        as (n & Hn & [-> | ->]).
      * rewrite Math_max_percent by lia. f_equal. lia.
      * reflexivity.
  - (* a tally of zero, of either sign *)
    assert (Hmag0 : Fmag (pr_score summary) = 0%R).
    { rewrite <- F2R_abs, Hzero. apply Rabs_R0. }
    destruct (Fdiv_between (pr_score summary) (pr_votes summary) 0 0 0)
      as (Hqf & _ & Hq); [assumption|assumption|lra|lia| | |].
    { rewrite Hmag0, (pow2_IZR (0 + 53)) by lia. unfold Rdiv. rewrite Rmult_0_l.
      apply IZR_lt. reflexivity. }
    { rewrite Hmag0. unfold Rdiv. rewrite !Rmult_0_l. lra. }
    rewrite !Rmult_0_l in Hq.
    set (q := (pr_score summary / pr_votes summary)%float) in *.
    assert (Hq0 : Fmag q = 0%R) by lra.
    destruct (Fmul_between q 100 0 0 0 1 7) as (Hpf & _ & Hp).
    + exact Hqf.
    + apply (proj1 (Z2f_exact 100 ltac:(reflexivity))).
    + lia.
    + rewrite pow2_1. lra.
    + rewrite H100, (pow2_IZR 7) by lia. change (2 ^ 7) with 128. lra.
    + lia.
    + rewrite Hq0, Rmult_0_l. apply pow2_pos.
    + rewrite Hq0, !Rmult_0_l. lra.
    + rewrite !Rmult_0_l in Hp.
      unfold Fmag in Hp. unfold finiteF in Hpf. unfold Math_round.
      destruct (Prim2SF (q * 100)) as [s|s| |s m e] eqn:Hx; try contradiction.
      * destruct (finite_zero_cases _ s Hx) as [-> | ->]; reflexivity.
      * cbn [SFmag] in Hp. pose proof (pow2_pos e).
        pose proof (IZR_lt 0 (Zpos m) ltac:(lia)). nra.
Qed.

Lemma groupScore_rounded (summary : PollResult) (V S2 : Z) :
  tallied summary V S2 -> 0 < V -> 2 * V < 2 ^ 43 ->
  exists k,
    groupScore summary = Z2f k
    /\ (k = roundedTally S2 V
        \/ (halfway S2 (2 * V) /\ 0 < S2 /\ k = roundedTally S2 V - 1)).
Proof.
  intros (Hs & Hv & Hvv & Hsv & HV & HS) Hpos Hsmall.
  assert (HVr : (0 < IZR V)%R) by (apply IZR_lt; lia).
  assert (Hvm : Fmag (pr_votes summary) = IZR V).
  { rewrite <- F2R_abs, Hvv. apply Rabs_pos_eq. lra. }
  assert (Hsm : Fmag (pr_score summary) = (IZR (Z.abs S2) / 2)%R).
  { rewrite <- F2R_abs, Hsv, abs_IZR. unfold Rdiv. rewrite Rabs_mult.
    rewrite (Rabs_pos_eq (/ 2)) by lra. reflexivity. }
  assert (Hle : (Fmag (pr_score summary) <= Fmag (pr_votes summary))%R).
  { rewrite Hsm, Hvm. apply IZR_le in HS. rewrite mult_IZR in HS. lra. }
  unfold roundedTally.
  destruct (Z_le_gt_dec S2 0) as [Hneg|Hposs].
  - exists 0. split.
    + apply groupScore_nonpositive; try assumption; [rewrite Hvv; exact HVr|].
      rewrite Hsv. apply IZR_le in Hneg. lra.
    + left. symmetry. apply Z.max_l.
      apply Z.lt_succ_r. apply Z.div_lt_upper_bound; lia.
  - assert (HS2r : (0 < IZR S2)%R) by (apply IZR_lt; lia).
    destruct (share_value (pr_score summary) (pr_votes summary) S2 (2 * V))
      as (k & Hk & Hcases); try assumption.
    + apply positive_sign. fold (F2R (pr_score summary)). rewrite Hsv. lra.
    + apply positive_sign. fold (F2R (pr_votes summary)). rewrite Hvv. exact HVr.
    + rewrite Hvv. lra.
    + rewrite Hsm, Hvm, Z.abs_eq, mult_IZR by lia. field. lra.
    + lia.
    + assert (Hquot : (200 * S2 + 2 * V) / (2 * (2 * V)) = (100 * S2 + V) / (2 * V)).
      { replace (200 * S2 + 2 * V) with (2 * (100 * S2 + V)) by ring.
        apply Z.div_mul_cancel_l; lia. }
      rewrite Hquot in Hcases.
      set (R := (100 * S2 + V) / (2 * V)) in *.
      assert (HR : 0 <= R <= 100).
      { unfold R. split; [apply Z.div_pos; lia|].
        apply Z.lt_succ_r. apply Z.div_lt_upper_bound; lia. }
      assert (Htie : halfway S2 (2 * V) -> 1 <= R).
      { unfold halfway. intros Hmod.
        pose proof (Z.div_mod (200 * S2 + 2 * V) (2 * (2 * V)) ltac:(lia)) as Hdm.
        rewrite Hmod, Hquot in Hdm. fold R in Hdm. nia. }
      assert (Hk100 : 0 <= k <= 100).
      { destruct Hcases as [->|[Hh ->]]; [lia|]. specialize (Htie Hh). lia. }
      exists k. split.
      * unfold groupScore. rewrite Hk, Math_max_percent by lia. f_equal. lia.
      * rewrite (Z.max_r 0 R) by lia.
        destruct Hcases as [Hc|[Hh Hc]]; [left; exact Hc|right].
        split; [exact Hh|]. split; [lia|exact Hc].
Qed.

Lemma specPlayerScore_roundedTally (best recommended notRecommended : Z) :
  0 < best + recommended + notRecommended ->
  specPlayerScore best recommended notRecommended
  = roundedTally (2 * best + recommended - notRecommended)
                 (best + recommended + notRecommended).
Proof.
  intros Hv. unfold specPlayerScore, roundedTally, specRound.
  set (S2 := 2 * best + recommended - notRecommended).
  destruct (best + recommended + notRecommended) as [|v|v] eqn:HV; try lia.
  assert (Hq : (100 * (inject_Z best + (1 # 2) * inject_Z recommended
                       - (1 # 2) * inject_Z notRecommended)
                / inject_Z (Zpos v) == (100 * S2) # (2 * v))%Q).
  { unfold S2, Qeq, Qdiv, Qmult, Qplus, Qminus, Qopp, Qinv, inject_Z.
    cbn -[Z.mul Z.add Z.sub Z.opp Pos.mul]. rewrite !Pos2Z.inj_mul. ring. }
  set (q := (100 * (inject_Z best + (1 # 2) * inject_Z recommended
                    - (1 # 2) * inject_Z notRecommended)
             / inject_Z (Zpos v))%Q) in *.
  destruct (Qle_bool 0 q) eqn:Hsign.
  - apply Qle_bool_iff in Hsign. rewrite Hq in Hsign.
    unfold Qle in Hsign. cbn -[Z.mul Z.add Pos.mul] in Hsign.
    assert (Hsum : (q + (1 # 2) == (100 * S2 + Zpos v) # (2 * v))%Q).
    { rewrite Hq. unfold Qeq, Qplus. cbn -[Z.mul Z.add Pos.mul].
      rewrite !Pos2Z.inj_mul. ring. }
    rewrite (Qfloor_comp _ _ Hsum). unfold Qfloor. reflexivity.
  - assert (Hneg : S2 < 0).
    { destruct (Z_lt_ge_dec S2 0) as [H|H]; [exact H|].
      assert (Qle_bool 0 q = true); [|congruence].
      apply Qle_bool_iff. rewrite Hq. unfold Qle. cbn -[Z.mul Z.add Pos.mul]. lia. }
    assert (Hfloor : 0 <= Qfloor (- q + (1 # 2))).
    { change 0 with (Qfloor 0). apply Qfloor_resp_le. rewrite Hq.
      unfold Qle, Qplus, Qopp. cbn -[Z.mul Z.add Z.opp Pos.mul]. lia. }
    rewrite Z.max_l by lia. symmetry. apply Z.max_l.
    apply Z.lt_succ_r. apply Z.div_lt_upper_bound; lia.
Qed.

Lemma namedVotes_le (options : list BggPollResultItemDto) (counts : list Z) :
  Forall2 hasCount options counts ->
  namedVotes options counts <= sumZ counts.
Proof.
  induction 1 as [|e n options counts [Hn _] _ IH]; [cbn; lia|].
  unfold namedVotes in *. cbn [combine map sumZ fold_right] in *.
  fold (sumZ counts).
  fold (sumZ (map (fun '(e0, n0) => if weight2 e0 =? 0 then 0 else n0)
                  (combine options counts))) in *.
  destruct (weight2 e =? 0); lia.
Qed.

(** X19.  How far a player-count score is from the exact percentage.
    For a result group with a bucket whose options carry non-negative
    integer vote counts adding up to less than 2^42, with at least one
    vote for a named option, [parseNumPlayersPoll] reports the exact
    percentage 100 * (best + recommended/2 - notRecommended/2) / votes
    rounded to the nearest whole number with halves up and floored at 0,
    or one less than that when the tally is above zero and the exact
    percentage lies exactly half-way between two whole numbers.  For a
    group of three options this rounded percentage is the score formula of
    the specification. *)
Theorem player_score_is_the_rounded_tally
    (result : list Recommendation) (g : BggPollResultDto) (bucket : scalar)
    (options : list BggPollResultItemDto) (counts : list Z) :
  numplayers g = present bucket ->
  resultItemList g = present options ->
  Forall2 hasCount options counts ->
  sumZ counts < 2 ^ 42 ->
  namedVotes options counts <> 0 ->
  (exists k,
      pushPlayerGroup result g
      = Return (result ++ [ {| value := bucket; score := Z2f k |} ])
      /\ (k = roundedTally (tallyTwice options counts) (namedVotes options counts)
          \/ (halfway (tallyTwice options counts) (2 * namedVotes options counts)
              /\ 0 < tallyTwice options counts
              /\ k = roundedTally (tallyTwice options counts)
                                  (namedVotes options counts) - 1)))
  /\ (forall best recommended notRecommended,
        0 < best + recommended + notRecommended ->
        specPlayerScore best recommended notRecommended
        = roundedTally (2 * best + recommended - notRecommended)
                       (best + recommended + notRecommended)).
Proof.
  intros Hbucket Hopts Hc Hlt Hvotes.
  split; [|exact specPlayerScore_roundedTally].
  assert (Hlt52 : sumZ counts < 2 ^ 52)
    by (change (2 ^ 42) with 4398046511104 in Hlt;
        change (2 ^ 52) with 4503599627370496; lia).
  pose proof (tallied_summary options counts Hc Hlt52) as Htal.
  pose proof (namedVotes_le options counts Hc) as Hle.
  pose proof Htal as (Hs & Hv & Hvv & Hsv & HV & HS).
  destruct (groupScore_rounded _ _ _ Htal) as (k & Hk & Hcases).
  - lia.
  - change (2 ^ 42) with 4398046511104 in Hlt. change (2 ^ 43) with 8796093022208. lia.
  - exists k. split; [|exact Hcases].
    unfold pushPlayerGroup. rewrite Hbucket, Hopts. fold (groupSummary options).
    assert (Hnz : (pr_votes (groupSummary options) =? 0)%float = false).
    { apply not_true_is_false. intros H. apply (Feqb_zero _ Hv) in H.
      rewrite Hvv in H. apply eq_IZR in H. contradiction. }
    rewrite Hnz, Hk. reflexivity.
Qed.

Lemma player_score_is_the_rounded_tally_witness :
  exists k,
    pushPlayerGroup [] dislikedGroup
    = Return ([] ++ [ {| value := Str "3"; score := Z2f k |} ])
    /\ (k = roundedTally (-26) 33
        \/ (halfway (-26) (2 * 33) /\ 0 < -26 /\ k = roundedTally (-26) 33 - 1)).
Proof.
  destruct (player_score_is_the_rounded_tally [] dislikedGroup (Str "3")
              [ option_ "Best" 1; option_ "Recommended" 2;
                option_ "Not Recommended" 30 ] [1; 2; 30]) as [Hscore _].
  - reflexivity.
  - reflexivity.
  - repeat constructor; reflexivity || lia.
  - reflexivity.
  - discriminate.
  - exact Hscore.
Defined.
(** ** RecordNormalizer: when the scorers make [parseGame] throw *)

Lemma foldM_pushAgeGroup_throws (totalVotes : float) (groups : list BggPollResultDto) :
  forall result,
    foldM (pushAgeGroup totalVotes) groups result = Throw TypeError
    <-> Exists (fun g => isNullish (resultItemList g) = true) groups.
Proof.
  induction groups as [|g groups IH]; intros result.
  - cbn. split; [discriminate|]. intros H. inversion H.
  - cbn [foldM]. unfold pushAgeGroup at 1.
    destruct (resultItemList g) as [| |votes] eqn:Hlist; cbn [bind].
    + split; [intros _; left; rewrite Hlist; reflexivity|reflexivity].
    + split; [intros _; left; rewrite Hlist; reflexivity|reflexivity].
    + rewrite IH. split; [intros H; right; exact H|].
      intros H. inversion H as [? ? Hhd|? ? Htl]; subst; [|exact Htl].
      rewrite Hlist in Hhd. discriminate.
Qed.

Lemma foldM_pushPlayerGroup_throws (groups : list BggPollResultDto) :
  forall result,
    foldM pushPlayerGroup groups result = Throw TypeError
    <-> Exists (fun g => isNullish (numplayers g) = false /\ resultItemList g = null)
               groups.
Proof.
  induction groups as [|g groups IH]; intros result.
  - cbn. split; [discriminate|]. intros H. inversion H.
  - cbn [foldM]. unfold pushPlayerGroup at 1.
    assert (Hskip : forall r,
               (isNullish (numplayers g) = false /\ resultItemList g = null -> False) ->
               (foldM pushPlayerGroup groups r = Throw TypeError
                <-> Exists (fun g => isNullish (numplayers g) = false
                                     /\ resultItemList g = null) (g :: groups))).
    { intros r Hnot. rewrite IH. split; [intros H; right; exact H|].
      intros H. inversion H as [? ? Hhd|? ? Htl]; subst; [tauto|exact Htl]. }
    destruct (numplayers g) as [| |bucket] eqn:Hbucket; cbn [bind];
      try (apply Hskip; cbn; intros [? _]; discriminate).
    destruct (resultItemList g) as [| |options] eqn:Hlist; cbn [bind];
      try (apply Hskip; intros [_ ?]; discriminate).
    + split; [intros _; left; split; [rewrite Hbucket; reflexivity|exact Hlist]|reflexivity].
    + destruct (negb _); cbn [bind]; apply Hskip; intros [_ ?]; discriminate.
Qed.

Lemma bind_throws {A B} (c : completion A) (k : A -> completion B) :
  (forall a, k a <> Throw TypeError) ->
  (bind c k = Throw TypeError <-> c = Throw TypeError).
Proof.
  intros Hk. destruct c as [a|[]]; cbn; [|tauto].
  split; [intros H; destruct (Hk a H)|discriminate].
Qed.

Lemma parsePlayerAgePoll_throws (p : BggPollDto) :
  parsePlayerAgePoll p = Throw TypeError <-> agePollThrows p.
Proof.
  unfold parsePlayerAgePoll, agePollThrows. fold (totalVotesOf p).
  destruct (results p) as [| |groups];
    [split; [discriminate|intros (? & H & _); discriminate]..|].
  destruct groups as [|g groups].
  { split; [discriminate|]. intros (groups & H & _ & Hex).
    injection H as <-. inversion Hex. }
  destruct (totalVotesOf p =? 0)%float.
  { split; [discriminate|]. intros (? & _ & H & _). discriminate. }
  rewrite bind_throws by discriminate. rewrite foldM_pushAgeGroup_throws.
  split.
  - intros H. exists (g :: groups). auto.
  - intros (groups' & H & _ & Hex). injection H as <-. exact Hex.
Qed.

Lemma parseNumPlayersPoll_throws (p : BggPollDto) :
  parseNumPlayersPoll p = Throw TypeError <-> playerPollThrows p.
Proof.
  unfold parseNumPlayersPoll, playerPollThrows.
  destruct (results p) as [| |groups];
    [split; [discriminate|intros (? & H & _); discriminate]..|].
  destruct groups as [|g groups].
  { split; [discriminate|]. intros (groups & H & Hex).
    injection H as <-. inversion Hex. }
  rewrite bind_throws by discriminate. rewrite foldM_pushPlayerGroup_throws.
  split.
  - intros H. exists (g :: groups). auto.
  - intros (groups' & H & Hex). injection H as <-. exact Hex.
Qed.

Lemma calculateRecommendedAgeScore_throws (polls : nullable (list BggPollDto)) :
  calculateRecommendedAgeScore polls = Throw TypeError
  <-> exists p, findPoll polls "suggested_playerage" = present p /\ agePollThrows p.
Proof.
  unfold calculateRecommendedAgeScore.
  destruct (findPoll polls "suggested_playerage") as [| |p];
    [split; [discriminate|intros (? & H & _); discriminate]..|].
  rewrite parsePlayerAgePoll_throws. split.
  - intros H. exists p. auto.
  - intros (p' & H & Hthrows). injection H as <-. exact Hthrows.
Qed.

Lemma calculateRecommendedPlayerCountScore_throws (polls : nullable (list BggPollDto)) :
  calculateRecommendedPlayerCountScore polls = Throw TypeError
  <-> exists p, findPoll polls "suggested_numplayers" = present p /\ playerPollThrows p.
Proof.
  unfold calculateRecommendedPlayerCountScore.
  destruct (findPoll polls "suggested_numplayers") as [| |p];
    [split; [discriminate|intros (? & H & _); discriminate]..|].
  rewrite parseNumPlayersPoll_throws. split.
  - intros H. exists p. auto.
  - intros (p' & H & Hthrows). injection H as <-. exact Hthrows.
Qed.

Lemma parseGame_throws_iff (decode : string -> string -> string) (thing : BggThingDto) :
  parseGame decode thing = Throw TypeError
  <-> calculateRecommendedPlayerCountScore (polls thing) = Throw TypeError
      \/ calculateRecommendedAgeScore (polls thing) = Throw TypeError.
Proof.
  unfold parseGame.
  destruct (calculateRecommendedPlayerCountScore (polls thing)) as [players|[]];
    cbn [bind]; [|tauto].
  destruct (calculateRecommendedAgeScore (polls thing)) as [ages|[]]; cbn [bind].
  - split; [discriminate|]. intros [H|H]; discriminate.
  - tauto.
Qed.

(** X5.  Unguarded result groups make [parseGame] throw.  [parseGame]
    throws a [TypeError] whenever the poll named "suggested_numplayers"
    has a result group with a bucket whose option list is [null], and
    whenever the poll named "suggested_playerage" has result groups, a
    total that is not zero and a result group whose item list is
    [undefined] or [null], wherever in the poll that group stands and
    whatever the other groups hold. *)
Theorem parseGame_throws_on_unguarded_group
    (decode : string -> string -> string) (thing : BggThingDto) :
  (exists p, findPoll (polls thing) "suggested_numplayers" = present p
             /\ playerPollThrows p)
  \/ (exists p, findPoll (polls thing) "suggested_playerage" = present p
                /\ agePollThrows p) ->
  parseGame decode thing = Throw TypeError.
Proof.
  intros Hcase. apply parseGame_throws_iff.
  rewrite calculateRecommendedPlayerCountScore_throws,
    calculateRecommendedAgeScore_throws. exact Hcase.
Qed.

Lemma parseGame_throws_on_unguarded_group_witness :
  parseGame keepText thingWithBareAgeGroup = Throw TypeError.
Proof.
  apply (parseGame_throws_on_unguarded_group keepText thingWithBareAgeGroup).
  right. eexists. split; [reflexivity|].
  eexists. split; [reflexivity|]. split; [reflexivity|].
  left. reflexivity.
Defined.

(** ** [getTopRecommendation] on arbitrary scores *)






(** ** Missing polls and links *)

(** X7.  Defaults of [parseGame].  For an item that has no poll named
    "suggested_numplayers" and none named "suggested_playerage" (for
    instance because it has no polls at all), [parseGame] returns a game
    whose suggested player count, suggested age and both poll results are
    [undefined]; if its link list is [undefined] or [null] as well, the
    categories and the mechanics are empty lists. *)
Theorem parseGame_defaults (decode : string -> string -> string) (thing : BggThingDto) :
  findPoll (polls thing) "suggested_numplayers" = undefined ->
  findPoll (polls thing) "suggested_playerage" = undefined ->
  (forall ps, isNullish ps = true -> forall wanted, findPoll ps wanted = undefined)
  /\ exists game,
       parseGame decode thing = Return game
       /\ playerCount_suggested (playerCount game) = undefined
       /\ playerCount_pollResults (playerCount game) = undefined
       /\ age_suggested (age game) = undefined
       /\ age_pollResults (age game) = undefined
       /\ (isNullish (links thing) = true -> categories game = [] /\ mechanics game = []).
Proof.
  intros Hplayers Hage. split.
  { intros [| |ps] Hps wanted; [reflexivity..|discriminate]. }
  unfold parseGame, calculateRecommendedPlayerCountScore, calculateRecommendedAgeScore.
  rewrite Hplayers, Hage. cbn [bind].
  eexists. split; [reflexivity|].
  cbn [playerCount age playerCount_suggested playerCount_pollResults age_suggested
       age_pollResults categories mechanics].
  repeat split; destruct (links thing); try reflexivity; discriminate.
Qed.

Lemma parseGame_defaults_witness :
  exists game,
    parseGame keepText (thingWith undefined) = Return game
    /\ age_pollResults (age game) = undefined
    /\ categories game = [].
Proof.
  destruct (parseGame_defaults keepText (thingWith undefined))
    as (_ & game & Hgame & _ & _ & _ & Hage & Hlinks); [reflexivity..|].
  exists game. split; [exact Hgame|]. split; [exact Hage|].
  apply Hlinks. reflexivity.
Defined.
(** ** RecordNormalizer: the description text (lines 253-258) *)

Lemma length_append (a b : string) :
  String.length (a ++ b) = (String.length a + String.length b)%nat.
Proof. induction a as [|c a IH]; cbn; [reflexivity|rewrite IH; reflexivity]. Qed.

Lemma hasLineFeed_append (a b : string) :
  hasLineFeed (a ++ b) = hasLineFeed a || hasLineFeed b.
Proof.
  induction a as [|c a IH]; cbn; [reflexivity|].
  rewrite IH, orb_assoc. reflexivity.
Qed.

Lemma blankNumericRefs_length (s : string) :
  forall st,
    (String.length (blankNumericRefs st s)
     <= String.length (heldBack st) + String.length s)%nat.
Proof.
  induction s as [|c s IH]; intros st.
  - cbn. lia.
  - assert (Hrestart :
      (String.length (if Ascii.eqb c "&"
                      then (heldBack st ++ blankNumericRefs SeenAmp s)%string
                      else (heldBack st ++ String c (blankNumericRefs Plain s))%string)
       <= String.length (heldBack st) + String.length (String c s))%nat).
    { destruct (Ascii.eqb c "&"); rewrite length_append.
      - pose proof (IH SeenAmp) as H. cbn in H |- *. lia.
      - pose proof (IH Plain) as H. cbn in H |- *. lia. }
    destruct st as [| |digits]; cbn [blankNumericRefs].
    + exact Hrestart.
    + destruct (Ascii.eqb c "#"); [|exact Hrestart].
      pose proof (IH (SeenHash "")) as H. cbn in H |- *. lia.
    + destruct (isDigit c).
      * pose proof (IH (SeenHash (digits ++ String c ""))) as H.
        cbn [heldBack] in H |- *. rewrite !length_append in H.
        rewrite length_append. cbn in H |- *. lia.
      * destruct (Ascii.eqb c ";" && negb (digits =? "")%string); [|exact Hrestart].
        pose proof (IH Plain) as H. cbn in H |- *. lia.
Qed.

Lemma blankNewlines_length (s : string) :
  String.length (blankNewlines s) = String.length s.
Proof. induction s as [|c s IH]; cbn; [reflexivity|rewrite IH; reflexivity]. Qed.

Lemma blankNewlines_noLineFeed (s : string) : hasLineFeed (blankNewlines s) = false.
Proof.
  induction s as [|c s IH]; cbn; [reflexivity|]. rewrite IH, orb_false_r.
  destruct (Ascii.eqb c "010") eqn:Hc; [reflexivity|exact Hc].
Qed.

Lemma collapseWhiteSpace_length (s : string) :
  forall pending long,
    (String.length (collapseWhiteSpace pending long s)
     <= String.length s + match pending with Some _ => 1 | None => 0 end)%nat.
Proof.
  induction s as [|c s IH]; intros pending long.
  - destruct pending; cbn; lia.
  - cbn [collapseWhiteSpace]. destruct (isWhiteSpace c).
    + destruct pending.
      * pose proof (IH (Some a) true) as H. cbn in H |- *. lia.
      * pose proof (IH (Some c) false) as H. cbn in H |- *. lia.
    + rewrite length_append. pose proof (IH None false) as H.
      destruct pending; cbn in H |- *; lia.
Qed.

Lemma collapseWhiteSpace_noLineFeed (s : string) :
  forall pending long,
    hasLineFeed s = false ->
    match pending with Some c => Ascii.eqb c "010" = false | None => True end ->
    hasLineFeed (collapseWhiteSpace pending long s) = false.
Proof.
  induction s as [|c s IH]; intros pending long Hs Hp.
  - destruct pending as [p|]; cbn; [|reflexivity].
    destruct long; [reflexivity|]. rewrite Hp. reflexivity.
  - cbn [hasLineFeed] in Hs. apply orb_false_iff in Hs as [Hc Hs].
    cbn [collapseWhiteSpace]. destruct (isWhiteSpace c).
    + destruct pending as [p|]; apply IH; assumption.
    + rewrite hasLineFeed_append. cbn [hasLineFeed].
      rewrite Hc, (IH None false Hs I), orb_false_r.
      destruct pending as [p|]; cbn; [|reflexivity].
      destruct long; [reflexivity|]. rewrite Hp. reflexivity.
Qed.

Lemma collapseWhiteSpace_apart (s : string) :
  forall pending long,
    adjacentWhiteSpace (collapseWhiteSpace pending long s) = false.
Proof.
  induction s as [|c s IH]; intros pending long.
  - destruct pending; reflexivity.
  - cbn [collapseWhiteSpace]. destruct (isWhiteSpace c) eqn:Hc.
    + destruct pending; apply IH.
    + assert (Hrest : adjacentWhiteSpace (String c (collapseWhiteSpace None false s))
                      = false).
      { cbn [adjacentWhiteSpace]. pose proof (IH None false) as H.
        destruct (collapseWhiteSpace None false s); [reflexivity|].
        rewrite Hc, H. reflexivity. }
      destruct pending as [p|]; cbn [append]; [|exact Hrest].
      change (adjacentWhiteSpace
                (String (if long then " "%char else p)
                        (String c (collapseWhiteSpace None false s))))
        with ((isWhiteSpace (if long then " "%char else p) && isWhiteSpace c)
              || adjacentWhiteSpace (String c (collapseWhiteSpace None false s))).
      rewrite Hc, andb_false_r. exact Hrest.
Qed.

Lemma cleanDescription_shape (decode : string -> string -> string) (text : string) :
  hasLineFeed (cleanDescription decode text) = false
  /\ adjacentWhiteSpace (cleanDescription decode text) = false
  /\ (String.length (cleanDescription decode text)
      <= String.length (decode (decode text "html5"%string) "html4"%string))%nat.
Proof.
  unfold cleanDescription. split; [|split].
  - apply collapseWhiteSpace_noLineFeed; [apply blankNewlines_noLineFeed|exact I].
  - apply collapseWhiteSpace_apart.
  - pose proof (collapseWhiteSpace_length
                  (blankNewlines (blankNumericRefs Plain
                                    (decode (decode text "html5"%string) "html4"%string)))
                  None false) as H1.
    rewrite blankNewlines_length in H1.
    pose proof (blankNumericRefs_length (decode (decode text "html5"%string) "html4"%string) Plain) as H2.
    cbn [heldBack String.length] in H2. lia.
Qed.

Lemma isAsciiText_append (a b : string) :
  isAsciiText (a ++ b) = isAsciiText a && isAsciiText b.
Proof.
  induction a as [|c a IH]; cbn [append isAsciiText]; [reflexivity|].
  rewrite IH, andb_assoc. reflexivity.
Qed.

Lemma blankNumericRefs_ascii (s : string) :
  forall st,
    isAsciiText (heldBack st) = true -> isAsciiText s = true ->
    isAsciiText (blankNumericRefs st s) = true.
Proof.
  induction s as [|c s IH]; intros st Hst Hs; [exact Hst|].
  cbn [isAsciiText] in Hs. apply andb_true_iff in Hs as [Hc Hs].
  assert (Hrestart :
    isAsciiText (if Ascii.eqb c "&"
                 then (heldBack st ++ blankNumericRefs SeenAmp s)%string
                 else (heldBack st ++ String c (blankNumericRefs Plain s))%string)
    = true).
  { destruct (Ascii.eqb c "&"); rewrite isAsciiText_append, Hst; cbn [andb isAsciiText].
    - apply IH; [reflexivity|exact Hs].
    - rewrite Hc. apply IH; [reflexivity|exact Hs]. }
  destruct st as [| |digits]; cbn [blankNumericRefs].
  - exact Hrestart.
  - destruct (Ascii.eqb c "#"); [|exact Hrestart]. apply IH; [reflexivity|exact Hs].
  - destruct (isDigit c).
    + apply IH; [|exact Hs]. cbn [heldBack] in Hst |- *.
      change ("&#" ++ digits ++ String c "")%string
        with (String "&" (String "#" (digits ++ String c ""))).
      change ("&#" ++ digits)%string with (String "&" (String "#" digits)) in Hst.
      cbn [isAsciiText] in Hst |- *. rewrite isAsciiText_append.
      cbn [isAsciiText]. rewrite Hc.
      destruct (isAsciiText digits); [reflexivity|].
      rewrite !andb_false_r in Hst. discriminate.
    + destruct (Ascii.eqb c ";" && negb (digits =? "")%string); [|exact Hrestart].
      cbn [isAsciiText]. apply IH; [reflexivity|exact Hs].
Qed.

Lemma blankNewlines_ascii (s : string) :
  isAsciiText s = true -> isAsciiText (blankNewlines s) = true.
Proof.
  induction s as [|c s IH]; intros Hs; [reflexivity|].
  cbn [isAsciiText] in Hs. apply andb_true_iff in Hs as [Hc Hs].
  cbn [blankNewlines isAsciiText]. rewrite (IH Hs), andb_true_r.
  destruct (Ascii.eqb c "010"); [reflexivity|exact Hc].
Qed.

Lemma collapseWhiteSpace_ascii (s : string) :
  forall pending long,
    isAsciiText s = true ->
    match pending with Some c => (nat_of_ascii c <? 128)%nat = true | None => True end ->
    isAsciiText (collapseWhiteSpace pending long s) = true.
Proof.
  induction s as [|c s IH]; intros pending long Hs Hp.
  - destruct pending as [p|]; cbn [collapseWhiteSpace isAsciiText append]; [|reflexivity].
    destruct long; [reflexivity|]. rewrite Hp. reflexivity.
  - cbn [isAsciiText] in Hs. apply andb_true_iff in Hs as [Hc Hs].
    cbn [collapseWhiteSpace]. destruct (isWhiteSpace c).
    + destruct pending as [p|]; apply IH; assumption.
    + rewrite isAsciiText_append. cbn [isAsciiText].
      rewrite Hc, (IH None false Hs I), andb_true_r.
      destruct pending as [p|]; cbn [collapseWhiteSpace isAsciiText append]; [|reflexivity].
      destruct long; [reflexivity|]. rewrite Hp. reflexivity.
Qed.

(** X8.  The shape of a cleaned description.  When [parseGame] returns a
    game and the decoded description is ASCII text, the description of
    the game is ASCII text with no line feed and no two white-space
    characters next to each other, and it is not longer than the decoded
    text. *)
Theorem description_is_single_spaced
    (decode : string -> string -> string) (thing : BggThingDto) (game : Game) :
  parseGame decode thing = Return game ->
  isAsciiText (decode (decode (thing_description thing) "html5"%string) "html4"%string)
  = true ->
  isAsciiText (description game) = true
  /\ hasLineFeed (description game) = false
  /\ adjacentWhiteSpace (description game) = false
  /\ (String.length (description game)
      <= String.length
           (decode (decode (thing_description thing) "html5"%string) "html4"%string))%nat.
Proof.
  intros Hgame Hascii.
  assert (Hdesc : description game = cleanDescription decode (thing_description thing)).
  { unfold parseGame in Hgame.
    destruct (calculateRecommendedPlayerCountScore (polls thing)); [|discriminate].
    destruct (calculateRecommendedAgeScore (polls thing)); [|discriminate].
    cbn [bind] in Hgame.
    apply (f_equal (fun c => match c with
                             | Return g => description g
                             | Throw _ => EmptyString
                             end)) in Hgame.
    cbn [description] in Hgame. symmetry. exact Hgame. }
  rewrite Hdesc. split; [|apply cleanDescription_shape].
  unfold cleanDescription. apply collapseWhiteSpace_ascii; [|exact I].
  apply blankNewlines_ascii. apply blankNumericRefs_ascii; [reflexivity|exact Hascii].
Qed.

Lemma description_is_single_spaced_witness :
  exists game,
    parseGame keepText describedThing = Return game
    /\ description game = "Roll the dice now"%string
    /\ adjacentWhiteSpace (description game) = false.
Proof.
  destruct (parseGame keepText describedThing) as [game|e] eqn:Hgame;
    [|vm_compute in Hgame; discriminate].
  exists game.
  destruct (description_is_single_spaced keepText describedThing game Hgame)
    as (_ & _ & Hapart & _); [reflexivity|].
  split; [reflexivity|]. split; [|exact Hapart].
  apply (f_equal (fun c => match c with
                           | Return g => description g
                           | Throw _ => EmptyString
                           end)) in Hgame.
  symmetry. exact Hgame.
Defined.

Lemma blankNumericRefs_plain (pre : string) :
  forall s,
    hasAmpersand pre = false ->
    blankNumericRefs Plain (pre ++ s) = (pre ++ blankNumericRefs Plain s)%string.
Proof.
  induction pre as [|c pre IH]; intros s Hpre; [reflexivity|].
  cbn [hasAmpersand] in Hpre. apply orb_false_iff in Hpre as [Hc Hpre].
  cbn [append blankNumericRefs heldBack]. rewrite Hc, (IH s Hpre). reflexivity.
Qed.

Lemma blankNumericRefs_digits (ds : string) :
  forall seen post,
    allDigits ds = true ->
    (seen ++ ds)%string <> EmptyString ->
    blankNumericRefs (SeenHash seen) (ds ++ String ";" post)
    = String " " (blankNumericRefs Plain post).
Proof.
  induction ds as [|d ds IH]; intros seen post Hds Hne.
  - cbn [append blankNumericRefs]. change (isDigit ";") with false.
    change (Ascii.eqb ";" ";") with true. cbn match.
    destruct (String.eqb_spec seen EmptyString) as [->|_]; [|reflexivity].
    contradiction Hne. reflexivity.
  - cbn [allDigits] in Hds. apply andb_true_iff in Hds as [Hd Hds].
    cbn [append blankNumericRefs]. rewrite Hd. apply IH; [exact Hds|].
    destruct seen; discriminate.
Qed.

(** X9.  What the first [replace] removes.  In a text whose prefix has no
    ampersand, a numeric character reference "&#digits;" with at least one
    digit becomes one space, the prefix stays as it is, and the rest is
    treated the same way; a prefix without ampersand alone is unchanged,
    and "&#;" (no digit) is kept. *)
Theorem blankNumericRefs_reference (pre ds post : string) :
  hasAmpersand pre = false ->
  allDigits ds = true ->
  ds <> EmptyString ->
  blankNumericRefs Plain (pre ++ "&#" ++ ds ++ ";" ++ post)
  = (pre ++ " " ++ blankNumericRefs Plain post)%string
  /\ blankNumericRefs Plain pre = pre
  /\ blankNumericRefs Plain (pre ++ "&#;" ++ post)
     = (pre ++ "&#;" ++ blankNumericRefs Plain post)%string.
Proof.
  intros Hpre Hds Hne. split; [|split].
  - rewrite (blankNumericRefs_plain pre _ Hpre). f_equal.
    cbn [append blankNumericRefs heldBack].
    change (Ascii.eqb "&" "&") with true. change (Ascii.eqb "#" "#") with true.
    cbn match. apply blankNumericRefs_digits; [exact Hds|exact Hne].
  - pose proof (blankNumericRefs_plain pre EmptyString Hpre) as H.
    assert (Hnil : forall s : string, (s ++ EmptyString)%string = s)
      by (induction s as [|c s IHs]; cbn; [reflexivity|rewrite IHs; reflexivity]).
    rewrite !Hnil in H. exact H.
  - rewrite (blankNumericRefs_plain pre _ Hpre). reflexivity.
Qed.

Lemma blankNumericRefs_reference_witness :
  blankNumericRefs Plain ("Price: " ++ "&#" ++ "8364" ++ ";" ++ "5 &amp; up")
  = ("Price: " ++ " " ++ blankNumericRefs Plain "5 &amp; up")%string.
Proof.
  apply (blankNumericRefs_reference "Price: " "8364" "5 &amp; up");
    [reflexivity|reflexivity|discriminate].
Defined.
(** ** IngestionLoop: whole runs *)

Section Runs.

Variable decode : string -> string -> string.
Variable Row : Type.
Variable rowId : Row -> float.
Variable options : Options.

Local Abbreviation size := (opt_batchSize options).
Local Abbreviation loop := (run decode rowId options).

Lemma writtenFiles_app (e1 e2 : list Effect) :
  writtenFiles (e1 ++ e2) = writtenFiles e1 ++ writtenFiles e2.
Proof. apply flat_map_app. Qed.

Lemma countFrom_succ (first : Z) (n : nat) :
  countFrom first (S n) = first :: countFrom (first + 1) n.
Proof.
  unfold countFrom. cbn [seq map]. rewrite Z.add_0_r. f_equal.
  rewrite <- seq_shift, map_map. apply map_ext. intros i. lia.
Qed.

Lemma retried_fields (n : nat) :
  forall st : LoopState Row,
    batch (retried rowId n st) = batch st
    /\ df (retried rowId n st) = df st
    /\ currentBatchCount (retried rowId n st) = currentBatchCount st
    /\ client (retried rowId n st) = (client st + n)%nat
    /\ batchesProcessed (stats (retried rowId n st)) = batchesProcessed (stats st)
    /\ List.length (errors (stats (retried rowId n st)))
       = (List.length (errors (stats st)) + n)%nat
    /\ queried (effects (retried rowId n st))
       = queried (effects st) ++ repeat (map rowId (batch st)) n
    /\ writtenFiles (effects (retried rowId n st)) = writtenFiles (effects st).
Proof.
  induction n as [|n IH]; intros st.
  - cbn [retried repeat]. rewrite app_nil_r, !Nat.add_0_r. repeat split; reflexivity.
  - cbn [retried]. destruct (IH (afterRejected rowId st))
      as (Hb & Hd & Hc & Hcl & Hp & He & Hq & Hw).
    rewrite Hb, Hd, Hc, Hcl, Hp, He, Hq, Hw. unfold afterRejected.
    cbn [batch df currentBatchCount client stats effects pushError errors batchesProcessed].
    rewrite length_app, queried_app, writtenFiles_app. cbn [List.length].
    repeat split; try lia.
    + rewrite <- app_assoc. f_equal.
    + apply app_nil_r.
Qed.

Lemma run_rejected (failed : list Attempt) :
  forall (rest : list Attempt) (st : LoopState Row),
    forallb isRejected failed = true ->
    batch st <> [] ->
    loop (failed ++ rest) st = loop rest (retried rowId (List.length failed) st).
Proof.
  induction failed as [|a failed IH]; intros rest st Hall Hb; [reflexivity|].
  cbn [forallb] in Hall. apply andb_true_iff in Hall as [Ha Hall].
  cbn [app run List.length retried].
  destruct (batch st) as [|r pending] eqn:Hbatch; [congruence|].
  unfold isRejected in Ha. destruct (fetched a) eqn:Hf; [|discriminate].
  rewrite (iteration_rejected decode Row rowId options a st Hf).
  apply IH; [exact Hall|]. unfold afterRejected. cbn [batch]. congruence.
Qed.

Lemma mapM_throws (things : list BggThingDto) :
  Exists (fun t => parseGame decode t = Throw TypeError) things ->
  mapM (parseGame decode) things = Throw TypeError.
Proof.
  induction 1 as [t things Ht|t things _ IH]; cbn [mapM].
  - rewrite Ht. reflexivity.
  - rewrite IH. destruct (parseGame decode t) as [g|[]]; reflexivity.
Qed.

Section NotDebug.

Hypothesis not_debug : opt_debug options = false.

Lemma run_numbers_files (env : list Attempt) :
  forall st st' : LoopState Row,
    loop env st = Continue st' \/ loop env st = Done st' ->
    exists n,
      batchesProcessed (stats st') = batchesProcessed (stats st) + Z.of_nat n
      /\ currentBatchCount st' = currentBatchCount st + Z.of_nat n
      /\ startingBatch (stats st') = startingBatch (stats st)
      /\ writtenFiles (effects st')
         = writtenFiles (effects st) ++ map batchFile (countFrom (currentBatchCount st) n).
Proof.
  induction env as [|a env IH]; intros st st' Hrun.
  - exists O. cbn [run] in Hrun. cbn. rewrite app_nil_r, !Z.add_0_r.
    destruct (batch st); destruct Hrun as [Hrun|Hrun]; inversion Hrun; auto.
  - cbn [run] in Hrun. destruct (batch st) as [|r pending] eqn:Hb.
    + exists O. cbn. rewrite app_nil_r, !Z.add_0_r.
      destruct Hrun as [Hrun|Hrun]; inversion Hrun; auto.
    + destruct (fetched a) as [|response] eqn:Hf.
      * rewrite (iteration_rejected decode Row rowId options a st Hf) in Hrun.
        destruct (IH _ _ Hrun) as (n & Hp & Hc & Hs & Hw).
        exists n. rewrite Hp, Hc, Hs, Hw. unfold afterRejected.
        cbn [stats effects currentBatchCount pushError batchesProcessed startingBatch].
        rewrite writtenFiles_app. cbn. rewrite app_nil_r. auto.
      * destruct (mapM (parseGame decode) (fetchedThings response)) as [games|e] eqn:Hg.
        -- rewrite (iteration_resolved decode Row rowId options a st response games Hf Hg)
             in Hrun.
           rewrite not_debug in Hrun.
           destruct (IH _ _ Hrun) as (n & Hp & Hc & Hs & Hw).
           exists (S n). rewrite Hp, Hc, Hs, Hw, countFrom_succ.
           unfold afterResolved. rewrite not_debug.
           cbn [stats effects currentBatchCount recordBatch batchesProcessed startingBatch].
           rewrite !writtenFiles_app.
           assert (Hsleep : writtenFiles
                              (if (timeTaken a <? 5000)%float
                               then [Sleep (5000 - timeTaken a)%float] else []) = [])
             by (destruct (timeTaken a <? 5000)%float; reflexivity).
           rewrite Hsleep, app_nil_r. cbn [writtenFiles flat_map app map].
           rewrite <- !app_assoc. cbn [app].
           repeat split; try lia;
             destruct (isEmptyResponse response); cbn; try lia; reflexivity.
        -- destruct (iteration_uncaught decode Row rowId options a st response e Hf Hg)
             as (stu & Hu).
           rewrite Hu in Hrun. destruct Hrun as [Hrun|Hrun]; discriminate.
Qed.

Hypothesis size_positive : 0 < size.

Lemma batchesFrom_nil (fuel : nat) (pending queue : list Row) :
  batchesFrom options (S fuel) pending queue = [] -> pending = [].
Proof. cbn [batchesFrom]. destruct pending; [reflexivity|]. destruct (splice0 _ _); discriminate. Qed.

Lemma run_completes (env : list Attempt) :
  forall (st : LoopState Row) (fuel : nat),
    Forall (transientOrDelivers decode) env ->
    planned Row options (batch st) (df st) ->
    (List.length (df st) < fuel)%nat ->
    (List.length (batchesFrom options fuel (batch st) (df st))
     <= List.length (durations env))%nat ->
    exists st',
      loop env st = Done st'
      /\ batchesProcessed (stats st')
         = batchesProcessed (stats st)
           + Z.of_nat (List.length (batchesFrom options fuel (batch st) (df st)))
      /\ batch st' = [] /\ df st' = [].
Proof.
  assert (Hidle : forall (st : LoopState Row) (fuel : nat) env',
             planned Row options (batch st) (df st) ->
             batch st = [] ->
             exists st',
               loop env' st = Done st'
               /\ batchesProcessed (stats st')
                  = batchesProcessed (stats st)
                    + Z.of_nat (List.length (batchesFrom options fuel (batch st) (df st)))
               /\ batch st' = [] /\ df st' = []).
  { intros st fuel env' [_ Hp] Hb. exists st.
    assert (Hrun : loop env' st = Done st) by (destruct env'; cbn [run]; rewrite Hb; reflexivity).
    rewrite Hb in *. split; [exact Hrun|]. split; [destruct fuel; cbn; lia|].
    split; [reflexivity|]. destruct Hp as [Hp|Hp]; [cbn in Hp; lia|exact Hp]. }
  induction env as [|a env IH]; intros st fuel Henv Hp Hfuel Hlen.
  - destruct fuel as [|fuel]; [lia|]. cbn [durations flat_map List.length] in Hlen.
    apply Hidle; [exact Hp|].
    apply (batchesFrom_nil fuel _ (df st)).
    destruct (batchesFrom options (S fuel) (batch st) (df st)); [reflexivity|cbn in Hlen; lia].
  - apply Forall_cons_iff in Henv as [Ha Henv].
    destruct fuel as [|fuel]; [lia|].
    destruct (batch st) as [|r pending] eqn:Hb.
    { destruct (Hidle st (S fuel) (a :: env)) as (st' & H1 & H2 & H3);
        [rewrite Hb; exact Hp|exact Hb|].
      rewrite Hb in H2. exists st'. auto. }
    cbn [run]. rewrite Hb.
    destruct Ha as [Hf|Ha].
    + rewrite (iteration_rejected decode Row rowId options a st Hf).
      destruct (IH (afterRejected rowId st) (S fuel) Henv) as (st' & Hrun & Hcount & Hend).
      * unfold afterRejected. cbn [batch df]. rewrite Hb. exact Hp.
      * unfold afterRejected. cbn [df]. exact Hfuel.
      * unfold afterRejected. cbn [batch df]. rewrite Hb.
        cbn [durations flat_map] in Hlen. rewrite Hf in Hlen. exact Hlen.
      * exists st'. split; [exact Hrun|]. split; [|exact Hend].
        rewrite Hcount. unfold afterRejected. cbn [batch df stats pushError batchesProcessed].
        rewrite Hb. reflexivity.
    + destruct (delivers_resolved decode a Ha) as (response & games & Hf & Hg).
      rewrite (iteration_resolved decode Row rowId options a st response games Hf Hg).
      rewrite not_debug.
      set (st1 := afterResolved rowId options a response games st).
      pose proof (planned_splice Row options size_positive (df st)) as Hnext.
      destruct (splice0_length size (df st)) as [Hl1 Hl2]; [lia|].
      assert (Hfuel' : exists fuel',
                (List.length (df st1) < fuel')%nat
                /\ batchesFrom options fuel' (batch st1) (df st1)
                   = batchesFrom options fuel (batch st1) (df st1)).
      { unfold st1, afterResolved. cbn [df batch].
        destruct (df st) as [|q queue] eqn:Hdf.
        - exists 1%nat. unfold splice0. cbn [fst snd]. rewrite skipn_nil, firstn_nil.
          split; [cbn; lia|]. destruct fuel; reflexivity.
        - exists fuel. split; [|reflexivity]. cbn [List.length] in *. lia. }
      destruct Hfuel' as (fuel' & Hlt & Hsame).
      assert (Hunfold : batchesFrom options (S fuel) (r :: pending) (df st)
                        = (r :: pending) :: batchesFrom options fuel (batch st1) (df st1)).
      { cbn [batchesFrom]. unfold st1, afterResolved. cbn [batch df].
        destruct (splice0 size (df st)) as [next queue']. reflexivity. }
      rewrite Hunfold in Hlen |- *. cbn [List.length] in Hlen |- *.
      cbn [durations flat_map] in Hlen. rewrite Hf in Hlen. cbn [app List.length] in Hlen.
      destruct (IH st1 fuel' Henv Hnext Hlt) as (st' & Hrun & Hcount & Hend).
      * rewrite Hsame. fold (durations env) in Hlen. lia.
      * exists st'. split; [exact Hrun|]. split; [|exact Hend].
        rewrite Hcount, Hsame. unfold st1 at 1, afterResolved, recordBatch.
        cbn [stats batchesProcessed].
        destruct (isEmptyResponse response); cbn [pushError batchesProcessed]; lia.
Qed.

End NotDebug.

End Runs.

(** X10.  Rejected queries are retried without limit.  When the queries
    of a run of passes all raise while a batch is pending, the loop is
    afterwards in the state [retried]: the same batch, queue and batch
    index, none of the batches counted as processed, no file written, one
    more error entry and one more client per pass, and the same
    identifiers queried once per pass.  The run is not over: it goes on
    with whatever the next query answers. *)
Theorem rejected_queries_are_retried_without_limit
    (decode : string -> string -> string) (Row : Type) (rowId : Row -> float)
    (options : Options) (failed rest : list Attempt) (st : LoopState Row) :
  forallb isRejected failed = true ->
  batch st <> [] ->
  run decode rowId options (failed ++ rest) st
  = run decode rowId options rest (retried rowId (List.length failed) st)
  /\ run decode rowId options failed st
     = Continue (retried rowId (List.length failed) st)
  /\ batch (retried rowId (List.length failed) st) = batch st
  /\ df (retried rowId (List.length failed) st) = df st
  /\ currentBatchCount (retried rowId (List.length failed) st) = currentBatchCount st
  /\ client (retried rowId (List.length failed) st)
     = (client st + List.length failed)%nat
  /\ batchesProcessed (stats (retried rowId (List.length failed) st))
     = batchesProcessed (stats st)
  /\ List.length (errors (stats (retried rowId (List.length failed) st)))
     = (List.length (errors (stats st)) + List.length failed)%nat
  /\ queried (effects (retried rowId (List.length failed) st))
     = queried (effects st) ++ repeat (map rowId (batch st)) (List.length failed)
  /\ writtenFiles (effects (retried rowId (List.length failed) st))
     = writtenFiles (effects st).
Proof.
  intros Hall Hb.
  pose proof (retried_fields Row rowId (List.length failed) st) as Hfields.
  split; [apply run_rejected; assumption|]. split; [|exact Hfields].
  pose proof (run_rejected decode Row rowId options failed [] st Hall Hb) as Hrun.
  rewrite app_nil_r in Hrun. rewrite Hrun. cbn [run].
  destruct Hfields as (Hbatch & _).
  destruct (batch (retried rowId (List.length failed) st)); [congruence|reflexivity].
Qed.

Lemma rejected_queries_are_retried_without_limit_witness :
  run keepText Z2f plain40 [rejectedAttempt; rejectedAttempt] (start plain40 rows95)
  = Continue (retried Z2f 2 (start plain40 rows95))
  /\ List.length (errors (stats (retried Z2f 2 (start plain40 rows95)))) = 2%nat.
Proof.
  destruct (rejected_queries_are_retried_without_limit keepText Z Z2f plain40
              [rejectedAttempt; rejectedAttempt] [] (start plain40 rows95))
    as (_ & Hrun & _ & _ & _ & _ & _ & Herr & _).
  - reflexivity.
  - discriminate.
  - split; [exact Hrun|exact Herr].
Defined.

Lemma start_counters (Row : Type) (options : Options) (rows : list Row) :
  batchesProcessed (stats (start options rows)) = 0
  /\ currentBatchCount (start options rows) = startingBatch (stats (start options rows))
  /\ effects (start options rows) = [].
Proof.
  unfold start. destruct (skipBatches options rows) as [skipped queue].
  destruct (splice0 (opt_batchSize options) queue) as [first queue'].
  repeat split; reflexivity.
Qed.

(** X11.  Output files are numbered consecutively.  Outside debug mode,
    at any point of a run from the start state the batch index is the
    starting batch plus the number of batches processed, and the batch
    files written so far are [batch_k.json] for k counting up from the
    starting batch, one per processed batch: a query that raises neither
    consumes a number nor writes a file. *)
Theorem output_files_are_numbered_consecutively
    (decode : string -> string -> string) (Row : Type) (rowId : Row -> float)
    (options : Options) (rows : list Row) (env : list Attempt) (st' : LoopState Row) :
  opt_debug options = false ->
  run decode rowId options env (start options rows) = Continue st'
  \/ run decode rowId options env (start options rows) = Done st' ->
  0 <= batchesProcessed (stats st')
  /\ currentBatchCount st' = startingBatch (stats st') + batchesProcessed (stats st')
  /\ writtenFiles (effects st')
     = map batchFile (countFrom (startingBatch (stats st'))
                                (Z.to_nat (batchesProcessed (stats st')))).
Proof.
  intros Hdebug Hrun.
  destruct (run_numbers_files decode Row rowId options Hdebug env _ _ Hrun)
    as (n & Hp & Hc & Hs & Hw).
  destruct (start_counters Row options rows) as (Hp0 & Hc0 & He0).
  rewrite Hp0 in Hp. rewrite He0 in Hw. cbn [writtenFiles flat_map app] in Hw.
  rewrite Hp, Hc, Hs, Hw, Hc0. cbn [Z.add]. rewrite Nat2Z.id.
  repeat split; lia.
Qed.

Lemma output_files_are_numbered_consecutively_witness :
  exists st',
    run keepText Z2f skip1of40
      [steadyAttempt; rejectedAttempt; steadyAttempt] (start skip1of40 rows95) = Done st'
    /\ currentBatchCount st' = startingBatch (stats st') + batchesProcessed (stats st')
    /\ writtenFiles (effects st')
       = map batchFile (countFrom (startingBatch (stats st'))
                                  (Z.to_nat (batchesProcessed (stats st')))).
Proof.
  destruct (run keepText Z2f skip1of40
              [steadyAttempt; rejectedAttempt; steadyAttempt] (start skip1of40 rows95))
    as [st'|st'|st'|e st'] eqn:Hrun; try (vm_compute in Hrun; discriminate).
  exists st'. split; [reflexivity|].
  apply (output_files_are_numbered_consecutively keepText Z Z2f skip1of40 rows95
           [steadyAttempt; rejectedAttempt; steadyAttempt] st' eq_refl).
  right. exact Hrun.
Defined.

(** X12.  Every planned batch is processed.  Outside debug mode and with
    a positive batch size, if every query either raises or delivers, and
    at least as many queries resolve as there are planned batches, the
    run ends with the loop condition false: batch and queue are empty, the
    number of batches processed is the number of planned batches, and one
    batch file has been written for each of them, numbered from the
    starting batch. *)
Theorem every_planned_batch_is_processed
    (decode : string -> string -> string) (Row : Type) (rowId : Row -> float)
    (options : Options) (rows : list Row) (env : list Attempt) :
  opt_debug options = false ->
  0 < opt_batchSize options ->
  Forall (transientOrDelivers decode) env ->
  (List.length (plannedBatches options rows) <= List.length (durations env))%nat ->
  exists st',
    run decode rowId options env (start options rows) = Done st'
    /\ batch st' = [] /\ df st' = []
    /\ batchesProcessed (stats st')
       = Z.of_nat (List.length (plannedBatches options rows))
    /\ writtenFiles (effects st')
       = map batchFile (countFrom (startingBatch (stats st'))
                                  (List.length (plannedBatches options rows))).
Proof.
  intros Hdebug Hsize Henv Hlen. unfold plannedBatches in *.
  destruct (run_completes decode Row rowId options Hdebug Hsize env
              (start options rows) (S (List.length rows)) Henv)
    as (st' & Hrun & Hcount & Hb & Hd).
  - apply start_planned. exact Hsize.
  - apply plannedBatches_fuel. exact Hsize.
  - exact Hlen.
  - exists st'. split; [exact Hrun|]. split; [exact Hb|]. split; [exact Hd|].
    destruct (start_counters Row options rows) as (Hp0 & _).
    rewrite Hp0 in Hcount. cbn [Z.add] in Hcount. split; [exact Hcount|].
    destruct (run_numbers_files decode Row rowId options Hdebug env _ _ (or_intror Hrun))
      as (n & Hp & _ & Hs & Hw).
    destruct (start_counters Row options rows) as (_ & Hc0 & He0).
    rewrite Hp0 in Hp. rewrite He0 in Hw. cbn [writtenFiles flat_map app] in Hw.
    assert (Hn : n = List.length
                       (batchesFrom options (S (List.length rows))
                                    (batch (start options rows)) (df (start options rows))))
      by lia.
    rewrite Hw, Hs, <- Hc0, <- Hn. reflexivity.
Qed.

Lemma every_planned_batch_is_processed_witness :
  exists st',
    run keepText Z2f plain40
      [steadyAttempt; rejectedAttempt; steadyAttempt; steadyAttempt]
      (start plain40 rows95) = Done st'
    /\ batch st' = [] /\ df st' = []
    /\ batchesProcessed (stats st') = Z.of_nat (List.length (plannedBatches plain40 rows95)).
Proof.
  destruct (every_planned_batch_is_processed keepText Z Z2f plain40 rows95
              [steadyAttempt; rejectedAttempt; steadyAttempt; steadyAttempt])
    as (st' & Hrun & Hb & Hd & Hcount & _).
  - reflexivity.
  - reflexivity.
  - repeat apply Forall_cons; try apply Forall_nil;
      first [left; reflexivity|right; eexists; reflexivity].
  - vm_compute. lia.
  - exists st'. repeat split; assumption.
Defined.

(** X13.  Debug mode stops after one batch.  In debug mode the run ends
    with the first query that resolves to items the normaliser accepts,
    whatever queries raised before it and whatever would follow: the
    process exits with code 0 after one more batch is counted, having
    written the batch file and the raw file of the current batch index
    into [./debug]; the batch index is not advanced. *)
Theorem debug_run_stops_after_one_batch
    (decode : string -> string -> string) (Row : Type) (rowId : Row -> float)
    (options : Options) (failed rest : list Attempt) (a : Attempt)
    (response : nullable (list BggThingDto)) (games : list Game)
    (st : LoopState Row) :
  opt_debug options = true ->
  batch st <> [] ->
  forallb isRejected failed = true ->
  fetched a = Resolved response ->
  mapM (parseGame decode) (fetchedThings response) = Return games ->
  exists st',
    run decode rowId options (failed ++ a :: rest) st = Exited st'
    /\ batchesProcessed (stats st') = batchesProcessed (stats st) + 1
    /\ currentBatchCount st' = currentBatchCount st
    /\ writtenFiles (effects st')
       = writtenFiles (effects st)
         ++ [("./debug/batch_" ++ numToString (currentBatchCount st) ++ ".json")%string]
    /\ exists before,
         effects st'
         = before
           ++ [WriteRaw ("./debug/batch_" ++ numToString (currentBatchCount st)
                         ++ "-raw.json") (fetchedThings response);
               Exit 0].
Proof.
  intros Hdebug Hb Hfailed Hf Hg.
  rewrite (run_rejected decode Row rowId options failed (a :: rest) st Hfailed Hb).
  destruct (retried_fields Row rowId (List.length failed) st)
    as (Hbatch & _ & Hc & _ & Hp & _ & _ & Hw).
  set (st0 := retried rowId (List.length failed) st) in *.
  cbn [run]. destruct (batch st0) as [|r pending] eqn:Hb0; [congruence|].
  rewrite (iteration_resolved decode Row rowId options a st0 response games Hf Hg).
  rewrite Hdebug. eexists. split; [reflexivity|].
  unfold afterResolved. rewrite Hdebug.
  cbn [stats effects currentBatchCount recordBatch batchesProcessed].
  rewrite Hc. split; [|split; [reflexivity|split]].
  - rewrite <- Hp. destruct (isEmptyResponse response); reflexivity.
  - rewrite !writtenFiles_app, Hw. reflexivity.
  - eexists. rewrite app_assoc. reflexivity.
Qed.

Lemma debug_run_stops_after_one_batch_witness :
  exists st',
    run keepText Z2f debug40 ([rejectedAttempt] ++ steadyAttempt :: [steadyAttempt])
        (start debug40 rows95) = Exited st'
    /\ batchesProcessed (stats st') = 1
    /\ writtenFiles (effects st') = ["./debug/batch_1.json"%string].
Proof.
  destruct (debug_run_stops_after_one_batch keepText Z Z2f debug40
              [rejectedAttempt] [steadyAttempt] steadyAttempt
              (present [thingWith undefined])
              match mapM (parseGame keepText) [thingWith undefined] with
              | Return games => games
              | Throw _ => []
              end
              (start debug40 rows95))
    as (st' & Hrun & Hp & _ & Hw & _).
  - reflexivity.
  - discriminate.
  - reflexivity.
  - reflexivity.
  - reflexivity.
  - exists st'. split; [exact Hrun|]. split; [exact Hp|exact Hw].
Defined.

Lemma skipn_nil_iff {A} (n : nat) (l : list A) :
  skipn n l = [] <-> (List.length l <= n)%nat.
Proof.
  split.
  - intros H. apply (f_equal (@List.length A)) in H. rewrite length_skipn in H.
    cbn in H. lia.
  - apply skipn_all2.
Qed.

Lemma firstn_nil_iff {A} (n : nat) (l : list A) :
  firstn n l = [] <-> n = O \/ l = [].
Proof.
  destruct n, l; cbn; split; auto; try discriminate; intros [H|H]; discriminate.
Qed.

(** X14.  Nothing to fetch.  The loop is entered with an empty batch
    exactly when the input has no rows, the batch size is zero or
    negative, or the resume offset reaches the end of the input.  In that
    case the run is over at once, whatever the remote service would
    answer: no query is made, no file is written and no batch is
    counted. *)
Theorem nothing_to_fetch_makes_no_query
    (decode : string -> string -> string) (Row : Type) (rowId : Row -> float)
    (options : Options) (rows : list Row) :
  (batch (start options rows) = [] <-> nothingToFetch options rows)
  /\ (nothingToFetch options rows ->
      forall env,
        run decode rowId options env (start options rows) = Done (start options rows)
        /\ effects (start options rows) = []
        /\ batchesProcessed (stats (start options rows)) = 0).
Proof.
  assert (Hiff : batch (start options rows) = [] <-> nothingToFetch options rows).
  { unfold start, skipBatches, nothingToFetch, splice0.
    destruct (opt_skipBatchCount options) as [| |n]; cbn [fst snd batch];
      rewrite firstn_nil_iff, ?skipn_nil_iff.
    - split.
      + intros [H|H]; [right; left; lia|left; exact H].
      + intros [H|[H|(n & H & _)]]; [right; exact H|left; lia|discriminate].
    - split.
      + intros [H|H]; [right; left; lia|left; exact H].
      + intros [H|[H|(n & H & _)]]; [right; exact H|left; lia|discriminate].
    - split.
      + intros [H|H]; [right; left; lia|].
        destruct (Z.le_gt_cases (opt_batchSize options) 0) as [Hs|Hs]; [right; left; exact Hs|].
        destruct (Z.le_gt_cases 0 (n * opt_batchSize options)) as [Hn|Hn].
        * right. right. exists n. split; [reflexivity|]. lia.
        * left. destruct rows; [reflexivity|].
          replace (Z.to_nat (n * opt_batchSize options)) with O in H by lia.
          cbn in H. lia.
      + intros [H|[H|(n' & H & Hlen)]].
        * right. subst rows. cbn. lia.
        * left. lia.
        * injection H as <-. right. lia. }
  split; [exact Hiff|]. intros Hnothing env.
  apply Hiff in Hnothing.
  destruct (start_counters Row options rows) as (Hp & _ & He).
  split; [|split; assumption].
  destruct env; cbn [run]; rewrite Hnothing; reflexivity.
Qed.

(** X15.  An exception of the normaliser aborts the run.  When a query
    resolves to items of which [parseGame] throws on one, the exception
    leaves the loop: the pass ends right after the query, no file is
    written for the batch, no error entry is added, the batch is not
    counted, and no later query is made. *)
Theorem normaliser_exception_aborts_run
    (decode : string -> string -> string) (Row : Type) (rowId : Row -> float)
    (options : Options) (a : Attempt) (env : list Attempt)
    (things : list BggThingDto) (st : LoopState Row) :
  batch st <> [] ->
  fetched a = Resolved (present things) ->
  Exists (fun t => parseGame decode t = Throw TypeError) things ->
  run decode rowId options (a :: env) st = Uncaught TypeError (abortedAt rowId st).
Proof.
  intros Hb Hf Hthrow. cbn [run].
  destruct (batch st) as [|r pending] eqn:Hbatch; [congruence|].
  pose proof (mapM_throws decode things Hthrow) as Hmap.
  unfold iteration, abortedAt. rewrite Hf, Hbatch.
  destruct things as [|t ts]; [inversion Hthrow|].
  rewrite Hmap. reflexivity.
Qed.

Lemma normaliser_exception_aborts_run_witness :
  run keepText Z2f plain40
    [ {| fetched := Resolved (present thingsWithBareAgeGroup); timeTaken := 100 |};
      steadyAttempt ]
    (start plain40 rows95)
  = Uncaught TypeError (abortedAt Z2f (start plain40 rows95)).
Proof.
  apply (normaliser_exception_aborts_run keepText Z Z2f plain40
           {| fetched := Resolved (present thingsWithBareAgeGroup); timeTaken := 100 |}
           [steadyAttempt] thingsWithBareAgeGroup (start plain40 rows95)).
  - discriminate.
  - reflexivity.
  - right. left. reflexivity.
Defined.

Lemma run_ledger
    (decode : string -> string -> string) (Row : Type) (rowId : Row -> float)
    (options : Options) (env : list Attempt) :
  forall st st' : LoopState Row,
    run decode rowId options env st = Continue st'
    \/ run decode rowId options env st = Done st' ->
    exists used rest,
      env = used ++ rest
      /\ (rest = [] \/ batch st' = [])
      /\ List.length (errors (stats st'))
         = (List.length (errors (stats st)) + List.length (filter leavesError used))%nat
      /\ batchesProcessed (stats st')
         = batchesProcessed (stats st) + Z.of_nat (List.length (durations used))
      /\ List.length (queried (effects st'))
         = (List.length (queried (effects st)) + List.length used)%nat.
Proof.
  induction env as [|a env IH]; intros st st' Hrun.
  - exists [], []. cbn [run] in Hrun. cbn. rewrite !Nat.add_0_r, Z.add_0_r.
    destruct (batch st); destruct Hrun as [Hrun|Hrun]; inversion Hrun; auto.
  - cbn [run] in Hrun. destruct (batch st) as [|r pending] eqn:Hb.
    + exists [], (a :: env). cbn. rewrite !Nat.add_0_r, Z.add_0_r.
      destruct Hrun as [Hrun|Hrun]; inversion Hrun; subst; auto 6.
    + destruct (fetched a) as [|response] eqn:Hf.
      * rewrite (iteration_rejected decode Row rowId options a st Hf) in Hrun.
        destruct (IH _ _ Hrun) as (used & rest & -> & Hrest & He & Hp & Hq).
        exists (a :: used), rest. split; [reflexivity|]. split; [exact Hrest|].
        cbn [filter durations flat_map]. unfold leavesError at 1. rewrite Hf.
        fold (durations used). cbn [app List.length].
        rewrite He, Hp, Hq. unfold afterRejected.
        cbn [stats effects pushError errors batchesProcessed].
        rewrite length_app, queried_app, length_app. cbn. repeat split; lia.
      * destruct (mapM (parseGame decode) (fetchedThings response)) as [games|e] eqn:Hg.
        -- rewrite (iteration_resolved decode Row rowId options a st response games Hf Hg)
             in Hrun.
           destruct (opt_debug options) eqn:Hdebug;
             [destruct Hrun as [Hrun|Hrun]; discriminate|].
           destruct (IH _ _ Hrun) as (used & rest & -> & Hrest & He & Hp & Hq).
           exists (a :: used), rest. split; [reflexivity|]. split; [exact Hrest|].
           cbn [filter durations flat_map]. unfold leavesError at 1. rewrite Hf.
           fold (durations used). cbn [app List.length].
           rewrite He, Hp, Hq, queried_afterResolved, length_app.
           unfold afterResolved, recordBatch.
           cbn [stats errors batchesProcessed List.length].
           destruct (isEmptyResponse response);
             cbn [pushError errors batchesProcessed List.length];
             rewrite ?length_app; cbn [List.length]; repeat split; lia.
        -- destruct (iteration_uncaught decode Row rowId options a st response e Hf Hg)
             as (stu & Hu).
           rewrite Hu in Hrun. destruct Hrun as [Hrun|Hrun]; discriminate.
Qed.

(** X20.  The error ledger of a run.  When a run from the start state
    stops because the batches or the answers have run out, the queries it
    made are the answers it used, [stats.errors] has one entry for each of
    them that raised or resolved to nothing, and [batchesProcessed] counts
    the ones that resolved, the empty ones included: an empty answer is
    both an error and a processed batch. *)
Theorem errors_count_failed_attempts
    (decode : string -> string -> string) (Row : Type) (rowId : Row -> float)
    (options : Options) (rows : list Row) (env : list Attempt) (st' : LoopState Row) :
  run decode rowId options env (start options rows) = Continue st'
  \/ run decode rowId options env (start options rows) = Done st' ->
  exists used rest,
    env = used ++ rest
    /\ (rest = [] \/ batch st' = [])
    /\ List.length (queried (effects st')) = List.length used
    /\ List.length (errors (stats st')) = List.length (filter leavesError used)
    /\ batchesProcessed (stats st') = Z.of_nat (List.length (durations used)).
Proof.
  intros Hrun.
  destruct (run_ledger decode Row rowId options env _ _ Hrun)
    as (used & rest & Henv & Hrest & He & Hp & Hq).
  exists used, rest. split; [exact Henv|]. split; [exact Hrest|].
  destruct (start_counters Row options rows) as (Hp0 & _ & He0).
  rewrite Hp0 in Hp. rewrite He0 in Hq.
  assert (Herr0 : errors (stats (start options rows)) = []).
  { unfold start. destruct (skipBatches options rows) as [skipped queue].
    destruct (splice0 (opt_batchSize options) queue). reflexivity. }
  rewrite Herr0 in He. cbn in He, Hq. repeat split; lia.
Qed.

Lemma errors_count_failed_attempts_witness :
  exists st' used rest,
    run keepText Z2f plain40 [rejectedAttempt; emptyAttempt; quickAttempt; quickAttempt]
        (start plain40 rows95) = Done st'
    /\ [rejectedAttempt; emptyAttempt; quickAttempt; quickAttempt] = used ++ rest
    /\ List.length (errors (stats st')) = List.length (filter leavesError used)
    /\ batchesProcessed (stats st') = Z.of_nat (List.length (durations used)).
Proof.
  destruct (run keepText Z2f plain40
              [rejectedAttempt; emptyAttempt; quickAttempt; quickAttempt]
              (start plain40 rows95))
    as [st'|st'|st'|e st'] eqn:Hrun; try (vm_compute in Hrun; discriminate).
  destruct (errors_count_failed_attempts keepText Z Z2f plain40 rows95
              [rejectedAttempt; emptyAttempt; quickAttempt; quickAttempt] st'
              (or_intror Hrun))
    as (used & rest & Henv & _ & _ & He & Hp).
  exists st', used, rest. repeat split; assumption.
Defined.
(** ** StatsTracker: the total batch count (line 303) *)

Lemma Math_ceil_up (x : float) (K : Z) :
  finiteF x -> SFsign (Prim2SF x) = false ->
  1 <= K < 2 ^ 52 ->
  (IZR (K - 1) < Fmag x <= IZR K)%R ->
  Math_ceil x = Z2f K.
Proof.
  unfold finiteF, Fmag, Math_ceil. intros Hfin Hsign HK [Hlo Hhi].
  pose proof (Prim2SF_valid x) as Hvalid.
  assert (HK0 : (0 <= IZR (K - 1))%R) by (apply IZR_le; lia).
  destruct (Prim2SF x) as [s|s| |s m e] eqn:Hx; try contradiction;
    cbn [SFsign] in Hsign; subst s; cbn [SFmag] in Hlo, Hhi; [lra|].
  assert (He : e <= -1).
  { pose proof (valid_exponent false m e 52 Hvalid) as H. cbn [SFmag] in H.
    assert (Hlt : (IZR (Zpos m) * pow2 e < pow2 52)%R).
    { rewrite (pow2_IZR 52) by lia. apply Rle_lt_trans with (1 := Hhi).
      apply IZR_lt. lia. }
    specialize (H Hlt). lia. }
  replace (0 <=? e) with false by (symmetry; apply Z.leb_gt; lia).
  cbn [cond_Zopp]. rewrite Z.shiftr_div_pow2 by lia.
  set (D := 2 ^ (- e)).
  assert (HD : 0 < D) by (apply Z.pow_pos_nonneg; lia).
  assert (Hone : (pow2 e * IZR D = 1)%R).
  { unfold D. rewrite <- pow2_IZR by lia. rewrite <- pow2_add.
    replace (e + - e) with 0 by lia. apply pow2_0. }
  assert (HDr : (0 < IZR D)%R) by (apply IZR_lt; lia).
  pose proof (pow2_pos e) as Hp.
  assert (Hm1 : (K - 1) * D < Zpos m).
  { apply lt_IZR. rewrite mult_IZR.
    apply Rmult_lt_reg_r with (r := pow2 e); [exact Hp|].
    rewrite Rmult_assoc, (Rmult_comm (IZR D)), Hone. lra. }
  assert (Hm2 : Zpos m <= K * D).
  { apply le_IZR. rewrite mult_IZR.
    apply Rmult_le_reg_r with (r := pow2 e); [exact Hp|].
    rewrite (Rmult_assoc (IZR K)), (Rmult_comm (IZR D)), Hone. lra. }
  assert (Hq : (- Zpos m) / D = - K).
  { symmetry. apply (Z.div_unique_pos _ _ _ (K * D - Zpos m)); lia. }
  change (- Z.pos m) with (- Zpos m). rewrite Hq, Z.opp_involutive.
  replace (K =? 0) with false by (symmetry; apply Z.eqb_neq; lia).
  reflexivity.
Qed.

Lemma ceilDiv_bounds (len bs : Z) :
  0 < len -> 0 < bs ->
  1 <= ceilDiv len bs <= len
  /\ bs * (ceilDiv len bs - 1) < len <= bs * ceilDiv len bs.
Proof.
  intros Hlen Hbs. unfold ceilDiv.
  pose proof (Z.div_mod (len + bs - 1) bs ltac:(lia)) as Hdm.
  pose proof (Z.mod_pos_bound (len + bs - 1) bs Hbs) as Hmod.
  split; [|lia]. split; [nia|].
  apply Z.lt_succ_r. apply Z.div_lt_upper_bound; nia.
Qed.

Lemma quotient_ceiling (len bs : Z) :
  0 <= len < 2 ^ 52 -> 0 < bs < 2 ^ 53 ->
  Math_ceil (Z2f len / Z2f bs) = Z2f (ceilDiv len bs).
Proof.
  intros Hlen Hbs.
  destruct (Z2f_exact len ltac:(lia)) as [Hlf Hlv].
  destruct (Z2f_exact bs ltac:(lia)) as [Hbf Hbv].
  assert (Hlm : Fmag (Z2f len) = IZR len)
    by (rewrite Fmag_Z2f, Z.abs_eq by lia; reflexivity).
  assert (Hbm : Fmag (Z2f bs) = IZR bs)
    by (rewrite Fmag_Z2f, Z.abs_eq by lia; reflexivity).
  assert (Hb0 : (0 < IZR bs)%R) by (apply IZR_lt; lia).
  assert (Hsigns : xorb (SFsign (Prim2SF (Z2f len))) (SFsign (Prim2SF (Z2f bs))) = false)
    by (rewrite (Z2f_sign len), (Z2f_sign bs) by lia; reflexivity).
  destruct (Z.eq_dec len 0) as [->|Hne].
  - (* no rows: 0 / batchSize is +0 *)
    destruct (Fdiv_between (Z2f 0) (Z2f bs) 0 0 0) as (Hqf & Hqs & Hq);
      [assumption|assumption|rewrite Hbv; lra|lia| | |].
    { rewrite Hlm, Hbm, (pow2_IZR (0 + 53)) by lia. unfold Rdiv. rewrite Rmult_0_l.
      apply IZR_lt. reflexivity. }
    { rewrite Hlm, Hbm. unfold Rdiv. rewrite !Rmult_0_l. lra. }
    rewrite Hsigns in Hqs. rewrite !Rmult_0_l in Hq.
    unfold ceilDiv. rewrite Z.div_small by lia.
    unfold Math_ceil. unfold Fmag in Hq. unfold finiteF in Hqf.
    destruct (Prim2SF (Z2f 0 / Z2f bs)) as [s|s| |s m e] eqn:Hx; try contradiction.
    + cbn [SFsign] in Hqs. subst s.
      rewrite <- (SF2Prim_Prim2SF (Z2f 0 / Z2f bs)), Hx. reflexivity.
    + cbn [SFmag] in Hq. pose proof (pow2_pos e).
      pose proof (IZR_lt 0 (Zpos m) ltac:(lia)). nra.
  - destruct (ceilDiv_bounds len bs ltac:(lia) ltac:(lia)) as [HK [Hlo Hhi]].
    set (K := ceilDiv len bs) in *.
    set (L := Z.log2_up bs).
    assert (HL : 0 <= L <= 53).
    { unfold L. split; [apply Z.log2_up_nonneg|].
      apply Z.log2_up_le_pow2; lia. }
    set (P := 2 ^ L).
    assert (HP : bs <= P < 2 * bs).
    { unfold P, L. split.
      - destruct (Z.eq_dec bs 1) as [->|H1]; [cbn; lia|].
        apply Z.log2_up_spec. lia.
      - destruct (Z.eq_dec bs 1) as [->|H1]; [cbn; lia|].
        pose proof (Z.log2_up_spec bs ltac:(lia)) as [Hl _].
        replace (2 ^ Z.log2_up bs) with (2 * 2 ^ Z.pred (Z.log2_up bs)).
        + lia.
        + rewrite <- Z.pow_succ_r.
          * f_equal. lia.
          * pose proof (Z.log2_up_pos bs ltac:(lia)). lia. }
    assert (HPr : (0 < IZR P)%R) by (apply IZR_lt; lia).
    assert (Hone : (pow2 (- L) * IZR P = 1)%R).
    { unfold P. rewrite <- pow2_IZR by lia. rewrite <- pow2_add.
      replace (- L + L) with 0 by lia. apply pow2_0. }
    pose proof (pow2_pos (- L)) as Hu.
    assert (Hratio : (IZR len / IZR bs * IZR bs = IZR len)%R).
    { unfold Rdiv. rewrite Rmult_assoc, Rinv_l by lra. lra. }
    assert (Hx0 : (0 < IZR len / IZR bs)%R).
    { apply Rmult_lt_0_compat; [apply IZR_lt; lia|apply Rinv_0_lt_compat; lra]. }
    set (X := (IZR len / IZR bs)%R) in *.
    assert (Hbelow : (IZR ((K - 1) * P + 1) * pow2 (- L) <= X)%R).
    { apply Rmult_le_reg_r with (r := (IZR P * IZR bs)%R); [nra|].
      replace (IZR ((K - 1) * P + 1) * pow2 (- L) * (IZR P * IZR bs))%R
        with (IZR ((K - 1) * P + 1) * IZR bs * (pow2 (- L) * IZR P))%R by ring.
      replace (X * (IZR P * IZR bs))%R with (X * IZR bs * IZR P)%R by ring.
      rewrite Hone, Hratio, Rmult_1_r, <- !mult_IZR. apply IZR_le. nia. }
    assert (Habove : (X <= IZR (K * P) * pow2 (- L))%R).
    { apply Rmult_le_reg_r with (r := (IZR P * IZR bs)%R); [nra|].
      replace (IZR (K * P) * pow2 (- L) * (IZR P * IZR bs))%R
        with (IZR (K * P) * IZR bs * (pow2 (- L) * IZR P))%R by ring.
      replace (X * (IZR P * IZR bs))%R with (X * IZR bs * IZR P)%R by ring.
      rewrite Hone, Hratio, Rmult_1_r, <- !mult_IZR. apply IZR_le. nia. }
    assert (Htop : (IZR (K * P) * pow2 (- L) = IZR K)%R).
    { rewrite mult_IZR, Rmult_assoc, (Rmult_comm (IZR P)), Hone. lra. }
    assert (Hbottom : (IZR (K - 1) < IZR ((K - 1) * P + 1) * pow2 (- L))%R).
    { rewrite plus_IZR, mult_IZR, Rmult_plus_distr_r.
      rewrite Rmult_assoc, (Rmult_comm (IZR P)), Hone. lra. }
    destruct (Fdiv_between (Z2f len) (Z2f bs) (- L) ((K - 1) * P + 1) (K * P))
      as (Hqf & Hqs & Hq);
      [assumption|assumption|rewrite Hbv; lra|lia| | |].
    { rewrite Hlm, Hbm. fold X.
      replace (- L + 53) with (53 - L) by lia.
      rewrite (pow2_IZR (53 - L)) by lia.
      assert (Hpow : 2 ^ (53 - L) * P = 2 ^ 53).
      { unfold P. rewrite <- Z.pow_add_r by lia. f_equal. lia. }
      assert (HQ : 0 < 2 ^ (53 - L)) by (apply Z.pow_pos_nonneg; lia).
      assert (Hwide : len < 2 ^ (53 - L) * bs) by nia.
      apply Rmult_lt_reg_r with (r := IZR bs); [exact Hb0|].
      rewrite Hratio, <- mult_IZR. apply IZR_lt. exact Hwide. }
    { rewrite Hlm, Hbm. fold X. split; assumption. }
    rewrite Hsigns in Hqs.
    apply Math_ceil_up; [exact Hqf|exact Hqs|lia|]. lra.
Qed.

(** X16.  The total batch count.  For an input of fewer than 2^52 rows
    and a batch size from 1 to 2^53 - 1, the [availableBatches] of the
    statistics (the total batch count of line 303, computed in double
    arithmetic) is exactly the integer ceiling of rows / batchSize,
    whatever the resume offset is; without a resume offset it is the
    number of batches the planner hands to the loop. *)
Theorem available_batches_is_the_batch_count
    (Row : Type) (options : Options) (rows : list Row) :
  0 < opt_batchSize options < 2 ^ 53 ->
  Z.of_nat (List.length rows) < 2 ^ 52 ->
  availableBatches (stats (start options rows))
  = Z2f (ceilDiv (Z.of_nat (List.length rows)) (opt_batchSize options))
  /\ (opt_skipBatchCount options = undefined ->
      availableBatches (stats (start options rows))
      = Z2f (Z.of_nat (List.length (plannedBatches options rows)))).
Proof.
  intros Hbs Hlen.
  assert (Havail : availableBatches (stats (start options rows))
                   = Z2f (ceilDiv (Z.of_nat (List.length rows)) (opt_batchSize options))).
  { destruct (start_fields Row options rows) as (_ & _ & _ & _ & ->).
    unfold totalBatchCount. apply quotient_ceiling; lia. }
  split; [exact Havail|]. intros Hskip. rewrite Havail. f_equal.
  unfold plannedBatches.
  rewrite (batchesFrom_count Row options (proj1 Hbs));
    [|apply start_planned; lia|apply plannedBatches_fuel; lia].
  f_equal. f_equal.
  destruct (start_fields Row options rows) as (-> & -> & _).
  rewrite splice0_app. unfold skipBatches. rewrite Hskip. reflexivity.
Qed.

Lemma available_batches_is_the_batch_count_witness :
  availableBatches (stats (start plain40 rows95)) = Z2f (ceilDiv 95 40).
Proof.
  destruct (available_batches_is_the_batch_count Z plain40 rows95) as [Havail _].
  - split; reflexivity.
  - reflexivity.
  - exact Havail.
Defined.

(** ** StatsTracker: the first average (lines 375-379) *)

Lemma div_one (t : float) : positiveDuration t -> (t / 1)%float = t.
Proof.
  intros [Hfin [Hpos Hbig]].
  assert (Hsign : SFsign (Prim2SF t) = false) by (apply positive_sign; exact Hpos).
  assert (Hmag : Fmag t = F2R t) by (symmetry; apply F2R_of_sign; exact Hsign).
  pose proof (Prim2SF_valid t) as Hvalid.
  assert (Hone : Fmag 1 = 1%R) by (apply (Fmag_Z2f 1); reflexivity).
  assert (Hshape : exists m e, Prim2SF t = S754_finite false m e).
  { unfold F2R in Hpos. destruct (Prim2SF t) as [s|s| |s m e]; cbn [SF2R] in Hpos;
      try lra. cbn [SFsign] in Hsign. subst s. eauto. }
  destruct Hshape as (m & e & Ht). rewrite Ht in Hvalid.
  assert (He : -1074 <= e <= 970).
  { split.
    - cbn [SpecFloat.valid_binary] in Hvalid. unfold bounded, canonical_mantissa in Hvalid.
      apply andb_prop in Hvalid as [Hc _]. apply Z.eqb_eq in Hc.
      rewrite fexp64 in Hc. lia.
    - pose proof (valid_exponent false m e 1023 Hvalid) as H.
      unfold Fmag in Hmag. rewrite Ht in Hmag. rewrite Hmag in H.
      specialize (H Hbig). lia. }
  assert (Hm53 : (IZR (Zpos m) < pow2 53)%R).
  { cbn [SpecFloat.valid_binary] in Hvalid. unfold bounded, canonical_mantissa in Hvalid.
    apply andb_prop in Hvalid as [Hc _]. apply Z.eqb_eq in Hc. rewrite fexp64 in Hc.
    pose proof (digits2_pos_bounds m) as [_ Hup].
    rewrite (pow2_IZR 53) by lia. apply IZR_lt.
    apply Z.lt_le_trans with (1 := Hup). apply Z.pow_le_mono_r; lia. }
  assert (Hvalue : Fmag t = (IZR (Zpos m) * pow2 e)%R).
  { unfold Fmag. rewrite Ht. reflexivity. }
  pose proof (pow2_pos e) as Hp.
  destruct (Fdiv_between t 1 e (Zpos m) (Zpos m)) as (Hqf & Hqs & Hq).
  - exact Hfin.
  - exact I.
  - change (F2R 1) with (F2R (Z2f 1)). rewrite (proj2 (Z2f_exact 1 ltac:(reflexivity))). lra.
  - exact He.
  - rewrite Hone, Hvalue, pow2_add. unfold Rdiv. rewrite Rinv_1, Rmult_1_r. nra.
  - rewrite Hone, Hvalue. unfold Rdiv. rewrite Rinv_1, Rmult_1_r. lra.
  - apply F_unique; [exact Hqf|exact Hfin| |].
    + rewrite Hqs. change (SFsign (Prim2SF 1)) with false. apply xorb_false_r.
    + rewrite Hvalue. lra.
Qed.

Lemma zero_plus (t : float) : positiveDuration t -> (0 + t)%float = t.
Proof.
  intros [Hfin [Hpos _]]. apply Prim2SF_inj. rewrite FloatAxioms.add_spec.
  change (Prim2SF 0) with (S754_zero false).
  unfold F2R in Hpos. unfold finiteF in Hfin.
  destruct (Prim2SF t) as [s|s| |s m e]; try contradiction; cbn [SF2R] in Hpos;
    [lra|reflexivity].
Qed.

Lemma updateAverage_first (t : float) :
  positiveDuration t -> updateAverage 0%float (0 + 1) t = t.
Proof.
  intros Ht. unfold updateAverage. cbn [add mul div ofZ doubleArith].
  change (0 * Z2f (0 + 1 - 1))%float with 0%float.
  change (Z2f (0 + 1)) with 1%float.
  rewrite (zero_plus t Ht). apply div_one. exact Ht.
Qed.

Lemma retried_average (Row : Type) (rowId : Row -> float) (n : nat) :
  forall st : LoopState Row,
    averageTimePerBatch (stats (retried rowId n st)) = averageTimePerBatch (stats st).
Proof.
  induction n as [|n IH]; intros st; [reflexivity|].
  cbn [retried]. rewrite IH. reflexivity.
Qed.

(** X17.  The first average.  Whatever the mode and however many
    queries raised before it, after the first batch that goes through,
    with a duration that is a finite double above zero, one batch is
    counted and [averageTimePerBatch] is exactly the duration of that
    batch: the recurrence of lines 377-379 loses nothing on its first
    step. *)
Theorem first_average_is_first_duration
    (decode : string -> string -> string) (Row : Type) (rowId : Row -> float)
    (options : Options) (rows : list Row) (failed : list Attempt) (a : Attempt) :
  batch (start options rows) <> [] ->
  forallb isRejected failed = true ->
  delivers decode a ->
  positiveDuration (timeTaken a) ->
  exists st',
    (run decode rowId options (failed ++ [a]) (start options rows) = Continue st'
     \/ run decode rowId options (failed ++ [a]) (start options rows) = Done st'
     \/ run decode rowId options (failed ++ [a]) (start options rows) = Exited st')
    /\ batchesProcessed (stats st') = 1
    /\ averageTimePerBatch (stats st') = timeTaken a.
Proof.
  intros Hb Hfailed Ha Ht.
  rewrite (run_rejected decode Row rowId options failed [a] _ Hfailed Hb).
  destruct (retried_fields Row rowId (List.length failed) (start options rows))
    as (Hbatch & _ & _ & _ & Hp & _).
  pose proof (retried_average Row rowId (List.length failed) (start options rows)) as Havg.
  destruct (start_counters Row options rows) as (Hp0 & _).
  assert (Havg0 : averageTimePerBatch (stats (start options rows)) = 0%float).
  { unfold start. destruct (skipBatches options rows) as [skipped queue].
    destruct (splice0 (opt_batchSize options) queue). reflexivity. }
  rewrite Hp0 in Hp. rewrite Havg0 in Havg.
  set (st0 := retried rowId (List.length failed) (start options rows)) in *.
  destruct (delivers_resolved decode a Ha) as (response & games & Hf & Hg).
  cbn [run]. destruct (batch st0) as [|r pending] eqn:Hb0; [congruence|].
  rewrite (iteration_resolved decode Row rowId options a st0 response games Hf Hg).
  set (st1 := afterResolved rowId options a response games st0).
  assert (Hstats : batchesProcessed (stats st1) = 1
                   /\ averageTimePerBatch (stats st1) = timeTaken a).
  { unfold st1, afterResolved, recordBatch.
    cbn [stats batchesProcessed averageTimePerBatch].
    assert (Hnoted : forall s, batchesProcessed
                                 (if isEmptyResponse response
                                  then pushError (stats st0) s else stats st0) = 0
                               /\ averageTimePerBatch
                                    (if isEmptyResponse response
                                     then pushError (stats st0) s else stats st0) = 0%float).
    { intros s. destruct (isEmptyResponse response); cbn; auto. }
    destruct (Hnoted (noDataError rowId st0)) as [-> ->].
    split; [reflexivity|]. apply updateAverage_first. exact Ht. }
  exists st1. split; [|exact Hstats].
  destruct (opt_debug options); [right; right; reflexivity|].
  cbn [run]. destruct (batch st1); auto.
Qed.

Lemma first_average_is_first_duration_witness :
  exists st',
    (run keepText Z2f plain40 ([rejectedAttempt] ++ [quickAttempt]) (start plain40 rows95)
     = Continue st'
     \/ run keepText Z2f plain40 ([rejectedAttempt] ++ [quickAttempt]) (start plain40 rows95)
        = Done st'
     \/ run keepText Z2f plain40 ([rejectedAttempt] ++ [quickAttempt]) (start plain40 rows95)
        = Exited st')
    /\ batchesProcessed (stats st') = 1
    /\ averageTimePerBatch (stats st') = 100%float.
Proof.
  apply (first_average_is_first_duration keepText Z Z2f plain40 rows95
           [rejectedAttempt] quickAttempt).
  - discriminate.
  - reflexivity.
  - eexists. reflexivity.
  - split; [exact I|].
    change (timeTaken quickAttempt) with (Z2f 100).
    rewrite (proj2 (Z2f_exact 100 ltac:(reflexivity))).
    rewrite (pow2_IZR 1023) by lia.
    split; apply IZR_lt; reflexivity.
Defined.
